(** * Olympic Trip Optimizer (app.py): cost model, date comparator and
      smart-paste price extraction.

    Python floats are IEEE binary64 doubles and are modelled by Rocq's
    primitive [float]; Python ints are [Z].  Python exceptions that the code
    can raise are made explicit with a small error monad. *)

From Stdlib Require Import ZArith Bool List Lia Permutation Sorted.
From Stdlib Require Import Floats Ascii String.
Import ListNotations.

Open Scope Z_scope.
Set Warnings "-inexact-float,-register-all".

(** ** Python runtime *)

Module Py.

Inductive exc : Type :=
| OverflowError
| ZeroDivisionError
| ValueError.

Inductive result (A : Type) : Type :=
| Ok (a : A)
| Raise (e : exc).
Arguments Ok {A} a.
Arguments Raise {A} e.

Definition bind {A B} (m : result A) (f : A -> result B) : result B :=
  match m with
  | Ok a => f a
  | Raise e => Raise e
  end.

Notation "'let*' x := m 'in' f" := (bind m (fun x => f))
  (at level 61, x pattern, m at next level, right associativity).

(** [float(n)] for a Python int: correctly rounded, half to even. *)
Definition float_of_int (n : Z) : float :=
  SF2Prim (binary_normalize prec emax n 0 false).

(** [PyLong_AsDouble]: an int whose rounded value overflows raises. *)
Definition int_to_float (n : Z) : result float :=
  let f := float_of_int n in
  if is_infinity f then Raise OverflowError else Ok f.

(** [x * n] with [x] a float and [n] an int. *)
Definition mul_fi (x : float) (n : Z) : result float :=
  let* y := int_to_float n in Ok (x * y)%float.

(** [x / y] on floats: division by (either) zero raises. *)
Definition div_ff (x y : float) : result float :=
  if (y =? 0)%float then Raise ZeroDivisionError else Ok (x / y)%float.

(** [x / n] with [x] a float and [n] an int. *)
Definition div_fi (x : float) (n : Z) : result float :=
  let* y := int_to_float n in div_ff x y.

(** [x > 0] for a float [x] and the int [0]. *)
Definition gt0 (x : float) : bool := (0 <? x)%float.

End Py.

Import Py.

(** ** Cost model *)

(** [trip_miles]: [base + extra] with [base] an int, so [float(base) + extra]. *)
Definition trip_miles (use_ferry : bool) (extra : float) : float :=
  let base := if use_ferry then 360 else 420 in
  (float_of_int base + extra)%float.

(** The dictionary returned by [cost_breakdown]. *)
Record breakdown : Type := mk_breakdown {
  rental_base : float;
  rental_fees : float;
  fuel_cost : float;
  lodging_total : float;
  park_fee : float;
  ferry_total : float;
  miles : float;
  total : float;
  per_person : float
}.

(** [cost_breakdown].  Where the source yields the int [0] (the fuel cost
    when [mpg > 0] fails, the ferry cost without the ferry) the model holds
    [0.0]: every later use adds it to or stores it beside floats, and
    Python converts it to [0.0] there. *)
Definition cost_breakdown (nights people : Z) (use_ferry : bool)
    (extra_miles rental_daily rental_fees_pct lodging_nightly
     lodging_fees_total gas_price mpg park_fee' ferry_total' : float)
    : result breakdown :=
  let days := nights + 1 in
  let* rental_base' := mul_fi rental_daily days in
  let* pct := div_ff rental_fees_pct 100 in
  let rental_fees' := (rental_base' * pct)%float in
  let miles' := trip_miles use_ferry extra_miles in
  let* fuel_cost' :=
    (if gt0 mpg then let* q := div_ff miles' mpg in Ok (q * gas_price)%float
     else Ok 0%float) in
  let* lodging_nights := mul_fi lodging_nightly nights in
  let lodging_total' := (lodging_nights + lodging_fees_total)%float in
  let ferry := if use_ferry then ferry_total' else 0%float in
  let total' := (rental_base' + rental_fees' + fuel_cost' + lodging_total'
                 + park_fee' + ferry)%float in
  let* per_person' := (if negb (people =? 0) then div_fi total' people
                       else Ok total') in
  Ok {| rental_base := rental_base';
        rental_fees := rental_fees';
        fuel_cost := fuel_cost';
        lodging_total := lodging_total';
        park_fee := park_fee';
        ferry_total := ferry;
        miles := miles';
        total := total';
        per_person := per_person' |}.

(** The scenario of the spec: 2 nights, 2 travellers, default sidebar. *)
Definition scenario_ferry (use_ferry : bool) : result breakdown :=
  cost_breakdown 2 2 use_ferry 40 55 22 150 60 4.5 30 30 50.

(** The breakdown the spec lists for the ferry scenario. *)
Definition spec_breakdown_ferry : breakdown :=
  {| rental_base := 165; rental_fees := 36.3; fuel_cost := 60;
     lodging_total := 360; park_fee := 30; ferry_total := 50;
     miles := 400; total := 701.3; per_person := 350.65 |}.

(** Largest nights and travellers counts covered by the enumeration below. *)
Definition small_bound : Z := 1000.

Definition conv_ok (n : Z) : bool :=
  match int_to_float n with
  | Ok f => negb (f =? 0)%float || (n =? 0)
  | Raise _ => false
  end.

Definition small_range : list Z := map Z.of_nat (seq 0 (Z.to_nat small_bound + 2)).

(** ** Python conversions used by the comparator *)

(** [int(x)] for a float: truncation toward zero; [inf] raises
    OverflowError and [nan] raises ValueError. *)
Definition py_int_of_float (x : float) : result Z :=
  match Prim2SF x with
  | S754_nan => Raise ValueError
  | S754_infinity _ => Raise OverflowError
  | S754_zero _ => Ok 0
  | S754_finite s m e =>
      let a := if 0 <=? e then Z.shiftl (Zpos m) e else Z.shiftr (Zpos m) (- e) in
      Ok (if s then - a else a)
  end.

(** [m / 2^k] rounded to the nearest integer, ties to even ([0 < k]). *)
Definition round_half_even (m : positive) (k : Z) : Z :=
  let q := Z.shiftr (Zpos m) k in
  let r := Zpos m - Z.shiftl q k in
  let half := Z.shiftl 1 (k - 1) in
  if r <? half then q
  else if half <? r then q + 1
  else if Z.even q then q else q + 1.

(** [round(x, 0)] for a float: nans, infinities, zeros and integral values
    round to themselves; otherwise the nearest integer, ties to even, with
    the sign of [x] kept (so [round(-0.4, 0)] is [-0.0]). *)
Definition py_round0 (x : float) : float :=
  match Prim2SF x with
  | S754_finite s m e =>
      if 0 <=? e then x
      else let f := float_of_int (round_half_even m (- e)) in
           if s then (- f)%float else f
  | _ => x
  end.

(** [date + timedelta(days=n)] on proleptic Gregorian ordinals
    ([date.min] is 1, [date.max] is 3652059); [timedelta] itself refuses
    more than 999999999 days. *)
Definition date_add (d n : Z) : result Z :=
  if 999999999 <? Z.abs n then Raise OverflowError
  else let d' := d + n in
       if (1 <=? d') && (d' <=? 3652059) then Ok d' else Raise OverflowError.

(** ** Comparison of date windows (the "Compare dates" tab) *)

(** A row of the scenarios table, with the conversions the loop applies
    ([int(r["nights"])], [bool(r["use_ferry"])], [float(...)]) already
    done; [start] is a date ordinal.  There is no travellers column. *)
Module Scenario.
Record t : Type := mk {
  label : string;
  start : Z;
  nights : Z;
  avis_daily : float;
  avis_fees_pct : float;
  lodging_nightly : float;
  lodging_fees : float;
  use_ferry : bool;
  ferry_total : float;
  extra_miles : float;
  gas : float;
  mpg : float;
  park_fee : float
}.
End Scenario.

(** A row of [results]; [dates] holds the two dates the label renders with
    [strftime('%b %d')]. *)
Module Out.
Record t : Type := mk {
  label : string;
  dates : Z * Z;
  miles : Z;
  total : float;
  per_person : float
}.
End Out.

(** The body of [for _, r in df.iterrows()]. *)
Definition compare_row (r : Scenario.t) : result Out.t :=
  let* end_ := date_add (Scenario.start r) (Scenario.nights r) in
  let* b := cost_breakdown (Scenario.nights r) 2 (Scenario.use_ferry r) (Scenario.extra_miles r)
              (Scenario.avis_daily r) (Scenario.avis_fees_pct r)
              (Scenario.lodging_nightly r) (Scenario.lodging_fees r)
              (Scenario.gas r) (Scenario.mpg r) (Scenario.park_fee r) (Scenario.ferry_total r) in
  let* m := py_int_of_float (miles b) in
  let* t := div_fi (total b) 1 in
  Ok {| Out.label := Scenario.label r;
        Out.dates := (Scenario.start r, end_);
        Out.miles := m;
        Out.total := py_round0 t;
        Out.per_person := py_round0 (per_person b) |}.

(** The loop building [results]; an exception in a row stops it. *)
Fixpoint compute_results (df : list Scenario.t) : result (list Out.t) :=
  match df with
  | [] => Ok []
  | r :: rest =>
      let* o := compare_row r in
      let* os := compute_results rest in
      Ok (o :: os)
  end.

(** ** [DataFrame.sort_values("total")]

    pandas sorts one column with [nargsort(kind="quicksort")]: the NaN
    positions go last, in their order, and the others are ordered by
    numpy's [argsort(kind="quicksort")].  The model follows numpy's portable
    [aquicksort_] for doubles (npysort/quicksort.cpp: introsort with
    median-of-three partitioning, insertion sort below 17 elements and a
    heapsort fallback), the path numpy takes when no vectorised argsort is
    dispatched.  Arrays are lists, positions and indices are [Z]. *)
Module NpSort.

(** [npy::double_tag::less]: NaNs sort last. *)
Definition less (a b : float) : bool :=
  (a <? b)%float || (is_nan b && negb (is_nan a)).

Definition SMALL_QUICKSORT : Z := 16.

Definition get (t : list Z) (i : Z) : Z := nth (Z.to_nat i) t 0.

Fixpoint set (t : list Z) (i : nat) (x : Z) : list Z :=
  match t, i with
  | [], _ => []
  | _ :: t', O => x :: t'
  | y :: t', S i' => y :: set t' i' x
  end.

Definition setz (t : list Z) (i x : Z) : list Z := set t (Z.to_nat i) x.

(** [INTP_SWAP] of the entries at [p] and [q]. *)
Definition swap (t : list Z) (p q : Z) : list Z :=
  let a := get t p in
  let b := get t q in
  setz (setz t p b) q a.

Section Sort.
Variable v : list float.

Definition val (k : Z) : float := nth (Z.to_nat k) v 0%float.

(** [v[*p]] *)
Definition key (t : list Z) (p : Z) : float := val (get t p).

(** Fuel for the inner loops: every loop of [aquicksort_] moves a pointer
    at most [length v] times. *)
Definition steps : nat := S (List.length v).

(** [do ++pi; while (less(v[*pi], vp));] *)
Fixpoint scan_up (fuel : nat) (t : list Z) (pi : Z) (vp : float) : Z :=
  match fuel with
  | O => pi
  | S f => let pi := pi + 1 in
           if less (key t pi) vp then scan_up f t pi vp else pi
  end.

(** [do --pj; while (less(vp, v[*pj]));] *)
Fixpoint scan_down (fuel : nat) (t : list Z) (pj : Z) (vp : float) : Z :=
  match fuel with
  | O => pj
  | S f => let pj := pj - 1 in
           if less vp (key t pj) then scan_down f t pj vp else pj
  end.

(** [for (;;) { scan up; scan down; if (pi >= pj) break; swap }] *)
Fixpoint partition_loop (fuel : nat) (t : list Z) (pi pj : Z) (vp : float)
    : list Z * Z :=
  match fuel with
  | O => (t, pi)
  | S f =>
      let pi := scan_up steps t pi vp in
      let pj := scan_down steps t pj vp in
      if pj <=? pi then (t, pi)
      else partition_loop f (swap t pi pj) pi pj vp
  end.

(** One quicksort partition of [pl..pr]: median of three, then the pivot
    parked at [pr - 1], the loop, and the pivot moved to [pi]. *)
Definition partition (t : list Z) (pl pr : Z) : list Z * Z :=
  let pm := pl + Z.shiftr (pr - pl) 1 in
  let t := if less (key t pm) (key t pl) then swap t pm pl else t in
  let t := if less (key t pr) (key t pm) then swap t pr pm else t in
  let t := if less (key t pm) (key t pl) then swap t pm pl else t in
  let vp := key t pm in
  let t := swap t pm (pr - 1) in
  let '(t, pi) := partition_loop steps t pl (pr - 1) vp in
  (swap t pi (pr - 1), pi).

(** [while (pj > pl && less(vp, v[*pk])) { *pj-- = *pk--; } *pj = vi;] *)
Fixpoint shift_down (fuel : nat) (t : list Z) (pl pj vi : Z) : list Z :=
  match fuel with
  | O => setz t pj vi
  | S f =>
      if (pl <? pj) && less (val vi) (key t (pj - 1))
      then shift_down f (setz t pj (get t (pj - 1))) pl (pj - 1) vi
      else setz t pj vi
  end.

(** [for (pi = pl + 1; pi <= pr; ++pi) { ... }] *)
Fixpoint insertion_from (fuel : nat) (t : list Z) (pl pi pr : Z) : list Z :=
  match fuel with
  | O => t
  | S f =>
      if pi <=? pr
      then insertion_from f (shift_down steps t pl pi (get t pi)) pl (pi + 1) pr
      else t
  end.

Definition insertion (t : list Z) (pl pr : Z) : list Z :=
  insertion_from steps t pl (pl + 1) pr.

(** [aheapsort_] on [n] entries from [pl]: [a = tosort - 1], so [a[i]] is
    [t[pl + i - 1]]. *)
Definition aget (t : list Z) (pl i : Z) : Z := get t (pl + i - 1).
Definition aset (t : list Z) (pl i x : Z) : list Z := setz t (pl + i - 1) x.

(** [for (; j <= n;) { ... } a[i] = tmp;] *)
Fixpoint sift (fuel : nat) (t : list Z) (pl n i j tmp : Z) : list Z :=
  match fuel with
  | O => aset t pl i tmp
  | S f =>
      if j <=? n then
        let j := if (j <? n) && less (val (aget t pl j)) (val (aget t pl (j + 1)))
                 then j + 1 else j in
        if less (val tmp) (val (aget t pl j))
        then sift f (aset t pl i (aget t pl j)) pl n j (j + j) tmp
        else aset t pl i tmp
      else aset t pl i tmp
  end.

(** [for (l = n >> 1; l > 0; --l) { tmp = a[l]; sift }] *)
Fixpoint heapify (fuel : nat) (t : list Z) (pl n l : Z) : list Z :=
  match fuel with
  | O => t
  | S f =>
      if 0 <? l then heapify f (sift steps t pl n l (l + l) (aget t pl l)) pl n (l - 1)
      else t
  end.

(** [for (; n > 1;) { tmp = a[n]; a[n] = a[1]; n -= 1; sift }] *)
Fixpoint pop_max (fuel : nat) (t : list Z) (pl n : Z) : list Z :=
  match fuel with
  | O => t
  | S f =>
      if 1 <? n then
        let tmp := aget t pl n in
        let t := aset t pl n (aget t pl 1) in
        let n := n - 1 in
        pop_max f (sift steps t pl n 1 2 tmp) pl n
      else t
  end.

Definition aheapsort (t : list Z) (pl n : Z) : list Z :=
  pop_max steps (heapify steps t pl n (Z.shiftr n 1)) pl n.

(** The main loop of [aquicksort_]; the stack holds [(pl, pr, depth)]
    frames (numpy keeps the bounds and the depths on two stacks pushed and
    popped together).  [qs_top] is the head of [for (;;)], [qs_while] the
    partitioning [while], [qs_pop] the label [stack_pop]. *)
Fixpoint qs_top (fuel : nat) (t : list Z) (pl pr cdepth : Z)
    (stack : list (Z * Z * Z)) : list Z :=
  match fuel with
  | O => t
  | S f =>
      if cdepth <? 0 then qs_pop f (aheapsort t pl (pr - pl + 1)) stack
      else qs_while f t pl pr cdepth stack
  end
with qs_while (fuel : nat) (t : list Z) (pl pr cdepth : Z)
    (stack : list (Z * Z * Z)) : list Z :=
  match fuel with
  | O => t
  | S f =>
      if SMALL_QUICKSORT <? pr - pl then
        let '(t, pi) := partition t pl pr in
        if pi - pl <? pr - pi
        then qs_while f t pl (pi - 1) (cdepth - 1) ((pi + 1, pr, cdepth - 1) :: stack)
        else qs_while f t (pi + 1) pr (cdepth - 1) ((pl, pi - 1, cdepth - 1) :: stack)
      else qs_pop f (insertion t pl pr) stack
  end
with qs_pop (fuel : nat) (t : list Z) (stack : list (Z * Z * Z)) : list Z :=
  match fuel with
  | O => t
  | S f =>
      match stack with
      | [] => t
      | (pl, pr, d) :: stack => qs_top f t pl pr d stack
      end
  end.

(** [np.argsort(v, kind="quicksort")]: [cdepth = npy_get_msb(num) * 2]. *)
Definition argsort : list Z :=
  let num := Z.of_nat (List.length v) in
  let t := map Z.of_nat (seq 0 (List.length v)) in
  qs_top (8 * steps) t 0 (num - 1) (Z.log2 num * 2) [].

End Sort.

(** [pandas.core.sorting.nargsort(items, kind="quicksort",
    ascending=True, na_position="last")]. *)
Definition nargsort (items : list float) : list Z :=
  let idx := map Z.of_nat (seq 0 (List.length items)) in
  let mask := map is_nan items in
  let non_nans := map snd (filter (fun p => negb (fst p)) (combine mask items)) in
  let non_nan_idx := map snd (filter (fun p => negb (fst p)) (combine mask idx)) in
  let nan_idx := map snd (filter (fun p => fst p) (combine mask idx)) in
  map (fun k => nth (Z.to_nat k) non_nan_idx 0) (argsort non_nans) ++ nan_idx.

End NpSort.

(** [pd.DataFrame(results).sort_values("total")]: the rows taken in the
    order of the indexer. *)
Definition out_default : Out.t := Out.mk EmptyString (0, 0) 0 0 0.

Definition sort_values_total (rows : list Out.t) : list Out.t :=
  map (fun i => nth (Z.to_nat i) rows out_default)
    (NpSort.nargsort (map Out.total rows)).

(** The comparator's contract in the spec: [out] is [rows] taken along a
    permutation [idx] of their positions such that, for positions [p < q]
    of [out], the total at [q] is not below the one at [p], and rows with
    equal totals keep their input order. *)
Definition before (keys : list float) (i j : nat) : Prop :=
  NpSort.less (nth j keys 0%float) (nth i keys 0%float) = false /\
  (NpSort.less (nth i keys 0%float) (nth j keys 0%float) = false -> (i < j)%nat).

Definition ascending_stable (rows out : list Out.t) : Prop :=
  exists idx : list nat,
    Permutation idx (seq 0 (List.length rows)) /\
    out = map (fun i => nth i rows out_default) idx /\
    ForallOrdPairs (before (map Out.total rows)) idx.

(** The entry at [j] of [keys] is not below the one at [i]. *)
Definition in_order (keys : list float) (i j : nat) : Prop :=
  NpSort.less (nth j keys 0%float) (nth i keys 0%float) = false.

(** [out] is [rows] taken along a permutation of their positions, in
    ascending order of total (ties in any order). *)
Definition ascending (rows out : list Out.t) : Prop :=
  exists idx : list nat,
    Permutation idx (seq 0 (List.length rows)) /\
    out = map (fun i => nth i rows out_default) idx /\
    ForallOrdPairs (in_order (map Out.total rows)) idx.

(** The spec's default scenario as a table row, under another label, start
    date and gas price. *)
Definition sample_row (lbl : string) (start : Z) (gas : float) : Scenario.t :=
  Scenario.mk lbl start 2 55 22 150 60 true 50 40 gas 30 30.

(** Eighteen copies of the default scenario, labelled A to R. *)
Definition tied_rows : list Scenario.t :=
  map (fun k => sample_row (String (ascii_of_nat (65 + k)) EmptyString) 739000 4.5)
    (seq 0 18).

(** The comparison table: the sorted frame is built only [if results:];
    without rows nothing is shown, modelled as the empty table. *)
Definition compare_table (df : list Scenario.t) : result (list Out.t) :=
  let* results := compute_results df in
  match results with
  | [] => Ok []
  | _ :: _ => Ok (sort_values_total results)
  end.


(** ** Reasoning aids for the sort *)

(** A key on binary64 values whose lexicographic order is the order of
    [npy::double_tag::less]: [-inf], negative finites, zeros, positive
    finites, [+inf], then NaN. *)
Definition sf_key (x : spec_float) : Z * Z * Z :=
  match x with
  | S754_infinity true => (0, 0, 0)
  | S754_finite true m e => (1, - e, - Zpos m)
  | S754_zero _ => (2, 0, 0)
  | S754_finite false m e => (3, e, Zpos m)
  | S754_infinity false => (4, 0, 0)
  | S754_nan => (5, 0, 0)
  end.

Definition key_ltb (k1 k2 : Z * Z * Z) : bool :=
  let '(a1, b1, c1) := k1 in
  let '(a2, b2, c2) := k2 in
  (a1 <? a2) || ((a1 =? a2) && ((b1 <? b2) || ((b1 =? b2) && (c1 <? c2)))).

(** What one [shift_down] does to the sorted prefix, as a list function:
    [ra] is the prefix read backwards from [pi - 1], [b] the entries
    already shifted up; [x] goes in front of the first entry not above it. *)
Fixpoint ins_back (v : list float) (x : Z) (ra b : list Z) : list Z :=
  match ra with
  | [] => x :: b
  | a :: ra' =>
      if NpSort.less (NpSort.val v x) (NpSort.val v a)
      then ins_back v x ra' (a :: b)
      else rev ra ++ x :: b
  end.

(** One round of the insertion loop on the sorted prefix [L] with the next
    index [j]. *)
Definition ins_step (v : list float) (L : list Z) (j : nat) : list Z :=
  ins_back v (Z.of_nat j) (rev L) [].

Definition beforeZ (v : list float) (i j : Z) : Prop :=
  before v (Z.to_nat i) (Z.to_nat j).

(** Length of an index array as a [Z]. *)
Definition len (t : list Z) : Z := Z.of_nat (List.length t).

(** [a] is not above [b] in numpy's order. *)
Definition fle (a b : float) : Prop := NpSort.less b a = false.

(** [t'] is [t] rearranged inside the positions [a..b] only. *)
Definition within (t t' : list Z) (a b : Z) : Prop :=
  len t' = len t /\ Permutation t' t /\
  (forall k, 0 <= k < len t -> (k < a \/ b < k) -> NpSort.get t' k = NpSort.get t k) /\
  (forall k, a <= k <= b -> exists k', a <= k' <= b /\ NpSort.get t' k = NpSort.get t k').

(** The positions [a..b] of [t] are in ascending order of their values. *)
Definition seg_sorted (v : list float) (t : list Z) (a b : Z) : Prop :=
  forall i j, a <= i -> i < j -> j <= b -> fle (NpSort.key v t i) (NpSort.key v t j).

(** One round of the insertion loop on a sorted run [L] with the next entry [x]. *)
Definition ins_gen (v : list float) (L : list Z) (x : Z) : list Z := ins_back v x (rev L) [].

(** [sift] with the hole filled: the value moving down is stored at [i] and
    exchanged with the larger child while it is below it. *)
Fixpoint siftdown (v : list float) (fuel : nat) (t : list Z) (pl n i : Z) : list Z :=
  match fuel with
  | O => t
  | S f =>
      if i + i <=? n then
        let j := if (i + i <? n) &&
                    NpSort.less (NpSort.val v (NpSort.aget t pl (i + i)))
                                (NpSort.val v (NpSort.aget t pl (i + i + 1)))
                 then i + i + 1 else i + i in
        if NpSort.less (NpSort.val v (NpSort.aget t pl i)) (NpSort.val v (NpSort.aget t pl j))
        then siftdown v f (NpSort.swap t (pl + i - 1) (pl + j - 1)) pl n j
        else t
      else t
  end.

(** The value at heap node [k] ([a[k]] of [aheapsort_]). *)
Definition hkey (v : list float) (t : list Z) (pl k : Z) : float := NpSort.key v t (pl + k - 1).

(** Heap order on the nodes [1..n] for every parent from [lo] on, except
    the parent [ex]. *)
Definition heap_ok (v : list float) (t : list Z) (pl n lo ex : Z) : Prop :=
  forall c, 2 <= c <= n -> lo <= c / 2 -> c / 2 <> ex -> fle (hkey v t pl c) (hkey v t pl (c / 2)).

(** The segments [(pl, pr)] still to be sorted by the main loop. *)
Definition in_seg (s : Z * Z) (k : Z) : Prop := fst s <= k <= snd s.

Definition together (S : list (Z * Z)) (i j : Z) : Prop :=
  exists s, In s S /\ in_seg s i /\ in_seg s j.

Definition disj (s s' : Z * Z) : Prop := forall k, ~ (in_seg s k /\ in_seg s' k).

Definition frames (stack : list (Z * Z * Z)) : list (Z * Z) :=
  map (fun f => (fst (fst f), snd (fst f))) stack.

(** Fuel spent by the main loop on a segment, and on a list of segments. *)
Definition seg_w (s : Z * Z) : Z := 5 * (snd s - fst s + 1) + 4.

Definition sum_w (S : list (Z * Z)) : Z := fold_right (fun s acc => seg_w s + acc) 0 S.

(** Invariant of the main loop of [aquicksort_]: [t] is a permutation of
    [t0], the open segments are disjoint and in range, and any two positions
    not in one open segment are already in order. *)
Definition qinv (v : list float) (t0 t : list Z) (S : list (Z * Z)) : Prop :=
  len t = len t0 /\ Permutation t t0 /\ (List.length t <= List.length v)%nat /\
  Forall (fun s => 0 <= fst s /\ snd s < len t /\ fst s <= snd s + 1) S /\
  ForallOrdPairs disj S /\
  (forall i j, 0 <= i -> i < j -> j < len t -> ~ together S i j ->
     fle (NpSort.key v t i) (NpSort.key v t j)).

(** [t] is [t0] sorted. *)
Definition qfinal (v : list float) (t0 t : list Z) : Prop :=
  len t = len t0 /\ Permutation t t0 /\
  forall i j, 0 <= i -> i < j -> j < len t -> fle (NpSort.key v t i) (NpSort.key v t j).

(** ** Smart paste *)

(** The price extraction of the smart-paste box: [re.findall] of
    [\$\s*(A|B)] with [A = [0-9]{1,3}(?:,[0-9]{3})*(?:\.[0-9]{1,2})?] and
    [B = [0-9]+(?:\.[0-9]{1,2})?], then [float()] of [a] without its commas under a
    bare [except: pass], the [not in vals] check, [sorted(vals,
    reverse=True)[:10]].  The pasted [str] is a list of code points. *)
Module SmartPaste.

(** [[0-9]] *)
Definition is_digit (c : Z) : bool := (48 <=? c) && (c <=? 57).

(** [\s] on a [str] pattern: [Py_UNICODE_ISSPACE]. *)
Definition is_space (c : Z) : bool :=
  ((9 <=? c) && (c <=? 13)) || ((28 <=? c) && (c <=? 32)) ||
  (c =? 133) || (c =? 160) || (c =? 5760) ||
  ((8192 <=? c) && (c <=? 8202)) ||
  (c =? 8232) || (c =? 8233) || (c =? 8239) || (c =? 8287) || (c =? 12288).

(** [\s*], greedy.  Giving back spaces never helps: both alternatives
    start with a digit. *)
Fixpoint skip_space (s : list Z) : list Z :=
  match s with
  | c :: s' => if is_space c then skip_space s' else s
  | [] => []
  end.

(** [[0-9]{1,n}] (greedy; the caller has seen the first digit). *)
Fixpoint digits_upto (n : nat) (s : list Z) : list Z * list Z :=
  match n, s with
  | S n', c :: s' =>
      if is_digit c then let '(d, r) := digits_upto n' s' in (c :: d, r) else ([], s)
  | _, _ => ([], s)
  end.

(** [[0-9]*], greedy. *)
Fixpoint digits_all (s : list Z) : list Z * list Z :=
  match s with
  | c :: s' => if is_digit c then let '(d, r) := digits_all s' in (c :: d, r) else ([], s)
  | [] => ([], [])
  end.

(** [(?:,[0-9]{3})*], greedy. *)
Fixpoint comma_groups (s : list Z) : list Z * list Z :=
  match s with
  | k :: a :: b :: c :: s' =>
      if (k =? 44) && is_digit a && is_digit b && is_digit c
      then let '(g, r) := comma_groups s' in (k :: a :: b :: c :: g, r)
      else ([], s)
  | _ => ([], s)
  end.

(** [(?:\.[0-9]{1,2})?], greedy. *)
Definition frac (s : list Z) : list Z * list Z :=
  match s with
  | p :: a :: s' =>
      if (p =? 46) && is_digit a then
        match s' with
        | b :: s'' => if is_digit b then ([p; a; b], s'') else ([p; a], s')
        | [] => ([p; a], s')
        end
      else ([], s)
  | _ => ([], s)
  end.

(** Alternative [A]; nothing follows the group, so its greedy choices are
    the match. *)
Definition match_A (s : list Z) : option (list Z * list Z) :=
  match s with
  | c :: _ =>
      if is_digit c then
        let '(d, r1) := digits_upto 3 s in
        let '(g, r2) := comma_groups r1 in
        let '(f, r3) := frac r2 in
        Some (d ++ g ++ f, r3)
      else None
  | [] => None
  end.

Definition match_B (s : list Z) : option (list Z * list Z) :=
  match s with
  | c :: _ =>
      if is_digit c then
        let '(d, r1) := digits_all s in
        let '(f, r2) := frac r1 in
        Some (d ++ f, r2)
      else None
  | [] => None
  end.

(** [(A|B)]: [B] is tried only when [A] fails. *)
Definition match_group (s : list Z) : option (list Z * list Z) :=
  match match_A s with
  | Some m => Some m
  | None => match_B s
  end.

(** A match starting at the head of [s]: the group and the rest. *)
Definition match_at (s : list Z) : option (list Z * list Z) :=
  match s with
  | c :: s' => if c =? 36 then match_group (skip_space s') else None
  | [] => None
  end.

(** [re.findall]: after a match the scan resumes at its end, otherwise one
    code point further; every round consumes a code point. *)
Fixpoint findall_from (fuel : nat) (s : list Z) : list (list Z) :=
  match fuel with
  | O => []
  | S f =>
      match s with
      | [] => []
      | _ :: s' =>
          match match_at s with
          | Some (g, rest) => g :: findall_from f rest
          | None => findall_from f s'
          end
      end
  end.

Definition findall (s : list Z) : list (list Z) := findall_from (S (List.length s)) s.

(** [a.replace] dropping every comma *)
Definition remove_commas (s : list Z) : list Z := filter (fun c => negb (c =? 44)) s.

Definition digits_value (l : list Z) : Z := fold_left (fun acc d => acc * 10 + (d - 48)) l 0.

(** The binary64 value nearest to [n / 10^k], ties to even, as CPython's
    [float()] rounds a decimal string. *)
Definition dec_to_float (n : Z) (k : nat) : float :=
  if n =? 0 then 0%float
  else SF2Prim (SFdiv prec emax (S754_finite false (Z.to_pos n) 0)
                               (S754_finite false (Z.to_pos (10 ^ Z.of_nat k)) 0)).

(** [float(s)] on the strings [digits], [digits.digits*] and [.digits+];
    any other string raises [ValueError] (the signs, exponents,
    underscores, surrounding spaces, [inf] and [nan] that [float()] also
    accepts cannot occur in a token of the pattern). *)
Definition py_float (s : list Z) : result float :=
  let '(ip, r) := digits_all s in
  match r with
  | [] => if negb (List.length ip =? 0)%nat then Ok (dec_to_float (digits_value ip) 0)
          else Raise ValueError
  | c :: fp =>
      if (c =? 46) && forallb is_digit fp &&
         negb (List.length ip + List.length fp =? 0)%nat
      then Ok (dec_to_float (digits_value (ip ++ fp)) (List.length fp))
      else Raise ValueError
  end.

(** [for a in amounts: try: v = float(...); if v not in vals:
    vals.append(v) except: pass]; [in] compares with [==]. *)
Fixpoint collect (amounts : list (list Z)) (vals : list float) : list float :=
  match amounts with
  | [] => vals
  | a :: amounts' =>
      match py_float (remove_commas a) with
      | Ok v =>
          collect amounts'
            (if existsb (fun e => (e =? v)%float) vals then vals else vals ++ [v])
      | Raise _ => collect amounts' vals
      end
  end.

(** [sorted(vals, reverse=True)]: a stable sort on [<] in descending
    order, each value placed before the first one below it.  On values
    without NaN every stable sort gives this list. *)
Fixpoint insert_desc (x : float) (l : list float) : list float :=
  match l with
  | [] => [x]
  | e :: l' => if (e <? x)%float then x :: l else e :: insert_desc x l'
  end.

Definition sorted_desc (l : list float) : list float :=
  fold_left (fun acc x => insert_desc x acc) l [].

(** [vals] after [sorted(vals, reverse=True)[:10]]. *)
Definition extract (paste : list Z) : list float :=
  firstn 10 (sorted_desc (collect (findall paste) [])).

End SmartPaste.

(** ASCII text as the code points of a [str]. *)
Definition code_points (s : string) : list Z :=
  map (fun a => Z.of_nat (nat_of_ascii a)) (list_ascii_of_string s).

(** ** Text formatting *)

(** Python's int and float formatting, producing code points. *)
Module Fmt.

(** The decimal digits of [n >= 0], least significant first; [fuel]
    bounds their number. *)
Fixpoint dec_rev (fuel : nat) (n : Z) : list Z :=
  match fuel with
  | O => []
  | S f => (48 + n mod 10) :: (if n <? 10 then [] else dec_rev f (n / 10))
  end.

(** [str(n)] for an int [n >= 0]: at most [log2 n + 1] digits. *)
Definition dec (n : Z) : list Z := rev (dec_rev (S (Z.to_nat (Z.log2 n))) n).

(** [str(n)] for an int. *)
Definition int_str (n : Z) : list Z := if n <? 0 then 45 :: dec (- n) else dec n.

(** Left padding with zeros to width [w]. *)
Definition pad0 (w : nat) (ds : list Z) : list Z := repeat 48 (w - List.length ds) ++ ds.

(** ["%0wd" % n]: the sign counts in the width. *)
Definition fmt_0d (w : nat) (n : Z) : list Z :=
  if n <? 0 then 45 :: pad0 (w - 1) (dec (- n)) else pad0 w (dec n).

(** [(?:,ddd)*] groups after the first one. *)
Fixpoint chunks3 (l : list Z) : list Z :=
  match l with
  | a :: b :: c :: l' => 44 :: a :: b :: c :: chunks3 l'
  | _ => l
  end.

(** The [,] option: a comma between groups of three digits, counted from
    the right. *)
Definition group3 (ds : list Z) : list Z :=
  let h := (List.length ds - 3 * ((List.length ds - 1) / 3))%nat in
  firstn h ds ++ chunks3 (skipn h ds).

(** [|x| * 10^k] rounded to an int, ties to even, for [x = m * 2^e]:
    the digits ['.kf'] prints ([round_half_even] needs [0 < -e]). *)
Definition fixed_digits (k : nat) (m : positive) (e : Z) : Z :=
  let m' := Zpos m * 10 ^ Z.of_nat k in
  if 0 <=? e then Z.shiftl m' e else round_half_even (Z.to_pos m') (- e).

(** The digits of [n] with [k] of them after the point, at least one
    before it, the integral part grouped by threes when [grouping]. *)
Definition point (k : nat) (grouping : bool) (n : Z) : list Z :=
  let ds := pad0 (S k) (dec n) in
  let ip := firstn (List.length ds - k) ds in
  let fp := skipn (List.length ds - k) ds in
  (if grouping then group3 ip else ip) ++
  match k with O => [] | S _ => 46 :: fp end.

(** [format(x, '.kf')] ([grouping = false]) and [format(x, ',.kf')]
    ([grouping = true]) for a float: exact decimal value rounded half to
    even; the sign is printed whenever it is set, for [-0.0] and for
    negatives that round to zero too. *)
Definition fmt_f (k : nat) (grouping : bool) (x : float) : list Z :=
  let sign (s : bool) := if s then [45] else [] in
  match Prim2SF x with
  | S754_nan => code_points "nan"
  | S754_infinity s => sign s ++ code_points "inf"
  | S754_zero s => sign s ++ point k grouping 0
  | S754_finite s m e => sign s ++ point k grouping (fixed_digits k m e)
  end.

End Fmt.

(** [usd(x)]: [f"${x:,.0f}"].  The app passes floats only, and formatting
    a float raises nothing, so the [except] branch (an em dash) is not
    reached. *)
Definition usd (x : float) : list Z := code_points "$" ++ Fmt.fmt_f 0 true x.

(** ** The cost planner tab *)

(** What the planner shows: the three metrics, the six lines of the
    breakdown and the total line. *)
Record planner_view : Type := mk_planner_view {
  planned_miles : list Z;
  fuel_needed : list Z;
  fuel_cost_metric : list Z;
  breakdown_lines : list (list Z);
  total_line : list Z;
  per_person_line : list Z
}.

(** The [with planner:] block, lines 121 to 147; the forecast in between
    catches every exception and is left out.  [miles/mpg] is evaluated
    for the second metric before [cost_breakdown] is called. *)
Definition planner (nights people : Z) (use_ferry : bool)
    (extra_miles rental_daily rental_fees_pct lodging_nightly
     lodging_fees_total gas_price mpg park_fee' ferry_total' : float)
    : result planner_view :=
  let miles' := trip_miles use_ferry extra_miles in
  let planned := Fmt.fmt_f 0 false miles' ++ code_points " mi" in
  let* gal := div_ff miles' mpg in
  let needed := Fmt.fmt_f 1 false gal ++ code_points " gal" in
  let* q := div_ff miles' mpg in
  let fuel := usd (q * gas_price)%float in
  let* b := cost_breakdown nights people use_ferry extra_miles rental_daily
              rental_fees_pct lodging_nightly lodging_fees_total gas_price mpg
              park_fee' ferry_total' in
  Ok {| planned_miles := planned;
        fuel_needed := needed;
        fuel_cost_metric := fuel;
        breakdown_lines := [usd (rental_base b); usd (rental_fees b);
                            usd (fuel_cost b); usd (lodging_total b);
                            usd (park_fee b); usd (ferry_total b)];
        total_line := usd (total b);
        per_person_line := usd (per_person b) |}.

(** ** Dates *)

(** [datetime.date] as its proleptic Gregorian ordinal, with CPython's
    conversions to and from year, month and day. *)
Module Date.

Definition DAYS_IN_MONTH : list Z := [-1; 31; 28; 31; 30; 31; 30; 31; 31; 30; 31; 30; 31].

Definition DAYS_BEFORE_MONTH : list Z :=
  [-1; 0; 31; 59; 90; 120; 151; 181; 212; 243; 273; 304; 334].

Definition is_leap (year : Z) : bool :=
  (year mod 4 =? 0) && (negb (year mod 100 =? 0) || (year mod 400 =? 0)).

Definition days_before_year (year : Z) : Z :=
  let y := year - 1 in y * 365 + y / 4 - y / 100 + y / 400.

Definition days_in_month (year month : Z) : Z :=
  if (month =? 2) && is_leap year then 29 else nth (Z.to_nat month) DAYS_IN_MONTH 0.

Definition days_before_month (year month : Z) : Z :=
  nth (Z.to_nat month) DAYS_BEFORE_MONTH 0 + (if (2 <? month) && is_leap year then 1 else 0).

Definition ymd2ord (year month day : Z) : Z :=
  days_before_year year + days_before_month year month + day.

Definition DI400Y : Z := 146097.
Definition DI100Y : Z := 36524.
Definition DI4Y : Z := 1461.

Definition ord2ymd (n : Z) : Z * Z * Z :=
  let n := n - 1 in
  let n400 := n / DI400Y in
  let n := n mod DI400Y in
  let year := n400 * 400 + 1 in
  let n100 := n / DI100Y in
  let n := n mod DI100Y in
  let n4 := n / DI4Y in
  let n := n mod DI4Y in
  let n1 := n / 365 in
  let n := n mod 365 in
  let year := year + n100 * 100 + n4 * 4 + n1 in
  if (n1 =? 4) || (n100 =? 4) then (year - 1, 12, 31)
  else
    let leapyear := (n1 =? 3) && (negb (n4 =? 24) || (n100 =? 3)) in
    let month := Z.shiftr (n + 50) 5 in
    let preceding := nth (Z.to_nat month) DAYS_BEFORE_MONTH 0
                     + (if (2 <? month) && leapyear then 1 else 0) in
    let '(month, preceding) :=
      if n <? preceding then
        let month := month - 1 in
        (month, preceding - (nth (Z.to_nat month) DAYS_IN_MONTH 0
                             + (if (month =? 2) && leapyear then 1 else 0)))
      else (month, preceding) in
    (year, month, n - preceding + 1).

(** [date.isoformat()]: ["%04d-%02d-%02d" % (year, month, day)]. *)
Definition isoformat (d : Z) : list Z :=
  let '(y, m, dd) := ord2ymd d in
  Fmt.fmt_0d 4 y ++ [45] ++ Fmt.fmt_0d 2 m ++ [45] ++ Fmt.fmt_0d 2 dd.

End Date.

(** ** Deep links *)

(** [s.replace(old, new)] with a one-code-point [old]. *)
Fixpoint replace1 (old : Z) (new : list Z) (s : list Z) : list Z :=
  match s with
  | [] => []
  | c :: s' => (if c =? old then new else [c]) ++ replace1 old new s'
  end.

Definition booking_link (city : list Z) (start end_ adults : Z) : list Z :=
  code_points "https://www.booking.com/searchresults.html?ss="
  ++ replace1 32 (code_points "+") city
  ++ code_points "&checkin=" ++ Date.isoformat start
  ++ code_points "&checkout=" ++ Date.isoformat end_
  ++ code_points "&group_adults=" ++ Fmt.int_str adults
  ++ code_points "&no_rooms=1&order=price".

Definition expedia_link (city : list Z) (start end_ adults : Z) : list Z :=
  code_points "https://www.expedia.com/Hotel-Search?destination="
  ++ replace1 32 (code_points "%20") city
  ++ code_points "&startDate=" ++ Date.isoformat start
  ++ code_points "&endDate=" ++ Date.isoformat end_
  ++ code_points "&adults=" ++ Fmt.int_str adults
  ++ code_points "&sort=PRICE_LOW_TO_HIGH".

Definition airbnb_link (city : list Z) (start end_ adults : Z) : list Z :=
  let city_q := replace1 32 (code_points "-") city in
  code_points "https://www.airbnb.com/s/" ++ city_q
  ++ code_points "/homes?checkin=" ++ Date.isoformat start
  ++ code_points "&checkout=" ++ Date.isoformat end_
  ++ code_points "&adults=" ++ Fmt.int_str adults.

(** ** The weather forecast *)

Module Forecast.

(** A decoded JSON value; an object lists the entries of the parsed dict
    (distinct keys). *)
Inductive json : Type :=
| JNull
| JBool (b : bool)
| JInt (n : Z)
| JFloat (x : float)
| JStr (s : list Z)
| JArr (l : list json)
| JObj (kv : list (list Z * json)).

Fixpoint assoc (k : list Z) (kv : list (list Z * json)) : option json :=
  match kv with
  | [] => None
  | (k', v) :: kv' => if list_eq_dec Z.eq_dec k k' then Some v else assoc k kv'
  end.

(** [v.get(k, default)]; a value other than a dict has no [get]
    (AttributeError, [None] here). *)
Definition get (v : json) (k : list Z) (default : json) : option json :=
  match v with
  | JObj kv => Some (match assoc k kv with Some x => x | None => default end)
  | _ => None
  end.

(** [iter(v)]: a list's items, a str's characters, a dict's keys; other
    values raise TypeError ([None] here). *)
Definition iter (v : json) : option (list json) :=
  match v with
  | JArr l => Some l
  | JStr s => Some (map (fun c => JStr [c]) s)
  | JObj kv => Some (map (fun p => JStr (fst p)) kv)
  | _ => None
  end.

(** [{"date": t, "min °C": tmin, "max °C": tmax, "precip %": p}] *)
Record row : Type := mk_row { date : json; tmin : json; tmax : json; precip : json }.

(** [zip] of four iterables: it stops with the shortest. *)
Fixpoint zip4 (a b c d : list json) : list row :=
  match a, b, c, d with
  | x :: a', y :: b', z :: c', w :: d' => mk_row x y z w :: zip4 a' b' c' d'
  | _, _, _, _ => []
  end.

Definition url (start end_ : Z) : list Z :=
  code_points "https://api.open-meteo.com/v1/forecast?latitude=48.1181&longitude=-123.4307"
  ++ code_points "&daily=temperature_2m_max,temperature_2m_min,precipitation_probability_max&timezone=auto"
  ++ code_points "&start_date=" ++ Date.isoformat start
  ++ code_points "&end_date=" ++ Date.isoformat end_.

Definition k_daily : list Z := code_points "daily".
Definition k_time : list Z := code_points "time".
Definition k_min : list Z := code_points "temperature_2m_min".
Definition k_max : list Z := code_points "temperature_2m_max".
Definition k_precip : list Z := code_points "precipitation_probability_max".

(** [forecast_rows(start, nights)].  [fetch url] is [requests.get(url,
    timeout=10).json()], [None] when the request or the decoding raises.
    Every exception of the body is caught and gives [[]]. *)
Definition forecast_rows (fetch : list Z -> option json) (start nights : Z) : list row :=
  match date_add start (nights + 1) with
  | Raise _ => []
  | Ok end_ =>
      match fetch (url start end_) with
      | None => []
      | Some j =>
          match get j k_daily (JObj []) with
          | None => []
          | Some d =>
              match get d k_time (JArr []), get d k_min (JArr []),
                    get d k_max (JArr []), get d k_precip (JArr []) with
              | Some t, Some mn, Some mx, Some p =>
                  match iter t, iter mn, iter mx, iter p with
                  | Some ts, Some mns, Some mxs, Some ps => zip4 ts mns mxs ps
                  | _, _, _, _ => []
                  end
              | _, _, _, _ => []
              end
          end
      end
  end.

End Forecast.

(** ** Smart paste: choices and the "Apply selections" button *)

Module Apply.

(** [sorted(vals)]: a stable sort on [<], each value placed after the
    ones it is not below (on values without NaN every stable sort gives
    this list). *)
Fixpoint insert_asc (x : float) (l : list float) : list float :=
  match l with
  | [] => [x]
  | e :: l' => if (x <? e)%float then x :: l else e :: insert_asc x l'
  end.

Definition sorted_asc (l : list float) : list float :=
  fold_left (fun acc x => insert_asc x acc) l [].

(** [[None] + sorted(vals)] (lodging nightly, Avis daily). *)
Definition none_options (vals : list float) : list (option float) :=
  None :: map Some (sorted_asc vals).

(** [[0.0] + sorted(vals)] (one-time fees, ferry). *)
Definition zero_options (vals : list float) : list float := 0%float :: sorted_asc vals.

(** The float entries of [st.session_state]. *)
Definition state : Type := string -> option float.

Definition set (st : state) (k : string) (v : float) : state :=
  fun k' => if String.eqb k' k then Some v else st k'.

(** [st.session_state.get(k, default)] *)
Definition get (st : state) (k : string) (default : float) : float :=
  match st k with Some v => v | None => default end.

(** [a or b] for a float [a]: [a] unless it is zero ([0.0] and [-0.0] are
    falsy, NaN is truthy). *)
Definition py_or (a b : float) : float := if (a =? 0)%float then b else a.

(** The body of [if st.button("Apply selections to sidebar"):]. *)
Definition apply_selections (st : state) (pick_lodging : option float)
    (pick_lodge_fees : float) (pick_avis_daily : option float)
    (pick_ferry : float) : state :=
  let st := match pick_lodging with
            | Some p => set st "lodging_nightly" (py_or p (get st "lodging_nightly" 0))
            | None => st
            end in
  let st := set st "lodging_fees_total" pick_lodge_fees in
  let st := match pick_avis_daily with
            | Some p => set st "rental_daily" (py_or p (get st "rental_daily" 0))
            | None => st
            end in
  set st "ferry_total" pick_ferry.

End Apply.

(** ** Searches for a selected comparison row *)

(** The picker's options, [[r["label"] for r in results] if results else []]. *)
Definition picker_options (results : list Out.t) : list string := map Out.label results.

(** The body of [if sel:]: [df[df["label"]==sel].iloc[0]] and [end2];
    [None] when no row carries the label ([.iloc[0]] raises IndexError). *)
Definition selected_window (df : list Scenario.t) (sel : string) : option (result (Scenario.t * Z)) :=
  match find (fun r => String.eqb (Scenario.label r) sel) df with
  | None => None
  | Some r => Some (let* e := date_add (Scenario.start r) (Scenario.nights r) in Ok (r, e))
  end.

(** The whole-dollar amount [usd(x)] prints, without its sign. *)
Definition usd_amount (x : float) : Z :=
  match Prim2SF x with
  | S754_finite _ m e => Fmt.fixed_digits 0 m e
  | _ => 0
  end.

(** ** Reasoning aids *)

(** Lists of decimal digits. *)
Definition all_digits (l : list Z) : Prop := Forall (fun c => SmartPaste.is_digit c = true) l.

(** Lists of floats none of which is NaN. *)
Definition no_nan (l : list float) : Prop := Forall (fun v => is_nan v = false) l.

(** The checks, on the ordinals of one 400-year cycle, that [ord2ymd]
    yields a valid date of the first 400 years whose ordinal it is. *)
Module DateCheck.
Import Date.

Definition cycle_ok (r : Z) : bool :=
  let '(y, m, dd) := ord2ymd (r + 1) in
  (1 <=? y) && (y <=? 400) && (implb (r <=? 145730) (y <=? 399)) &&
  (1 <=? m) && (m <=? 12) && (1 <=? dd) && (dd <=? days_in_month y m) &&
  (ymd2ord y m dd =? r + 1).

Definition cycle_block (a : Z) : bool :=
  forallb (fun b => let r := 1000 * a + Z.of_nat b in implb (r <? 146097) (cycle_ok r))
    (seq 0 1000).

End DateCheck.

(* ------------------------------------------------------------------ *)
(** * Theorems *)

(** ** Float facts, from the primitive-float specification *)

Lemma SFcompare_swap : forall x y,
  SFcompare y x = option_map CompOpp (SFcompare x y).
Proof.
  intros [sx|sx| |sx mx ex] [sy|sy| |sy my ey]; simpl; auto;
    try (destruct sx; destruct sy; reflexivity);
    try (destruct sx; reflexivity); try (destruct sy; reflexivity).
  change (Pos.compare_cont Eq my mx) with (Pos.compare my mx).
  change (Pos.compare_cont Eq mx my) with (Pos.compare mx my).
  rewrite (Z.compare_antisym ex ey), (Pos.compare_antisym mx my).
  destruct sx, sy, (Z.compare ex ey), (Pos.compare mx my); reflexivity.
Qed.

Lemma ltb_asym : forall x y, (x <? y)%float = true -> (y <? x)%float = false.
Proof.
  intros x y H. rewrite FloatAxioms.ltb_spec in *. unfold SFltb in *.
  rewrite (SFcompare_swap (Prim2SF x) (Prim2SF y)).
  destruct (SFcompare (Prim2SF x) (Prim2SF y)) as [[]|]; simpl; congruence.
Qed.

Lemma eqb_sym : forall x y, (x =? y)%float = (y =? x)%float.
Proof.
  intros x y. rewrite !FloatAxioms.eqb_spec. unfold SFeqb.
  rewrite (SFcompare_swap (Prim2SF x) (Prim2SF y)).
  destruct (SFcompare (Prim2SF x) (Prim2SF y)) as [[]|]; reflexivity.
Qed.

Lemma gt0_not_zero : forall m, gt0 m = true -> (m =? 0)%float = false.
Proof.
  intros m H. unfold gt0 in H. rewrite FloatAxioms.ltb_spec in H. rewrite FloatAxioms.eqb_spec.
  unfold SFltb, SFeqb in *.
  rewrite (SFcompare_swap (Prim2SF 0) (Prim2SF m)).
  destruct (SFcompare (Prim2SF 0) (Prim2SF m)) as [[]|]; simpl; congruence.
Qed.

(** ** Conversions of small ints *)

Lemma small_range_ok : forallb conv_ok small_range = true.
Proof. vm_compute. reflexivity. Qed.

Lemma conv_ok_small : forall n, 0 <= n <= small_bound + 1 -> conv_ok n = true.
Proof.
  intros n Hn. pose proof small_range_ok as H. rewrite forallb_forall in H.
  apply H. unfold small_range. replace n with (Z.of_nat (Z.to_nat n)) by lia.
  apply in_map, in_seq. lia.
Qed.

Lemma int_to_float_small : forall n, 0 <= n <= small_bound + 1 ->
  exists f, int_to_float n = Ok f /\ ((f =? 0)%float = false \/ n = 0).
Proof.
  intros n Hn. pose proof (conv_ok_small n Hn) as H. unfold conv_ok in H.
  destruct (int_to_float n) as [f|e]; [|discriminate].
  exists f. split; [reflexivity|].
  apply orb_true_iff in H as [H|H].
  - left. now apply negb_true_iff.
  - right. now apply Z.eqb_eq.
Qed.

(** ** Cost model *)

(** [div_ff x 100] never raises. *)
Lemma div_ff_100 : forall x, div_ff x 100 = Ok (x / 100)%float.
Proof. reflexivity. Qed.

Lemma mul_fi_small : forall x n, 0 <= n <= small_bound + 1 ->
  exists y, mul_fi x n = Ok y.
Proof.
  intros x n Hn. destruct (int_to_float_small n Hn) as [f [Hf _]].
  unfold mul_fi. rewrite Hf. simpl. eauto.
Qed.

Lemma div_fi_small : forall x n, 0 < n <= small_bound + 1 ->
  exists y, div_fi x n = Ok y.
Proof.
  intros x n Hn. destruct (int_to_float_small n ltac:(lia)) as [f [Hf [Hz|Hz]]];
    [|lia].
  unfold div_fi. rewrite Hf. simpl. unfold div_ff. rewrite Hz. eauto.
Qed.

(** C1 (cost_breakdown): whenever [cost_breakdown] returns, its [total] is
    the sum, in the source's order, of rental base, rental fees, fuel,
    lodging, park fee and ferry cost. *)
Theorem cost_breakdown_total_is_sum :
  forall nights people use_ferry extra rd rp ln lf gas mpg pf ft b,
  cost_breakdown nights people use_ferry extra rd rp ln lf gas mpg pf ft = Ok b ->
  total b = (rental_base b + rental_fees b + fuel_cost b + lodging_total b
             + park_fee b + ferry_total b)%float.
Proof.
  intros until b. unfold cost_breakdown, bind.
  destruct (mul_fi rd (nights + 1)) as [rb|]; [|discriminate].
  rewrite div_ff_100.
  destruct (if gt0 mpg then _ else _) as [fc|]; [|discriminate].
  destruct (mul_fi ln nights) as [lnn|]; [|discriminate].
  destruct (if negb (people =? 0) then _ else _) as [pp|]; [|discriminate].
  intros H. inversion H. reflexivity.
Qed.

Lemma cost_breakdown_total_is_sum_witness :
  scenario_ferry true = Ok spec_breakdown_ferry /\
  total spec_breakdown_ferry =
    (rental_base spec_breakdown_ferry + rental_fees spec_breakdown_ferry
     + fuel_cost spec_breakdown_ferry + lodging_total spec_breakdown_ferry
     + park_fee spec_breakdown_ferry + ferry_total spec_breakdown_ferry)%float.
Proof.
  split.
  - vm_compute. reflexivity.
  - apply (cost_breakdown_total_is_sum 2 2 true 40 55 22 150 60 4.5 30 30 50).
    vm_compute. reflexivity.
Defined.

(** C2 (cost_breakdown, trip_miles): on the spec's scenario with the ferry,
    the breakdown is miles 400, rental base 165, fees 36.3, fuel 60,
    lodging 360, ferry 50, total 701.3 and 350.65 per person (each the
    double nearest to the decimal, as Python prints it). *)
Theorem scenario_ferry_breakdown :
  scenario_ferry true = Ok spec_breakdown_ferry.
Proof. vm_compute. reflexivity. Qed.

(** C3 counterexample: without the ferry the total is not 710.3. *)
Lemma scenario_no_ferry_total_not_710_3 :
  ~ (exists b, scenario_ferry false = Ok b /\ miles b = 460%float
      /\ ferry_total b = 0%float /\ fuel_cost b = 69%float
      /\ total b = 710.3%float).
Proof.
  intros [b [H [_ [_ [_ Ht]]]]].
  vm_compute in H. inversion H as [Hb]. subst b.
  apply (f_equal (fun x => (x =? 710.3)%float)) in Ht.
  vm_compute in Ht. discriminate.
Qed.

(** C3 (cost_breakdown, trip_miles), amended: without the ferry the same
    scenario gives miles 460, ferry 0, fuel 69 and total 660.3, with rental
    base, rental fees and lodging equal to the ferry case. *)
Theorem scenario_no_ferry_breakdown :
  exists bt bf, scenario_ferry true = Ok bt /\ scenario_ferry false = Ok bf
    /\ miles bf = 460%float /\ ferry_total bf = 0%float
    /\ fuel_cost bf = 69%float /\ total bf = 660.3%float
    /\ rental_base bf = rental_base bt /\ rental_fees bf = rental_fees bt
    /\ lodging_total bf = lodging_total bt.
Proof.
  vm_compute. do 2 eexists. repeat split.
Qed.

(** C5 (cost_breakdown): the two divisions are guarded.  With [mpg = 0] the
    fuel cost of every returned breakdown is 0, and with [people = 0] the
    per-person figure is the total.  These zero cases are results, not
    errors: for every nights and travellers count up to [small_bound]
    (the app allows at most 10 nights and 6 travellers), [cost_breakdown]
    returns a breakdown, for any [mpg] when [people = 0]. *)
Theorem cost_breakdown_zero_guards :
  (forall nights people use_ferry extra rd rp ln lf gas pf ft b,
     cost_breakdown nights people use_ferry extra rd rp ln lf gas 0 pf ft = Ok b ->
     fuel_cost b = 0%float) /\
  (forall nights use_ferry extra rd rp ln lf gas mpg pf ft b,
     cost_breakdown nights 0 use_ferry extra rd rp ln lf gas mpg pf ft = Ok b ->
     per_person b = total b) /\
  (forall nights people use_ferry extra rd rp ln lf gas pf ft,
     0 <= nights <= small_bound -> 0 <= people <= small_bound ->
     exists b,
       cost_breakdown nights people use_ferry extra rd rp ln lf gas 0 pf ft = Ok b) /\
  (forall nights use_ferry extra rd rp ln lf gas mpg pf ft,
     0 <= nights <= small_bound ->
     exists b,
       cost_breakdown nights 0 use_ferry extra rd rp ln lf gas mpg pf ft = Ok b).
Proof.
  split; [|split; [|split]].
  - intros until b. unfold cost_breakdown, bind.
    destruct (mul_fi rd (nights + 1)) as [rb|]; [|discriminate].
    rewrite div_ff_100. change (gt0 0) with false.
    destruct (mul_fi ln nights) as [lnn|]; [|discriminate].
    destruct (if negb (people =? 0) then _ else _) as [pp|]; [|discriminate].
    intros H. inversion H. reflexivity.
  - intros until b. unfold cost_breakdown, bind.
    destruct (mul_fi rd (nights + 1)) as [rb|]; [|discriminate].
    rewrite div_ff_100.
    destruct (if gt0 mpg then _ else _) as [fc|]; [|discriminate].
    destruct (mul_fi ln nights) as [lnn|]; [|discriminate].
    simpl. intros H. inversion H. reflexivity.
  - intros until ft. intros Hn Hp. unfold cost_breakdown, bind.
    destruct (mul_fi_small rd (nights + 1) ltac:(lia)) as [rb Hrb]. rewrite Hrb.
    rewrite div_ff_100. change (gt0 0) with false.
    destruct (mul_fi_small ln nights ltac:(lia)) as [lnn Hlnn]. rewrite Hlnn.
    destruct (Z.eqb_spec people 0) as [->|Hp0]; simpl.
    + eauto.
    + match goal with |- context [div_fi ?t people] =>
        destruct (div_fi_small t people ltac:(lia)) as [pp Hpp]; rewrite Hpp end.
      eauto.
  - intros until ft. intros Hn. unfold cost_breakdown, bind.
    destruct (mul_fi_small rd (nights + 1) ltac:(lia)) as [rb Hrb]. rewrite Hrb.
    rewrite div_ff_100.
    destruct (gt0 mpg) eqn:Hm.
    + unfold div_ff. rewrite (gt0_not_zero mpg Hm). simpl.
      destruct (mul_fi_small ln nights ltac:(lia)) as [lnn Hlnn]. rewrite Hlnn.
      simpl. eauto.
    + destruct (mul_fi_small ln nights ltac:(lia)) as [lnn Hlnn]. rewrite Hlnn.
      simpl. eauto.
Qed.

Lemma cost_breakdown_zero_guards_witness :
  (exists b, cost_breakdown 2 2 true 40 55 22 150 60 4.5 0 30 50 = Ok b
             /\ fuel_cost b = 0%float) /\
  (exists b, cost_breakdown 2 0 true 40 55 22 150 60 4.5 30 30 50 = Ok b
             /\ per_person b = total b).
Proof.
  destruct cost_breakdown_zero_guards as [Hf [Hp [Ef Ep]]].
  split.
  - destruct (Ef 2 2 true 40%float 55%float 22%float 150%float 60%float 4.5%float
                 30%float 50%float ltac:(unfold small_bound; lia)
                 ltac:(unfold small_bound; lia)) as [b Hb].
    exists b. split; [exact Hb|]. exact (Hf _ _ _ _ _ _ _ _ _ _ _ b Hb).
  - destruct (Ep 2 true 40%float 55%float 22%float 150%float 60%float 4.5%float
                 30%float 30%float 50%float ltac:(unfold small_bound; lia)) as [b Hb].
    exists b. split; [exact Hb|]. exact (Hp _ _ _ _ _ _ _ _ _ _ _ b Hb).
Defined.

(** C6 (trip_miles, cost_breakdown): the distance is [360 + extra] with the
    ferry and [420 + extra] without, for every extra mileage; and without
    the ferry every returned breakdown has ferry cost 0, whatever ferry
    price was entered. *)
Theorem trip_miles_and_ferry_cost :
  (forall use_ferry extra,
     trip_miles use_ferry extra = ((if use_ferry then 360 else 420) + extra)%float) /\
  (forall nights people use_ferry extra rd rp ln lf gas mpg pf ft b,
     cost_breakdown nights people use_ferry extra rd rp ln lf gas mpg pf ft = Ok b ->
     miles b = trip_miles use_ferry extra
     /\ (use_ferry = false -> ferry_total b = 0%float)).
Proof.
  split.
  - intros [|] extra; reflexivity.
  - intros until b. unfold cost_breakdown, bind.
    destruct (mul_fi rd (nights + 1)) as [rb|]; [|discriminate].
    rewrite div_ff_100.
    destruct (if gt0 mpg then _ else _) as [fc|]; [|discriminate].
    destruct (mul_fi ln nights) as [lnn|]; [|discriminate].
    destruct (if negb (people =? 0) then _ else _) as [pp|]; [|discriminate].
    intros H. inversion H. split; [reflexivity|]. intros ->. reflexivity.
Qed.

Lemma trip_miles_and_ferry_cost_witness :
  exists b, scenario_ferry false = Ok b /\ miles b = trip_miles false 40
            /\ ferry_total b = 0%float.
Proof.
  destruct trip_miles_and_ferry_cost as [_ H].
  exists {| rental_base := 165; rental_fees := 36.3; fuel_cost := 69;
            lodging_total := 360; park_fee := 30; ferry_total := 0;
            miles := 460; total := 660.3; per_person := 330.15 |}.
  assert (E : scenario_ferry false =
    Ok {| rental_base := 165; rental_fees := 36.3; fuel_cost := 69;
          lodging_total := 360; park_fee := 30; ferry_total := 0;
          miles := 460; total := 660.3; per_person := 330.15 |})
    by (vm_compute; reflexivity).
  destruct (H 2 2 false 40%float 55%float 22%float 150%float 60%float 4.5%float
               30%float 30%float 50%float _ E) as [Hm Hf].
  split; [exact E|]. split; [exact Hm|]. exact (Hf eq_refl).
Defined.

(** ** Comparator *)

Lemma cost_breakdown_two_people :
  forall nights use_ferry extra rd rp ln lf gas mpg pf ft b,
  cost_breakdown nights 2 use_ferry extra rd rp ln lf gas mpg pf ft = Ok b ->
  per_person b = (total b / 2)%float.
Proof.
  intros until b. unfold cost_breakdown, bind.
  destruct (mul_fi rd (nights + 1)) as [rb|]; [|discriminate].
  rewrite div_ff_100.
  destruct (if gt0 mpg then _ else _) as [fc|]; [|discriminate].
  destruct (mul_fi ln nights) as [lnn|]; [|discriminate].
  simpl negb. cbv iota.
  match goal with |- context [div_fi ?t 2] =>
    change (div_fi t 2) with (Ok (t / 2)%float) end.
  intros H. inversion H. reflexivity.
Qed.

Lemma compare_row_spec : forall r o, compare_row r = Ok o ->
  exists b,
    cost_breakdown (Scenario.nights r) 2 (Scenario.use_ferry r) (Scenario.extra_miles r)
      (Scenario.avis_daily r) (Scenario.avis_fees_pct r) (Scenario.lodging_nightly r)
      (Scenario.lodging_fees r) (Scenario.gas r) (Scenario.mpg r) (Scenario.park_fee r)
      (Scenario.ferry_total r) = Ok b /\
    py_int_of_float (miles b) = Ok (Out.miles o) /\
    Out.total o = py_round0 (total b / 1)%float /\
    Out.per_person o = py_round0 (per_person b).
Proof.
  intros r o. unfold compare_row, bind.
  destruct (date_add _ _) as [e|]; [|discriminate].
  destruct (cost_breakdown _ _ _ _ _ _ _ _ _ _ _ _) as [b|] eqn:Hb; [|discriminate].
  destruct (py_int_of_float (miles b)) as [m|] eqn:Hm; [|discriminate].
  change (div_fi (total b) 1) with (Ok (total b / 1)%float).
  intros H. inversion H. subst o. simpl. exists b. auto.
Qed.

(** C7 (compare tab, [people=2]): every row of the comparison is computed
    with two travellers: its per-person figure is [round(total / 2, 0)] of
    the row's breakdown for [people = 2].  [compare_row] takes no travellers
    argument and [Scenario.t] has no travellers field. *)
Theorem compare_row_two_travellers : forall r o, compare_row r = Ok o ->
  exists b,
    cost_breakdown (Scenario.nights r) 2 (Scenario.use_ferry r) (Scenario.extra_miles r)
      (Scenario.avis_daily r) (Scenario.avis_fees_pct r) (Scenario.lodging_nightly r)
      (Scenario.lodging_fees r) (Scenario.gas r) (Scenario.mpg r) (Scenario.park_fee r)
      (Scenario.ferry_total r) = Ok b /\
    Out.per_person o = py_round0 (total b / 2)%float.
Proof.
  intros r o H. destruct (compare_row_spec r o H) as [b [Hb [_ [_ Hp]]]].
  exists b. split; [exact Hb|]. rewrite Hp.
  rewrite (cost_breakdown_two_people _ _ _ _ _ _ _ _ _ _ _ b Hb). reflexivity.
Qed.

Lemma compare_row_two_travellers_witness :
  exists o b, compare_row (sample_row "A" 739000 4.5) = Ok o /\
    scenario_ferry true = Ok b /\ Out.per_person o = py_round0 (total b / 2)%float.
Proof.
  assert (E : compare_row (sample_row "A" 739000 4.5) =
              Ok (Out.mk "A" (739000, 739002) 400 701 351)) by (vm_compute; reflexivity).
  destruct (compare_row_two_travellers _ _ E) as [b [Hb Hp]].
  exists (Out.mk "A" (739000, 739002) 400 701 351), b.
  split; [exact E|]. split; [exact Hb|]. exact Hp.
Defined.

(** C8 (compare tab, rounding and [sort_values]): each row reports
    [int(miles)], [round(total / 1, 0)] and [round(per_person, 0)], and the
    table is [results] sorted on those rounded totals.  So two scenarios
    whose exact totals 701.3 and 700.9 both round to 701 keep their input
    order, although the second one is cheaper. *)
Theorem compare_table_rounded_keys :
  (forall r o, compare_row r = Ok o ->
     exists b,
       cost_breakdown (Scenario.nights r) 2 (Scenario.use_ferry r) (Scenario.extra_miles r)
         (Scenario.avis_daily r) (Scenario.avis_fees_pct r) (Scenario.lodging_nightly r)
         (Scenario.lodging_fees r) (Scenario.gas r) (Scenario.mpg r) (Scenario.park_fee r)
         (Scenario.ferry_total r) = Ok b /\
       py_int_of_float (miles b) = Ok (Out.miles o) /\
       Out.total o = py_round0 (total b / 1)%float /\
       Out.per_person o = py_round0 (per_person b)) /\
  (forall df rows, compute_results df = Ok rows ->
     compare_table df = Ok (sort_values_total rows)) /\
  (exists bA bB out,
     scenario_ferry true = Ok bA /\
     cost_breakdown 2 2 true 40 55 22 150 60 4.47 30 30 50 = Ok bB /\
     (total bB <? total bA)%float = true /\
     compare_table [sample_row "A" 739000 4.5; sample_row "B" 739000 4.47] = Ok out /\
     map Out.label out = ["A"; "B"]%string /\
     map Out.total out = [701; 701]%float).
Proof.
  split; [exact compare_row_spec|]. split.
  - intros df rows H. unfold compare_table. rewrite H. simpl.
    destruct rows; reflexivity.
  - vm_compute. do 3 eexists. repeat split.
Qed.

Lemma compare_table_rounded_keys_witness :
  exists o b, compare_row (sample_row "B" 739000 4.47) = Ok o /\
    cost_breakdown 2 2 true 40 55 22 150 60 4.47 30 30 50 = Ok b /\
    Out.total o = py_round0 (total b / 1)%float.
Proof.
  destruct compare_table_rounded_keys as [H _].
  assert (E : compare_row (sample_row "B" 739000 4.47) =
              Ok (Out.mk "B" (739000, 739002) 400 701 350)) by (vm_compute; reflexivity).
  destruct (H _ _ E) as [b [Hb [_ [Ht _]]]].
  exists (Out.mk "B" (739000, 739002) 400 701 350), b.
  split; [exact E|]. split; [exact Hb|]. exact Ht.
Defined.

(** C9 (compare tab, [if results:]): an empty scenario table gives an
    empty comparison and raises nothing. *)
Theorem compare_table_empty : compare_table [] = Ok [].
Proof. reflexivity. Qed.


(** ** The sort on small tables *)

Lemma SFeqb_refl_nan : forall x, SFeqb x x = match x with S754_nan => false | _ => true end.
Proof.
  intros [s|s| |s m e]; unfold SFeqb; simpl; auto; destruct s; simpl; auto;
    rewrite Z.compare_refl; change (Pos.compare_cont Eq m m) with (Pos.compare m m);
    rewrite Pos.compare_refl; reflexivity.
Qed.

Lemma less_key : forall a b,
  NpSort.less a b = key_ltb (sf_key (Prim2SF a)) (sf_key (Prim2SF b)).
Proof.
  intros a b. unfold NpSort.less, is_nan.
  rewrite FloatAxioms.ltb_spec, !FloatAxioms.eqb_spec, !SFeqb_refl_nan.
  destruct (Prim2SF a) as [sa|sa| |sa ma ea], (Prim2SF b) as [sb|sb| |sb mb eb];
    try destruct sa; try destruct sb; unfold SFltb; simpl; try reflexivity;
    change (Pos.compare_cont Eq ma mb) with (Pos.compare ma mb);
    rewrite ?Pos2Z.inj_compare;
    destruct (Z.compare_spec ea eb); destruct (Z.compare_spec (Zpos ma) (Zpos mb));
    simpl;
    repeat first [ rewrite (proj2 (Z.ltb_lt _ _)) by lia
                 | rewrite (proj2 (Z.ltb_ge _ _)) by lia
                 | rewrite (proj2 (Z.eqb_eq _ _)) by lia
                 | rewrite (proj2 (Z.eqb_neq _ _)) by lia ];
    reflexivity.
Qed.

Lemma key_ltb_spec : forall a1 b1 c1 a2 b2 c2,
  key_ltb (a1, b1, c1) (a2, b2, c2) = true <->
  (a1 < a2 \/ a1 = a2 /\ (b1 < b2 \/ b1 = b2 /\ c1 < c2)).
Proof.
  intros. unfold key_ltb.
  rewrite orb_true_iff, andb_true_iff, orb_true_iff, andb_true_iff,
    !Z.ltb_lt, !Z.eqb_eq. tauto.
Qed.

Lemma key_ltb_asym : forall k1 k2, key_ltb k1 k2 = true -> key_ltb k2 k1 = false.
Proof.
  intros [[a1 b1] c1] [[a2 b2] c2] H.
  apply not_true_is_false. rewrite key_ltb_spec in *. lia.
Qed.

Lemma key_ltb_negtrans : forall k1 k2 k3,
  key_ltb k1 k3 = true -> key_ltb k1 k2 = true \/ key_ltb k2 k3 = true.
Proof.
  intros [[a1 b1] c1] [[a2 b2] c2] [[a3 b3] c3] H.
  rewrite !key_ltb_spec in *. lia.
Qed.

Lemma less_asym : forall a b, NpSort.less a b = true -> NpSort.less b a = false.
Proof. intros a b. rewrite !less_key. apply key_ltb_asym. Qed.

Lemma less_negtrans : forall a b c,
  NpSort.less a c = true -> NpSort.less a b = true \/ NpSort.less b c = true.
Proof. intros a b c. rewrite !less_key. apply key_ltb_negtrans. Qed.

Lemma less_irrefl : forall a, NpSort.less a a = false.
Proof.
  intros a. destruct (NpSort.less a a) eqn:E; auto.
  pose proof (less_asym _ _ E). congruence.
Qed.

Lemma set_middle : forall l a r x,
  NpSort.set (l ++ a :: r) (List.length l) x = l ++ x :: r.
Proof. induction l as [|y l IH]; intros; simpl; [reflexivity|]. now rewrite IH. Qed.

Lemma nth_rev_middle : forall (ra : list Z) a r d,
  nth (List.length ra) (rev ra ++ a :: r) d = a.
Proof. intros. rewrite <- (length_rev ra). apply nth_middle. Qed.

Lemma set_rev_middle : forall (ra : list Z) a r x,
  NpSort.set (rev ra ++ a :: r) (List.length ra) x = rev ra ++ x :: r.
Proof. intros. rewrite <- (length_rev ra). apply set_middle. Qed.

Lemma shift_down_ins : forall v ra b S junk x fuel,
  (List.length ra < fuel)%nat ->
  NpSort.shift_down v fuel (rev ra ++ junk :: b ++ S) 0 (Z.of_nat (List.length ra)) x
  = ins_back v x ra b ++ S.
Proof.
  intros v ra. induction ra as [|a ra IH]; intros b S junk x fuel Hf;
    (destruct fuel as [|fuel]; [simpl in Hf; lia|]).
  - reflexivity.
  - cbn [NpSort.shift_down ins_back List.length].
    replace (Z.of_nat (Datatypes.S (List.length ra)) - 1) with (Z.of_nat (List.length ra)) by lia.
    replace (rev (a :: ra) ++ junk :: b ++ S) with (rev ra ++ a :: junk :: b ++ S)
      by (simpl; rewrite <- app_assoc; reflexivity).
    assert (Hpos : (0 <? Z.of_nat (Datatypes.S (List.length ra))) = true) by (apply Z.ltb_lt; lia).
    rewrite Hpos, andb_true_l.
    unfold NpSort.key, NpSort.get, NpSort.setz. rewrite !Nat2Z.id, nth_rev_middle.
    destruct (NpSort.less (NpSort.val v x) (NpSort.val v a)) eqn:E.
    + replace (rev ra ++ a :: junk :: b ++ S) with ((rev ra ++ [a]) ++ junk :: b ++ S)
        by (rewrite <- app_assoc; reflexivity).
      change (rev ra ++ [a]) with (rev (a :: ra)).
      rewrite (set_rev_middle (a :: ra)). simpl rev. rewrite <- app_assoc. simpl.
      apply (IH (a :: b) S a x fuel). simpl in Hf; lia.
    + replace (rev ra ++ a :: junk :: b ++ S) with ((rev ra ++ [a]) ++ junk :: b ++ S)
        by (rewrite <- app_assoc; reflexivity).
      change (rev ra ++ [a]) with (rev (a :: ra)).
      rewrite (set_rev_middle (a :: ra)). rewrite <- app_assoc. reflexivity.
Qed.

Lemma nth_app_len : forall (L : list Z) k a r d,
  List.length L = k -> nth k (L ++ a :: r) d = a.
Proof. intros; subst; apply nth_middle. Qed.

Lemma ins_back_length : forall v x ra b,
  List.length (ins_back v x ra b) = Datatypes.S (List.length ra + List.length b).
Proof.
  intros v x ra. induction ra as [|a ra IH]; intros b; simpl; [reflexivity|].
  destruct (NpSort.less _ _).
  - rewrite IH. simpl. lia.
  - rewrite !length_app; simpl; rewrite ?length_app, ?length_rev; simpl; lia.
Qed.

Lemma insertion_from_ins : forall v m L k fuel,
  List.length L = k -> (m <= fuel)%nat -> (k + m <= List.length v)%nat ->
  NpSort.insertion_from v fuel (L ++ map Z.of_nat (seq k m)) 0 (Z.of_nat k)
    (Z.of_nat (k + m) - 1)
  = fold_left (ins_step v) (seq k m) L.
Proof.
  intros v m. induction m as [|m IH]; intros L k fuel HL Hf Hv.
  - destruct fuel; simpl; rewrite app_nil_r; [reflexivity|].
    replace (Z.of_nat k <=? Z.of_nat (k + 0) - 1) with false by (symmetry; apply Z.leb_gt; lia).
    reflexivity.
  - destruct fuel as [|fuel]; [lia|].
    cbn [NpSort.insertion_from].
    replace (Z.of_nat k <=? Z.of_nat (k + Datatypes.S m) - 1) with true
      by (symmetry; apply Z.leb_le; lia).
    simpl seq. simpl map.
    unfold NpSort.get. rewrite Nat2Z.id. rewrite (nth_app_len L k) by exact HL.
    replace (L ++ Z.of_nat k :: map Z.of_nat (seq (Datatypes.S k) m))
      with (rev (rev L) ++ Z.of_nat k :: [] ++ map Z.of_nat (seq (Datatypes.S k) m))
      by (rewrite rev_involutive; reflexivity).
    pose proof (shift_down_ins v (rev L) [] (map Z.of_nat (seq (Datatypes.S k) m))
      (Z.of_nat k) (Z.of_nat k) (NpSort.steps v)) as Hs.
    rewrite length_rev, HL in Hs.
    rewrite Hs by (unfold NpSort.steps; lia). clear Hs.
    replace (Z.of_nat k + 1) with (Z.of_nat (Datatypes.S k)) by lia.
    replace (Z.of_nat (k + Datatypes.S m) - 1) with (Z.of_nat (Datatypes.S k + m) - 1) by lia.
    simpl fold_left.
    apply IH.
    + unfold ins_step. rewrite ins_back_length, length_rev. simpl. lia.
    + lia.
    + lia.
Qed.

Lemma argsort_small : forall v, (List.length v <= 17)%nat ->
  NpSort.argsort v = fold_left (ins_step v) (seq 0 (List.length v)) [].
Proof.
  intros v Hv. unfold NpSort.argsort, NpSort.steps.
  remember (List.length v) as n eqn:Hn.
  replace (8 * Datatypes.S n)%nat with (Datatypes.S (Datatypes.S (Datatypes.S (8 * n + 5)))) by lia.
  cbn [NpSort.qs_top NpSort.qs_while NpSort.qs_pop].
  replace (Z.log2 (Z.of_nat n) * 2 <? 0) with false
    by (symmetry; apply Z.ltb_ge; pose proof (Z.log2_nonneg (Z.of_nat n)); lia).
  replace (NpSort.SMALL_QUICKSORT <? Z.of_nat n - 1 - 0) with false
    by (symmetry; apply Z.ltb_ge; unfold NpSort.SMALL_QUICKSORT; lia).
  unfold NpSort.insertion. simpl Z.add.
  destruct n as [|n].
  - reflexivity.
  - simpl seq. simpl map.
    change (0 :: map Z.of_nat (seq 1 n)) with ([0] ++ map Z.of_nat (seq 1 n)).
    replace (Z.of_nat (Datatypes.S n) - 1) with (Z.of_nat (1 + n) - 1) by lia.
    change 1 with (Z.of_nat 1).
    rewrite insertion_from_ins; [reflexivity | simpl; lia | unfold NpSort.steps; lia | lia].
Qed.

Section FOP.
Context {A B : Type}.

Lemma FOP_app : forall (R : A -> A -> Prop) l1 l2,
  ForallOrdPairs R l1 -> ForallOrdPairs R l2 ->
  (forall x y, In x l1 -> In y l2 -> R x y) ->
  ForallOrdPairs R (l1 ++ l2).
Proof.
  intros R l1. induction l1 as [|a l1 IH]; intros l2 H1 H2 H12; simpl; auto.
  inversion H1; subst. constructor.
  - apply Forall_app. split; auto.
    apply Forall_forall. intros y Hy. apply H12; simpl; auto.
  - apply IH; auto. intros x y Hx Hy. apply H12; simpl; auto.
Qed.

Lemma FOP_app_inv : forall (R : A -> A -> Prop) l1 l2,
  ForallOrdPairs R (l1 ++ l2) ->
  ForallOrdPairs R l1 /\ ForallOrdPairs R l2 /\
  (forall x y, In x l1 -> In y l2 -> R x y).
Proof.
  intros R l1. induction l1 as [|a l1 IH]; intros l2 H; simpl in *.
  - repeat split; auto. constructor. intros _ _ [].
  - inversion H; subst. apply IH in H3 as (Ha & Hb & Hc).
    apply Forall_app in H2 as [H2a H2b].
    repeat split; auto.
    + constructor; auto.
    + intros x y [<-|Hx] Hy; auto. rewrite Forall_forall in H2b. auto.
Qed.

Lemma FOP_map_in : forall (R : A -> A -> Prop) (R' : B -> B -> Prop) (f : A -> B) l,
  (forall x y, In x l -> In y l -> R x y -> R' (f x) (f y)) ->
  ForallOrdPairs R l -> ForallOrdPairs R' (map f l).
Proof.
  intros R R' f l. induction l as [|a l IH]; intros Hf H; simpl; constructor.
  - inversion H; subst. rewrite Forall_forall in *.
    intros y Hy. apply in_map_iff in Hy as (x & <- & Hx).
    apply Hf; simpl; auto.
  - inversion H; subst. apply IH; auto. intros x y Hx Hy. apply Hf; simpl; auto.
Qed.

Lemma FOP_SS : forall (R : A -> A -> Prop) l, StronglySorted R l -> ForallOrdPairs R l.
Proof. intros R l H. induction H; constructor; auto. Qed.

End FOP.

Lemma ins_back_perm : forall v x ra b,
  Permutation (ins_back v x ra b) (rev ra ++ x :: b).
Proof.
  intros v x ra. induction ra as [|a ra IH]; intros b; simpl; [reflexivity|].
  destruct (NpSort.less _ _); [|reflexivity].
  rewrite IH, <- app_assoc. simpl. apply Permutation_app_head. apply perm_swap.
Qed.

Lemma ins_back_sorted : forall v x ra b,
  ForallOrdPairs (beforeZ v) (rev ra ++ b) ->
  Forall (fun y => 0 <= y < x) (rev ra ++ b) ->
  Forall (fun y => NpSort.less (NpSort.val v x) (NpSort.val v y) = true) b ->
  ForallOrdPairs (beforeZ v) (ins_back v x ra b).
Proof.
  intros v x ra. induction ra as [|a ra IH]; intros b Hs Hb Hl; simpl in *.
  - constructor; auto. rewrite Forall_forall in *. intros y Hy.
    specialize (Hl y Hy). specialize (Hb y Hy).
    unfold beforeZ, before, NpSort.val in *. split.
    + apply less_asym. exact Hl.
    + rewrite Hl. discriminate.
  - destruct (NpSort.less (NpSort.val v x) (NpSort.val v a)) eqn:E.
    + apply IH.
      * rewrite <- app_assoc in Hs. exact Hs.
      * rewrite <- app_assoc in Hb. exact Hb.
      * constructor; auto.
    + rewrite <- app_assoc in *. simpl in *.
      apply FOP_app_inv in Hs as (Hra & Hab & Hcross).
      apply Forall_app in Hb as [Hbra Hbb]. inversion Hbb as [|? ? Ha Hbb']; subst.
      inversion Hab as [|? ? Hab1 Hab2]; subst.
      assert (Hxb : ForallOrdPairs (beforeZ v) (x :: b)).
      { constructor; auto. clear - Hl.
        rewrite Forall_forall in *. intros y Hy.
        specialize (Hl y Hy). unfold beforeZ, before, NpSort.val in *. split.
        + apply less_asym. exact Hl.
        + rewrite Hl. discriminate. }
      apply FOP_app; auto.
      * constructor; auto. constructor; auto.
        unfold beforeZ, before. unfold NpSort.val in E. split; [exact E | intros _; lia].
      * intros y z Hy Hz.
        assert (Hyx : 0 <= y < x).
        { rewrite ?Forall_forall in Hbra. apply Hbra. exact Hy. }
        destruct Hz as [<-|[<-|Hz]].
        -- apply Hcross; simpl; auto.
        -- unfold beforeZ, before. split; [|intros _; lia].
           specialize (Hcross y a Hy (or_introl eq_refl)).
           unfold beforeZ, before in Hcross. destruct Hcross as [Hay _].
           destruct (NpSort.less (nth (Z.to_nat x) v 0%float) (nth (Z.to_nat y) v 0%float)) eqn:Exy; auto.
           destruct (less_negtrans _ (nth (Z.to_nat a) v 0%float) _ Exy) as [H|H];
             unfold NpSort.val in E; congruence.
        -- apply Hcross; simpl; auto.
Qed.

Lemma ins_fold_ok : forall v k,
  Permutation (fold_left (ins_step v) (seq 0 k) []) (map Z.of_nat (seq 0 k)) /\
  ForallOrdPairs (beforeZ v) (fold_left (ins_step v) (seq 0 k) []).
Proof.
  intros v k. induction k as [|k [IHp IHs]].
  - simpl. split; constructor.
  - rewrite seq_S, fold_left_app. simpl fold_left.
    set (L := fold_left (ins_step v) (seq 0 k) []) in *.
    unfold ins_step.
    assert (Hb : Forall (fun y => 0 <= y < Z.of_nat k) L).
    { apply Forall_forall. intros y Hy.
      apply (Permutation_in _ IHp) in Hy.
      apply in_map_iff in Hy as (j & <- & Hj). apply in_seq in Hj. lia. }
    split.
    + rewrite ins_back_perm, rev_involutive, map_app. simpl.
      apply Permutation_app_tail. exact IHp.
    + apply ins_back_sorted.
      * rewrite rev_involutive, app_nil_r. exact IHs.
      * rewrite rev_involutive, app_nil_r. exact Hb.
      * constructor.
Qed.

Lemma argsort_small_ok : forall v, (List.length v <= 17)%nat ->
  Permutation (NpSort.argsort v) (map Z.of_nat (seq 0 (List.length v))) /\
  ForallOrdPairs (beforeZ v) (NpSort.argsort v).
Proof. intros v Hv. rewrite argsort_small by exact Hv. apply ins_fold_ok. Qed.

Lemma is_nan_spec : forall a,
  is_nan a = match Prim2SF a with S754_nan => true | _ => false end.
Proof.
  intros a. unfold is_nan. rewrite FloatAxioms.eqb_spec, SFeqb_refl_nan.
  destruct (Prim2SF a); reflexivity.
Qed.

Lemma less_nan_l : forall a b, is_nan a = true -> NpSort.less a b = false.
Proof.
  intros a b H. rewrite is_nan_spec in H. rewrite less_key.
  destruct (Prim2SF a); try discriminate.
  destruct (Prim2SF b) as [[]|[]| |[]]; reflexivity.
Qed.

Lemma less_nan_r : forall a b, is_nan a = false -> is_nan b = true -> NpSort.less a b = true.
Proof.
  intros a b Ha Hb. rewrite is_nan_spec in Ha, Hb. rewrite less_key.
  destruct (Prim2SF b); try discriminate.
  destruct (Prim2SF a) as [[]|[]| |[]]; try discriminate; reflexivity.
Qed.

Section Lists.
Context {A B : Type}.

Lemma snd_filter_mask : forall (f : A -> bool) (h : bool -> bool) l (l' : list B),
  map snd (filter (fun p => h (fst p)) (combine (map f l) l')) =
  map snd (filter (fun p => h (f (fst p))) (combine l l')).
Proof.
  intros f h l. induction l as [|a l IH]; intros [|b l']; simpl; auto.
  destruct (h (f a)); simpl; now rewrite IH.
Qed.

Lemma snd_filter_diag : forall (g : A -> bool) l,
  map snd (filter (fun p => g (fst p)) (combine l l)) = filter g l.
Proof.
  intros g l. induction l as [|a l IH]; simpl; auto.
  destruct (g a); simpl; now rewrite IH.
Qed.

Lemma fst_filter_combine : forall (g : A -> bool) l (l' : list B),
  List.length l = List.length l' ->
  map fst (filter (fun p => g (fst p)) (combine l l')) = filter g l.
Proof.
  intros g l. induction l as [|a l IH]; intros [|b l'] H; simpl in *; try lia; auto.
  destruct (g a); simpl; rewrite IH by lia; reflexivity.
Qed.

Lemma snd_combine : forall (l : list A) (l' : list B),
  List.length l = List.length l' -> map snd (combine l l') = l'.
Proof.
  intros l. induction l as [|a l IH]; intros [|b l'] H; simpl in *; try lia; auto.
  rewrite IH by lia; reflexivity.
Qed.

Lemma filter_partition : forall (g : A -> bool) l,
  Permutation (filter (fun x => negb (g x)) l ++ filter g l) l.
Proof.
  intros g l. induction l as [|a l IH]; simpl; auto.
  destruct (g a); simpl.
  - rewrite <- Permutation_middle. constructor. exact IH.
  - constructor. exact IH.
Qed.

Lemma SS_filter : forall (R : A -> A -> Prop) (g : A -> bool) l,
  StronglySorted R l -> StronglySorted R (filter g l).
Proof.
  intros R g l H. induction H as [|a l Hl IH Ha]; simpl; [constructor|].
  destruct (g a); auto. constructor; auto.
  rewrite Forall_forall in *. intros y Hy. apply filter_In in Hy as [Hy _]. auto.
Qed.

Lemma SS_nth : forall (R : A -> A -> Prop) l d k1 k2,
  StronglySorted R l -> (k1 < k2 < List.length l)%nat ->
  R (nth k1 l d) (nth k2 l d).
Proof.
  intros R l d. induction l as [|a l IH]; intros k1 k2 H Hk; simpl in *; [lia|].
  inversion H; subst.
  destruct k1 as [|k1], k2 as [|k2]; try lia.
  - rewrite Forall_forall in *. apply H3. apply nth_In. lia.
  - apply IH; auto. lia.
Qed.

Lemma map_nth_seq : forall (l : list A) d,
  map (fun k => nth k l d) (seq 0 (List.length l)) = l.
Proof.
  intros l d. induction l as [|a l IH]; simpl; [reflexivity|].
  rewrite <- seq_shift, map_map. simpl. now rewrite IH.
Qed.

End Lists.

Lemma combine_seq_in : forall (l : list float) s x i,
  In (x, i) (combine l (map Z.of_nat (seq s (List.length l)))) ->
  0 <= i /\ (s <= Z.to_nat i)%nat /\ nth (Z.to_nat i - s) l 0%float = x.
Proof.
  intros l. induction l as [|a l IH]; intros s x i H; simpl in H; [contradiction|].
  destruct H as [H|H].
  - inversion H; subst. rewrite Nat2Z.id, Nat.sub_diag. repeat split; auto; lia.
  - apply IH in H as (H1 & H2 & H3). repeat split; auto; [lia|].
    replace (Z.to_nat i - s)%nat with (Datatypes.S (Z.to_nat i - Datatypes.S s)) by lia.
    exact H3.
Qed.

Lemma combine_seq_SS : forall (l : list float) s,
  StronglySorted (fun p q : float * Z => snd p < snd q)
    (combine l (map Z.of_nat (seq s (List.length l)))).
Proof.
  intros l. induction l as [|a l IH]; intros s; simpl; constructor; auto.
  apply Forall_forall. intros [x i] H. simpl.
  apply combine_seq_in in H as (_ & H & _). lia.
Qed.

Lemma nth_map_d : forall {A B} (f : A -> B) l d k d',
  f d = d' -> nth k (map f l) d' = f (nth k l d).
Proof. intros; subst; apply map_nth. Qed.

Lemma nargsort_small_ok : forall items, (List.length items <= 17)%nat ->
  Permutation (map Z.to_nat (NpSort.nargsort items)) (seq 0 (List.length items)) /\
  ForallOrdPairs (before items) (map Z.to_nat (NpSort.nargsort items)).
Proof.
  intros items Hn. unfold NpSort.nargsort. cbv zeta.
  set (idx := map Z.of_nat (seq 0 (List.length items))).
  assert (Hlen : List.length items = List.length idx)
    by (unfold idx; rewrite length_map, length_seq; reflexivity).
  set (Q := filter (fun p => negb (is_nan (fst p))) (combine items idx)).
  set (Q' := filter (fun p => is_nan (fst p)) (combine items idx)).
  assert (HNN : map snd (filter (fun p => negb (fst p)) (combine (map is_nan items) items))
                = map fst Q).
  { rewrite (snd_filter_mask is_nan negb), (snd_filter_diag (fun x => negb (is_nan x))).
    unfold Q. rewrite (fst_filter_combine (fun x => negb (is_nan x))) by exact Hlen.
    reflexivity. }
  assert (HNI : map snd (filter (fun p => negb (fst p)) (combine (map is_nan items) idx))
                = map snd Q) by apply (snd_filter_mask is_nan negb).
  assert (HNaN : map snd (filter (fun p => fst p) (combine (map is_nan items) idx))
                 = map snd Q') by apply (snd_filter_mask is_nan (fun b => b)).
  rewrite HNN, HNI, HNaN. clear HNN HNI HNaN.
  assert (HQ : forall p, In p Q ->
            0 <= snd p /\ nth (Z.to_nat (snd p)) items 0%float = fst p /\ is_nan (fst p) = false).
  { intros [x i] Hp. unfold Q in Hp. apply filter_In in Hp as [Hp Hx].
    apply combine_seq_in in Hp as (H1 & _ & H3). rewrite Nat.sub_0_r in H3.
    simpl in *. repeat split; auto. now destruct (is_nan x). }
  assert (HQ' : forall p, In p Q' ->
            0 <= snd p /\ nth (Z.to_nat (snd p)) items 0%float = fst p /\ is_nan (fst p) = true).
  { intros [x i] Hp. unfold Q' in Hp. apply filter_In in Hp as [Hp Hx].
    apply combine_seq_in in Hp as (H1 & _ & H3). rewrite Nat.sub_0_r in H3.
    simpl in *. repeat split; auto. }
  assert (HSS : StronglySorted (fun p q : float * Z => snd p < snd q) Q)
    by (apply SS_filter, combine_seq_SS).
  assert (HSS' : StronglySorted (fun p q : float * Z => snd p < snd q) Q')
    by (apply SS_filter, combine_seq_SS).
  assert (HQlen : (List.length (map fst Q) <= 17)%nat).
  { rewrite length_map. unfold Q. rewrite filter_length_le, length_combine. lia. }
  destruct (argsort_small_ok _ HQlen) as [HAp HAs].
  rewrite length_map in HAp.
  set (A := NpSort.argsort (map fst Q)) in *.
  assert (HAr : forall x, In x A -> 0 <= x /\ (Z.to_nat x < List.length Q)%nat).
  { intros x Hx. apply (Permutation_in _ HAp) in Hx.
    apply in_map_iff in Hx as (j & <- & Hj). apply in_seq in Hj. lia. }
  assert (HQnth : forall x, In x A ->
            In (nth (Z.to_nat x) Q (0%float, 0)) Q /\
            nth (Z.to_nat x) (map snd Q) 0 = snd (nth (Z.to_nat x) Q (0%float, 0)) /\
            nth (Z.to_nat x) (map fst Q) 0%float = fst (nth (Z.to_nat x) Q (0%float, 0))).
  { intros x Hx. destruct (HAr x Hx) as [_ Hx']. split; [apply nth_In; exact Hx'|].
    split; apply nth_map_d; reflexivity. }
  rewrite !map_app. split.
  - transitivity (map Z.to_nat (map snd Q) ++ map Z.to_nat (map snd Q')).
    + apply Permutation_app_tail. apply Permutation_map.
      transitivity (map (fun k => nth (Z.to_nat k) (map snd Q) 0) (map Z.of_nat (seq 0 (List.length Q)))).
      * apply Permutation_map. exact HAp.
      * rewrite map_map.
        erewrite map_ext by (intros a; rewrite Nat2Z.id; reflexivity).
        rewrite <- (length_map snd Q). rewrite map_nth_seq. reflexivity.
    + rewrite <- !map_app.
      transitivity (map Z.to_nat (map snd (combine items idx))).
      * apply Permutation_map. apply Permutation_map.
        apply (filter_partition (fun p => is_nan (fst p))).
      * rewrite snd_combine by exact Hlen. unfold idx. rewrite map_map.
        erewrite map_ext by (intros a; rewrite Nat2Z.id; reflexivity).
        rewrite map_id. reflexivity.
  - rewrite !map_map. apply FOP_app.
    + apply (FOP_map_in (beforeZ (map fst Q))); [|exact HAs].
      intros x y Hx Hy [H1 H2].
      destruct (HQnth x Hx) as (Hpx & Ex1 & Ex2), (HQnth y Hy) as (Hpy & Ey1 & Ey2).
      rewrite Ex2, Ey2 in *. rewrite Ex1, Ey1.
      set (px := nth (Z.to_nat x) Q (0%float, 0)) in *.
      set (py := nth (Z.to_nat y) Q (0%float, 0)) in *.
      destruct (HQ px Hpx) as (Hx0 & Hxv & _), (HQ py Hpy) as (Hy0 & Hyv & _).
      unfold before. rewrite Hxv, Hyv. split; [exact H1|].
      intros Htie. specialize (H2 Htie).
      destruct (HAr x Hx), (HAr y Hy).
      pose proof (SS_nth _ Q (0%float, 0) _ _ HSS (conj H2 H4)). simpl in H5.
      fold px py in H5. lia.
    + apply (FOP_map_in (fun p q : float * Z => snd p < snd q)); [|apply FOP_SS, HSS'].
      intros p q Hp Hq Hpq.
      destruct (HQ' p Hp) as (Hp0 & Hpv & Hpn), (HQ' q Hq) as (Hq0 & Hqv & Hqn).
      unfold before. rewrite Hpv, Hqv. split.
      * apply less_nan_l. exact Hqn.
      * intros _. lia.
    + intros y z Hy Hz.
      apply in_map_iff in Hy as (x & <- & Hx), Hz as (q & <- & Hq).
      destruct (HQnth x Hx) as (Hpx & Ex1 & _). rewrite Ex1.
      destruct (HQ _ Hpx) as (_ & Hxv & Hxn), (HQ' q Hq) as (_ & Hqv & Hqn).
      unfold before. rewrite Hxv, Hqv. split.
      * apply less_nan_l. exact Hqn.
      * rewrite less_nan_r by assumption. discriminate.
Qed.

Lemma sort_values_total_small : forall rows, (List.length rows <= 17)%nat ->
  ascending_stable rows (sort_values_total rows).
Proof.
  intros rows Hn.
  destruct (nargsort_small_ok (map Out.total rows)) as [Hp Hs];
    [rewrite length_map; exact Hn|].
  rewrite length_map in Hp.
  exists (map Z.to_nat (NpSort.nargsort (map Out.total rows))).
  split; [exact Hp|]. split; [|exact Hs].
  unfold sort_values_total. rewrite map_map. reflexivity.
Qed.

(** ** Correctness of numpy's introsort *)

(** Arrays *)
Lemma length_set : forall t i x, List.length (NpSort.set t i x) = List.length t.
Proof. induction t as [|y t IH]; intros [|i] x; simpl; auto. Qed.

Lemma nth_set_eq : forall t i x d, (i < List.length t)%nat -> nth i (NpSort.set t i x) d = x.
Proof. induction t as [|y t IH]; intros [|i] x d H; simpl in *; try lia; auto. apply IH. lia. Qed.

Lemma nth_set_neq : forall t i k x d, i <> k -> nth k (NpSort.set t i x) d = nth k t d.
Proof.
  induction t as [|y t IH]; intros [|i] [|k] x d H; simpl in *; auto; try lia.
Qed.

Lemma set_set_comm_neq : forall t i k x y, i <> k ->
  NpSort.set (NpSort.set t i x) k y = NpSort.set (NpSort.set t k y) i x.
Proof.
  induction t as [|z t IH]; intros [|i] [|k] x y H; simpl; auto; try lia.
  rewrite IH by lia. reflexivity.
Qed.

Lemma set_set_same : forall t i x y, NpSort.set (NpSort.set t i x) i y = NpSort.set t i y.
Proof. induction t as [|z t IH]; intros [|i] x y; simpl; auto. now rewrite IH. Qed.

Lemma set_nth_same : forall t i, NpSort.set t i (nth i t 0) = t.
Proof. induction t as [|z t IH]; intros [|i]; simpl; auto. now rewrite IH. Qed.

Lemma set_app_r : forall A R k x,
  NpSort.set (A ++ R) (List.length A + k) x = A ++ NpSort.set R k x.
Proof. induction A as [|a A IH]; intros R k x; simpl; auto. now rewrite IH. Qed.

Lemma length_setz : forall t i x, len (NpSort.setz t i x) = len t.
Proof. intros. unfold len, NpSort.setz. now rewrite length_set. Qed.

Lemma get_setz_eq : forall t i x, 0 <= i < len t -> NpSort.get (NpSort.setz t i x) i = x.
Proof. intros t i x H. unfold NpSort.get, NpSort.setz, len in *. apply nth_set_eq. lia. Qed.

Lemma get_setz_neq : forall t i k x, 0 <= i -> 0 <= k -> i <> k ->
  NpSort.get (NpSort.setz t i x) k = NpSort.get t k.
Proof. intros t i k x Hi Hk H. unfold NpSort.get, NpSort.setz. apply nth_set_neq. lia. Qed.

Lemma setz_get_same : forall t i, NpSort.setz t i (NpSort.get t i) = t.
Proof. intros. apply set_nth_same. Qed.

Lemma setz_setz_same : forall t i x y, NpSort.setz (NpSort.setz t i x) i y = NpSort.setz t i y.
Proof. intros. apply set_set_same. Qed.

Lemma length_swap : forall t p q, len (NpSort.swap t p q) = len t.
Proof. intros. unfold NpSort.swap. now rewrite !length_setz. Qed.

Lemma get_swap : forall t p q k, 0 <= p < len t -> 0 <= q < len t -> 0 <= k ->
  NpSort.get (NpSort.swap t p q) k =
  if k =? q then NpSort.get t p else if k =? p then NpSort.get t q else NpSort.get t k.
Proof.
  intros t p q k Hp Hq Hk. unfold NpSort.swap.
  destruct (Z.eqb_spec k q) as [->|Hkq].
  - apply get_setz_eq. rewrite length_setz. lia.
  - rewrite get_setz_neq by lia.
    destruct (Z.eqb_spec k p) as [->|Hkp].
    + apply get_setz_eq. lia.
    + apply get_setz_neq; lia.
Qed.

Lemma swap_self : forall t p, NpSort.swap t p p = t.
Proof.
  intros t p. unfold NpSort.swap. rewrite setz_setz_same.
  unfold NpSort.get, NpSort.setz. apply set_nth_same.
Qed.

Lemma perm_swap_lt : forall t p q, (p < q < List.length t)%nat ->
  Permutation (NpSort.set (NpSort.set t p (nth q t 0)) q (nth p t 0)) t.
Proof.
  intros t p q H.
  assert (Hp : (p < List.length t)%nat) by lia.
  destruct (nth_split t 0 Hp) as (A & R & Ht & HA).
  set (x := nth p t 0) in *.
  assert (HR : (q - p - 1 < List.length R)%nat).
  { rewrite Ht in H. rewrite length_app in H. simpl in H. lia. }
  destruct (nth_split R 0 HR) as (B & C & HRe & HB).
  set (y := nth (q - p - 1) R 0) in *.
  assert (Hy : nth q t 0 = y).
  { rewrite Ht. rewrite app_nth2 by lia. rewrite HA.
    replace (q - p)%nat with (S (q - p - 1)) by lia. reflexivity. }
  rewrite Hy. rewrite Ht at 1. rewrite <- HA, set_middle.
  replace q with (List.length A + S (List.length B))%nat by lia.
  rewrite set_app_r. simpl. rewrite HRe, set_middle.
  rewrite Ht, HRe. apply Permutation_app_head.
  rewrite <- !Permutation_middle. apply perm_swap.
Qed.

Lemma perm_swap_z : forall t p q, 0 <= p < len t -> 0 <= q < len t ->
  Permutation (NpSort.swap t p q) t.
Proof.
  intros t p q Hp Hq. unfold len in *.
  destruct (Z.lt_total p q) as [H|[->|H]].
  - unfold NpSort.swap, NpSort.setz, NpSort.get. apply perm_swap_lt. lia.
  - rewrite swap_self. reflexivity.
  - unfold NpSort.swap, NpSort.setz, NpSort.get.
    rewrite set_set_comm_neq by lia. apply perm_swap_lt. lia.
Qed.

(** Order *)
Lemma fle_refl : forall a, fle a a.
Proof. intros a. apply less_irrefl. Qed.

Lemma fle_trans : forall a b c, fle a b -> fle b c -> fle a c.
Proof.
  unfold fle. intros a b c H1 H2.
  destruct (NpSort.less c a) eqn:E; auto.
  destruct (less_negtrans _ b _ E); congruence.
Qed.

Lemma less_fle : forall a b, NpSort.less a b = true -> fle a b.
Proof. intros a b H. apply less_asym. exact H. Qed.

Lemma fle_total : forall a b, fle a b \/ fle b a.
Proof.
  unfold fle. intros a b. destruct (NpSort.less b a) eqn:E; auto.
  right. apply less_asym. exact E.
Qed.

(** Segments *)
Lemma within_refl : forall t a b, within t t a b.
Proof.
  intros t a b. repeat split; auto. intros k Hk. exists k. auto.
Qed.

Lemma within_trans : forall t1 t2 t3 a b,
  within t1 t2 a b -> within t2 t3 a b -> within t1 t3 a b.
Proof.
  intros t1 t2 t3 a b (L1 & P1 & O1 & I1) (L2 & P2 & O2 & I2).
  repeat split.
  - congruence.
  - rewrite P2. exact P1.
  - intros k Hk Ho. rewrite O2 by (auto; lia). auto.
  - intros k Hk. destruct (I2 k Hk) as (k1 & Hk1 & E1).
    destruct (I1 k1 Hk1) as (k2 & Hk2 & E2). exists k2. split; auto. congruence.
Qed.

Lemma within_swap : forall t a b p q, 0 <= a -> b < len t ->
  a <= p <= b -> a <= q <= b -> within t (NpSort.swap t p q) a b.
Proof.
  intros t a b p q Ha Hb Hp Hq. repeat split.
  - apply length_swap.
  - apply perm_swap_z; lia.
  - intros k Hk Ho. rewrite get_swap by lia.
    destruct (Z.eqb_spec k q); [lia|]. destruct (Z.eqb_spec k p); [lia|]. reflexivity.
  - intros k Hk. rewrite get_swap by lia.
    destruct (Z.eqb_spec k q); [exists p; auto|].
    destruct (Z.eqb_spec k p); [exists q; auto|]. exists k; auto.
Qed.

Lemma within_widen : forall t t' a b a' b', 0 <= a' -> b' < len t ->
  a' <= a -> b <= b' -> within t t' a b -> within t t' a' b'.
Proof.
  intros t t' a b a' b' Ha' Hb' Ha Hb (L & P & O & I). repeat split; auto.
  - intros k Hk Ho. apply O; auto. lia.
  - intros k Hk. destruct (Z_le_gt_dec a k); [destruct (Z_le_gt_dec k b)|].
    + destruct (I k) as (k' & Hk' & E); [lia|]. exists k'. split; [lia|auto].
    + exists k. split; [lia|]. apply O; lia.
    + exists k. split; [lia|]. apply O; lia.
Qed.

(** Insertion sort on a segment *)
Lemma shift_down_gen : forall v P ra b S junk x fuel,
  (List.length ra < fuel)%nat ->
  NpSort.shift_down v fuel (P ++ rev ra ++ junk :: b ++ S)
    (Z.of_nat (List.length P)) (Z.of_nat (List.length P + List.length ra)) x
  = P ++ ins_back v x ra b ++ S.
Proof.
  intros v P ra. induction ra as [|a ra IH]; intros b S junk x fuel Hf;
    (destruct fuel as [|fuel]; [simpl in Hf; lia|]).
  - cbn [NpSort.shift_down]. rewrite Nat.add_0_r, Z.ltb_irrefl. simpl andb.
    cbv iota. unfold NpSort.setz. rewrite Nat2Z.id.
    change (rev [] ++ junk :: b ++ S) with (junk :: b ++ S). rewrite set_middle.
    reflexivity.
  - cbn [NpSort.shift_down ins_back List.length].
    replace (Z.of_nat (List.length P + Datatypes.S (List.length ra)) - 1)
      with (Z.of_nat (List.length P + List.length ra)) by lia.
    replace (rev (a :: ra) ++ junk :: b ++ S) with (rev ra ++ a :: junk :: b ++ S)
      by (simpl; rewrite <- app_assoc; reflexivity).
    assert (Hpos : (Z.of_nat (List.length P) <? Z.of_nat (List.length P + Datatypes.S (List.length ra))) = true)
      by (apply Z.ltb_lt; lia).
    rewrite Hpos, andb_true_l.
    unfold NpSort.key, NpSort.get, NpSort.setz. rewrite !Nat2Z.id.
    rewrite app_nth2 by lia.
    replace (List.length P + List.length ra - List.length P)%nat with (List.length ra) by lia.
    rewrite nth_rev_middle.
    destruct (NpSort.less (NpSort.val v x) (NpSort.val v a)) eqn:E.
    + rewrite set_app_r.
      replace (rev ra ++ a :: junk :: b ++ S) with ((rev ra ++ [a]) ++ junk :: b ++ S)
        by (rewrite <- app_assoc; reflexivity).
      change (rev ra ++ [a]) with (rev (a :: ra)).
      rewrite (set_rev_middle (a :: ra)). simpl rev. rewrite <- app_assoc. simpl.
      apply (IH (a :: b) S a x fuel). simpl in Hf; lia.
    + rewrite set_app_r.
      replace (rev ra ++ a :: junk :: b ++ S) with ((rev ra ++ [a]) ++ junk :: b ++ S)
        by (rewrite <- app_assoc; reflexivity).
      change (rev ra ++ [a]) with (rev (a :: ra)).
      rewrite (set_rev_middle (a :: ra)). rewrite <- app_assoc. reflexivity.
Qed.

Lemma insertion_from_gen : forall v R P L S fuel,
  (List.length R <= fuel)%nat ->
  (List.length P + List.length L + List.length R < NpSort.steps v)%nat ->
  NpSort.insertion_from v fuel (P ++ L ++ R ++ S) (Z.of_nat (List.length P))
    (Z.of_nat (List.length P + List.length L))
    (Z.of_nat (List.length P + List.length L + List.length R) - 1)
  = P ++ fold_left (ins_gen v) R L ++ S.
Proof.
  intros v R. induction R as [|x R IH]; intros P L S fuel Hf Hs.
  - destruct fuel; simpl; [reflexivity|].
    replace (Z.of_nat (List.length P + List.length L) <=?
             Z.of_nat (List.length P + List.length L + 0) - 1) with false
      by (symmetry; apply Z.leb_gt; lia).
    reflexivity.
  - destruct fuel as [|fuel]; [simpl in Hf; lia|].
    cbn [NpSort.insertion_from List.length].
    replace (Z.of_nat (List.length P + List.length L) <=?
             Z.of_nat (List.length P + List.length L + Datatypes.S (List.length R)) - 1) with true
      by (symmetry; apply Z.leb_le; lia).
    replace (NpSort.get (P ++ L ++ (x :: R) ++ S) (Z.of_nat (List.length P + List.length L)))
      with x.
    2:{ unfold NpSort.get. rewrite Nat2Z.id, app_assoc, app_nth2 by (rewrite length_app; lia).
        rewrite length_app, Nat.sub_diag. reflexivity. }
    replace (P ++ L ++ (x :: R) ++ S)
      with (P ++ rev (rev L) ++ x :: [] ++ (R ++ S)) by (rewrite rev_involutive; reflexivity).
    pose proof (shift_down_gen v P (rev L) [] (R ++ S) x x (NpSort.steps v)) as Hsd.
    rewrite length_rev in Hsd. rewrite Hsd by (simpl in Hs; lia). clear Hsd.
    replace (Z.of_nat (List.length P + List.length L) + 1)
      with (Z.of_nat (List.length P + List.length (ins_gen v L x))).
    2:{ unfold ins_gen. rewrite ins_back_length, length_rev. simpl. lia. }
    replace (Z.of_nat (List.length P + List.length L + Datatypes.S (List.length R)) - 1)
      with (Z.of_nat (List.length P + List.length (ins_gen v L x) + List.length R) - 1).
    2:{ unfold ins_gen. rewrite ins_back_length, length_rev. simpl. lia. }
    simpl fold_left. apply IH.
    + simpl in Hf. lia.
    + unfold ins_gen. rewrite ins_back_length, length_rev. simpl in *. lia.
Qed.

Lemma ins_back_sorted_gen : forall v x ra b,
  ForallOrdPairs (fun i j => fle (NpSort.val v i) (NpSort.val v j)) (rev ra ++ b) ->
  Forall (fun y => NpSort.less (NpSort.val v x) (NpSort.val v y) = true) b ->
  ForallOrdPairs (fun i j => fle (NpSort.val v i) (NpSort.val v j)) (ins_back v x ra b).
Proof.
  intros v x ra. induction ra as [|a ra IH]; intros b Hs Hl; simpl in *.
  - constructor; auto. rewrite Forall_forall in *. intros y Hy.
    apply less_fle. auto.
  - destruct (NpSort.less (NpSort.val v x) (NpSort.val v a)) eqn:E.
    + apply IH.
      * rewrite <- app_assoc in Hs. exact Hs.
      * constructor; auto.
    + rewrite <- app_assoc in *. simpl in *.
      apply FOP_app_inv in Hs as (Hra & Hab & Hcross).
      inversion Hab as [|? ? Hab1 Hab2]; subst.
      apply FOP_app; auto.
      * constructor; [constructor; [exact E|exact Hab1]|].
        constructor; auto. rewrite Forall_forall in *. intros y Hy. apply less_fle. auto.
      * intros y z Hy Hz. destruct Hz as [<-|[<-|Hz]].
        -- apply Hcross; simpl; auto.
        -- apply (fle_trans _ (NpSort.val v a)); [apply Hcross; simpl; auto|exact E].
        -- apply Hcross; simpl; auto.
Qed.

Lemma fold_ins_gen_ok : forall v R L,
  ForallOrdPairs (fun i j => fle (NpSort.val v i) (NpSort.val v j)) L ->
  Permutation (fold_left (ins_gen v) R L) (L ++ R) /\
  ForallOrdPairs (fun i j => fle (NpSort.val v i) (NpSort.val v j)) (fold_left (ins_gen v) R L).
Proof.
  intros v R. induction R as [|x R IH]; intros L H; simpl.
  - rewrite app_nil_r. auto.
  - destruct (IH (ins_gen v L x)) as [Hp Hs].
    + unfold ins_gen. apply ins_back_sorted_gen.
      * rewrite rev_involutive, app_nil_r. exact H.
      * constructor.
    + split; auto. rewrite Hp. unfold ins_gen. rewrite ins_back_perm, rev_involutive.
      rewrite <- app_assoc. reflexivity.
Qed.

Lemma FOP_nth : forall {A} (R : A -> A -> Prop) l d i j,
  ForallOrdPairs R l -> (i < j < List.length l)%nat -> R (nth i l d) (nth j l d).
Proof.
  intros A R l d. induction l as [|a l IH]; intros i j H Hij; simpl in *; [lia|].
  inversion H; subst. destruct i as [|i], j as [|j]; try lia.
  - rewrite Forall_forall in *. apply H2. apply nth_In. lia.
  - apply IH; auto. lia.
Qed.

Lemma get_mid : forall P Y S k, (List.length P <= Z.to_nat k)%nat -> 0 <= k ->
  NpSort.get (P ++ Y ++ S) k = nth (Z.to_nat k - List.length P) (Y ++ S) 0.
Proof. intros. unfold NpSort.get. rewrite app_nth2 by lia. reflexivity. Qed.

Lemma decompose_seg : forall (t : list Z) a b, 0 <= a -> a <= b -> b < len t ->
  exists P X S, t = P ++ X ++ S /\ List.length P = Z.to_nat a /\
    List.length X = Z.to_nat (b - a + 1).
Proof.
  intros t a b Ha Hab Hb. unfold len in Hb.
  exists (firstn (Z.to_nat a) t), (firstn (Z.to_nat (b - a + 1)) (skipn (Z.to_nat a) t)),
    (skipn (Z.to_nat (b - a + 1)) (skipn (Z.to_nat a) t)).
  rewrite !firstn_skipn. split; [reflexivity|].
  rewrite !length_firstn, length_skipn. split; lia.
Qed.

Lemma within_mid : forall P X Y S, Permutation Y X ->
  within (P ++ X ++ S) (P ++ Y ++ S) (Z.of_nat (List.length P))
    (Z.of_nat (List.length P + List.length X) - 1).
Proof.
  intros P X Y S HP. pose proof (Permutation_length HP) as HL.
  unfold within, len. rewrite !length_app, HL. repeat split.
  - apply Permutation_app_head, Permutation_app_tail. exact HP.
  - intros k Hk Ho. unfold NpSort.get. destruct Ho as [Ho|Ho].
    + rewrite !app_nth1 by lia. reflexivity.
    + rewrite !app_nth2 by (rewrite ?length_app; lia).
      rewrite ?length_app, ?HL. reflexivity.
  - intros k Hk. rewrite get_mid by lia.
    rewrite app_nth1 by lia.
    assert (Hin : In (nth (Z.to_nat k - List.length P) Y 0) X).
    { apply (Permutation_in _ HP). apply nth_In. lia. }
    apply In_nth with (d := 0) in Hin as (n & Hn & En).
    exists (Z.of_nat (List.length P + n)). split; [lia|].
    rewrite get_mid by lia. rewrite app_nth1 by lia.
    rewrite <- En. f_equal. lia.
Qed.

Lemma insertion_seg : forall v t pl pr, 0 <= pl -> pr < len t ->
  (List.length t <= List.length v)%nat ->
  within t (NpSort.insertion v t pl pr) pl pr /\
  seg_sorted v (NpSort.insertion v t pl pr) pl pr.
Proof.
  intros v t pl pr Hpl Hpr Hlen.
  destruct (Z_lt_le_dec pr pl) as [Hlt|Hle].
  - unfold NpSort.insertion, NpSort.steps. cbn [NpSort.insertion_from].
    replace (pl + 1 <=? pr) with false by (symmetry; apply Z.leb_gt; lia).
    split; [apply within_refl|]. intros i j; lia.
  - destruct (decompose_seg t pl pr Hpl Hle Hpr) as (P & X & S & -> & HP & HX).
    destruct X as [|x0 X']; [simpl in HX; lia|].
    unfold NpSort.insertion.
    change (x0 :: X') with ([x0] ++ X').
    replace pl with (Z.of_nat (List.length P)) by lia.
    replace (Z.of_nat (List.length P) + 1) with (Z.of_nat (List.length P + List.length [x0]))
      by (simpl; lia).
    replace pr with (Z.of_nat (List.length P + List.length [x0] + List.length X') - 1)
      by (simpl in *; lia).
    rewrite <- app_assoc.
    rewrite insertion_from_gen.
    2:{ unfold NpSort.steps. rewrite !length_app in Hlen. simpl in *. lia. }
    2:{ unfold NpSort.steps. rewrite !length_app in Hlen. simpl in *. lia. }
    destruct (fold_ins_gen_ok v X' [x0]) as [Hp Hs]; [repeat constructor|].
    set (Y := fold_left (ins_gen v) X' [x0]) in *.
    split.
    + change ([x0] ++ X' ++ S) with (([x0] ++ X') ++ S).
      replace (List.length P + List.length [x0] + List.length X')%nat
        with (List.length P + List.length ([x0] ++ X'))%nat by (rewrite length_app; lia).
      apply within_mid. exact Hp.
    + pose proof (Permutation_length Hp) as HYl. rewrite length_app in HYl.
      intros i j Hi Hij Hj. unfold NpSort.key.
      rewrite !get_mid by lia. rewrite !app_nth1 by (simpl in *; lia).
      apply (FOP_nth (fun a b => fle (NpSort.val v a) (NpSort.val v b))); [exact Hs|]. simpl in *. lia.
Qed.

(** Partition *)
Section Part.
Variable v : list float.

Lemma key_swap : forall t p q k, 0 <= p < len t -> 0 <= q < len t -> 0 <= k ->
  NpSort.key v (NpSort.swap t p q) k =
  if k =? q then NpSort.key v t p else if k =? p then NpSort.key v t q else NpSort.key v t k.
Proof.
  intros. unfold NpSort.key. rewrite get_swap by auto.
  destruct (k =? q), (k =? p); reflexivity.
Qed.

Lemma scan_up_spec : forall fuel t pi s vp pi',
  pi < s -> s - pi <= Z.of_nat fuel ->
  NpSort.less (NpSort.key v t s) vp = false ->
  NpSort.scan_up v fuel t pi vp = pi' ->
  pi < pi' <= s /\ NpSort.less (NpSort.key v t pi') vp = false /\
  (forall k, pi < k < pi' -> NpSort.less (NpSort.key v t k) vp = true).
Proof.
  induction fuel as [|fuel IH]; intros t pi s vp pi' H1 H2 H3 E; [lia|].
  cbn [NpSort.scan_up] in E.
  destruct (NpSort.less (NpSort.key v t (pi + 1)) vp) eqn:Ep.
  - assert (pi + 1 <> s) by (intros Heq; subst s; congruence).
    destruct (IH t (pi + 1) s vp pi') as (A & B & C); auto; try lia.
    repeat split; auto; try lia.
    intros k Hk. destruct (Z.eq_dec k (pi + 1)) as [->|]; auto. apply C. lia.
  - subst pi'. repeat split; auto; try lia.
Qed.

Lemma scan_down_spec : forall fuel t pj s vp pj',
  s < pj -> pj - s <= Z.of_nat fuel ->
  NpSort.less vp (NpSort.key v t s) = false ->
  NpSort.scan_down v fuel t pj vp = pj' ->
  s <= pj' < pj /\ NpSort.less vp (NpSort.key v t pj') = false /\
  (forall k, pj' < k < pj -> NpSort.less vp (NpSort.key v t k) = true).
Proof.
  induction fuel as [|fuel IH]; intros t pj s vp pj' H1 H2 H3 E; [lia|].
  cbn [NpSort.scan_down] in E.
  destruct (NpSort.less vp (NpSort.key v t (pj - 1))) eqn:Ep.
  - assert (pj - 1 <> s) by (intros Heq; subst s; congruence).
    destruct (IH t (pj - 1) s vp pj') as (A & B & C); auto; try lia.
    repeat split; auto; try lia.
    intros k Hk. destruct (Z.eq_dec k (pj - 1)) as [->|]; auto. apply C. lia.
  - subst pj'. repeat split; auto; try lia.
Qed.

Lemma partition_loop_spec : forall fuel t t0 pi pj vp pl pr t' pi',
  0 <= pl -> pr < len t -> (List.length t <= List.length v)%nat ->
  within t0 t pl pr ->
  pl <= pi < pj -> pj <= pr - 1 -> pj - pi <= Z.of_nat fuel ->
  (forall k, pl <= k <= pi -> fle (NpSort.key v t k) vp) ->
  (forall k, pj <= k <= pr -> fle vp (NpSort.key v t k)) ->
  NpSort.key v t (pr - 1) = vp ->
  NpSort.partition_loop v fuel t pi pj vp = (t', pi') ->
  within t0 t' pl pr /\ pi < pi' <= pj /\ NpSort.key v t' (pr - 1) = vp /\
  (forall k, pl <= k < pi' -> fle (NpSort.key v t' k) vp) /\
  (forall k, pi' <= k <= pr -> fle vp (NpSort.key v t' k)).
Proof.
  induction fuel as [|fuel IH];
    intros t t0 pi pj vp pl pr t' pi' Hpl Hpr Hlen Hw Hij Hpj Hf HL HR Hv E; [lia|].
  cbn [NpSort.partition_loop] in E.
  assert (Hs : (Z.of_nat (List.length t) < Z.of_nat (NpSort.steps v))%Z)
    by (unfold NpSort.steps; lia).
  unfold len in Hpr.
  assert (HRj : fle vp (NpSort.key v t pj)) by (apply HR; lia).
  assert (HLi : fle (NpSort.key v t pi) vp) by (apply HL; lia).
  destruct (scan_up_spec (NpSort.steps v) t pi pj vp (NpSort.scan_up v (NpSort.steps v) t pi vp))
    as (U1 & U2 & U3); [lia|lia|exact HRj|reflexivity|].
  destruct (scan_down_spec (NpSort.steps v) t pj pi vp (NpSort.scan_down v (NpSort.steps v) t pj vp))
    as (D1 & D2 & D3); [lia|lia|exact HLi|reflexivity|].
  set (pi1 := NpSort.scan_up v (NpSort.steps v) t pi vp) in *.
  set (pj1 := NpSort.scan_down v (NpSort.steps v) t pj vp) in *.
  destruct (Z.leb_spec pj1 pi1) as [Hle|Hlt].
  - injection E as <- <-. split; [exact Hw|]. split; [lia|]. split; [exact Hv|]. split.
    + intros k Hk. destruct (Z_le_gt_dec k pi); [apply HL; lia|]. apply less_fle, U3. lia.
    + intros k Hk. destruct (Z.eq_dec k pi1) as [->|]; [exact U2|].
      destruct (Z_le_gt_dec pj k); [apply HR; lia|]. apply less_fle, D3. lia.
  - assert (Hw2 : within t0 (NpSort.swap t pi1 pj1) pl pr).
    { apply (within_trans _ t); auto. apply within_swap; unfold len; lia. }
    destruct (IH (NpSort.swap t pi1 pj1) t0 pi1 pj1 vp pl pr t' pi') as (A & B & C & D & F);
      auto; try lia.
    + rewrite length_swap. unfold len. lia.
    + unfold len in *. pose proof (length_swap t pi1 pj1). unfold len in H. lia.
    + intros k Hk. rewrite key_swap by (unfold len; lia).
      destruct (Z.eqb_spec k pj1); [lia|]. destruct (Z.eqb_spec k pi1); [exact D2|].
      destruct (Z_le_gt_dec k pi); [apply HL; lia|]. apply less_fle, U3. lia.
    + intros k Hk. rewrite key_swap by (unfold len; lia).
      destruct (Z.eqb_spec k pj1); [exact U2|]. destruct (Z.eqb_spec k pi1); [lia|].
      destruct (Z_le_gt_dec pj k); [apply HR; lia|]. apply less_fle, D3. lia.
    + rewrite key_swap by (unfold len; lia).
      destruct (Z.eqb_spec (pr - 1) pj1); [lia|]. destruct (Z.eqb_spec (pr - 1) pi1); [lia|].
      exact Hv.
    + split; [exact A|]. split; [lia|]. auto.
Qed.

End Part.

Section Part2.
Variable v : list float.

Lemma cswap_spec : forall t a b t', 0 <= a < len t -> 0 <= b < len t -> a <> b ->
  t' = (if NpSort.less (NpSort.key v t b) (NpSort.key v t a) then NpSort.swap t b a else t) ->
  len t' = len t /\ fle (NpSort.key v t' a) (NpSort.key v t' b) /\
  ((NpSort.key v t' a = NpSort.key v t a /\ NpSort.key v t' b = NpSort.key v t b) \/
   (NpSort.key v t' a = NpSort.key v t b /\ NpSort.key v t' b = NpSort.key v t a)) /\
  (forall k, 0 <= k -> k <> a -> k <> b -> NpSort.key v t' k = NpSort.key v t k) /\
  (forall lo hi, 0 <= lo -> hi < len t -> lo <= a <= hi -> lo <= b <= hi -> within t t' lo hi).
Proof.
  intros t a b t' Ha Hb Hab ->.
  destruct (NpSort.less (NpSort.key v t b) (NpSort.key v t a)) eqn:E.
  - rewrite length_swap. split; [reflexivity|].
    rewrite !key_swap by lia. rewrite Z.eqb_refl.
    replace (b =? a) with false by (symmetry; apply Z.eqb_neq; auto). rewrite Z.eqb_refl.
    split; [apply less_fle; exact E|]. split; [right; auto|]. split.
    + intros k Hk H1 H2. rewrite key_swap by lia.
      replace (k =? a) with false by (symmetry; apply Z.eqb_neq; auto).
      replace (k =? b) with false by (symmetry; apply Z.eqb_neq; auto). reflexivity.
    + intros lo hi H1 H2 H3 H4. apply within_swap; lia.
  - split; [reflexivity|]. split; [exact E|]. split; [left; auto|]. split; [auto|].
    intros. apply within_refl.
Qed.

Lemma partition_spec : forall t pl pr t' pi,
  0 <= pl -> pr < len t -> pl + 2 <= pr -> (List.length t <= List.length v)%nat ->
  NpSort.partition v t pl pr = (t', pi) ->
  within t t' pl pr /\ pl < pi < pr /\
  (forall k, pl <= k < pi -> fle (NpSort.key v t' k) (NpSort.key v t' pi)) /\
  (forall k, pi < k <= pr -> fle (NpSort.key v t' pi) (NpSort.key v t' k)).
Proof.
  intros t pl pr t' pi Hpl Hpr H2 Hlen E.
  unfold NpSort.partition in E. cbv zeta in E.
  set (pm := pl + Z.shiftr (pr - pl) 1) in E.
  assert (Hpm : pl < pm < pr).
  { unfold pm. rewrite Z.shiftr_div_pow2 by lia. change (2 ^ 1) with 2.
    pose proof (Z.div_mod (pr - pl) 2 ltac:(lia)). pose proof (Z.mod_pos_bound (pr - pl) 2 ltac:(lia)).
    lia. }
  clearbody pm.
  set (t1 := if NpSort.less (NpSort.key v t pm) (NpSort.key v t pl) then NpSort.swap t pm pl else t) in E.
  set (t2 := if NpSort.less (NpSort.key v t1 pr) (NpSort.key v t1 pm) then NpSort.swap t1 pr pm else t1) in E.
  set (t3 := if NpSort.less (NpSort.key v t2 pm) (NpSort.key v t2 pl) then NpSort.swap t2 pm pl else t2) in E.
  destruct (cswap_spec t pl pm t1) as (L1 & F1 & K1 & O1 & W1); try lia; [reflexivity|].
  destruct (cswap_spec t1 pm pr t2) as (L2 & F2 & K2 & O2 & W2); try lia; [reflexivity|].
  destruct (cswap_spec t2 pl pm t3) as (L3 & F3 & K3 & O3 & W3); try lia; [reflexivity|].
  assert (Hlr2 : fle (NpSort.key v t2 pl) (NpSort.key v t2 pr)).
  { rewrite O2 by lia.
    destruct K2 as [[E1 E2]|[E1 E2]]; rewrite E2.
    - rewrite E1, E2 in F2. apply (fle_trans _ (NpSort.key v t1 pm)); auto.
    - exact F1. }
  assert (Hlr3 : fle (NpSort.key v t3 pm) (NpSort.key v t3 pr)).
  { rewrite (O3 pr) by lia.
    destruct K3 as [[E1 E2]|[E1 E2]]; rewrite E2; [exact F2|exact Hlr2]. }
  clearbody t1 t2 t3.
  set (vp := NpSort.key v t3 pm) in E.
  set (t4 := NpSort.swap t3 pm (pr - 1)) in E.
  destruct (NpSort.partition_loop v (NpSort.steps v) t4 pl (pr - 1) vp) as [t5 pi5] eqn:EL.
  injection E as <- <-.
  assert (W4 : within t t4 pl pr).
  { apply (within_trans _ t3); [|apply within_swap; lia].
    apply (within_trans _ t2); [|apply W3; lia].
    apply (within_trans _ t1); [apply W1; lia|apply W2; lia]. }
  assert (L4 : len t4 = len t) by (unfold t4; rewrite length_swap; lia).
  assert (Hlen4 : (List.length t4 <= List.length v)%nat) by (unfold len in *; lia).
  destruct (partition_loop_spec v (NpSort.steps v) t4 t pl (pr - 1) vp pl pr t5 pi5)
    as (W5 & P5 & V5 & HL5 & HR5); auto; try lia.
  - unfold NpSort.steps. unfold len in *. lia.
  - intros k Hk. replace k with pl by lia. unfold t4. rewrite key_swap by lia.
    replace (pl =? pr - 1) with false by (symmetry; apply Z.eqb_neq; lia).
    replace (pl =? pm) with false by (symmetry; apply Z.eqb_neq; lia). exact F3.
  - intros k Hk. unfold t4. rewrite key_swap by lia.
    destruct (Z.eqb_spec k (pr - 1)); [apply fle_refl|].
    replace k with pr by lia.
    replace (pr =? pm) with false by (symmetry; apply Z.eqb_neq; lia). exact Hlr3.
  - unfold t4. rewrite key_swap by lia. rewrite Z.eqb_refl. reflexivity.
  - pose proof W5 as (L5 & _).
    assert (Kpi : NpSort.key v (NpSort.swap t5 pi5 (pr - 1)) pi5 = vp).
    { rewrite key_swap by lia. destruct (Z.eqb_spec pi5 (pr - 1)) as [->|]; [exact V5|].
      rewrite Z.eqb_refl. exact V5. }
    split; [apply (within_trans _ t5); [exact W5|apply within_swap; lia]|].
    split; [lia|]. rewrite Kpi. split.
    + intros k Hk. rewrite key_swap by lia.
      replace (k =? pr - 1) with false by (symmetry; apply Z.eqb_neq; lia).
      replace (k =? pi5) with false by (symmetry; apply Z.eqb_neq; lia). apply HL5. lia.
    + intros k Hk. rewrite key_swap by lia.
      destruct (Z.eqb_spec k (pr - 1)); [apply HR5; lia|].
      replace (k =? pi5) with false by (symmetry; apply Z.eqb_neq; lia). apply HR5. lia.
Qed.

End Part2.

(** Heapsort *)
Ltac dlia := Z.div_mod_to_equations; lia.

Section Heap.
Variable v : list float.

Lemma sift_siftdown : forall fuel t pl n i tmp, 0 <= pl -> 1 <= i <= n -> pl + n - 1 < len t ->
  NpSort.sift v fuel t pl n i (i + i) tmp = siftdown v fuel (NpSort.aset t pl i tmp) pl n i.
Proof.
  induction fuel as [|fuel IH]; intros t pl n i tmp Hpl Hi Hn; [reflexivity|].
  cbn [NpSort.sift siftdown].
  destruct (i + i <=? n) eqn:Hin; [|reflexivity].
  apply Z.leb_le in Hin.
  assert (Ha : forall k, 1 <= k -> k <> i ->
            NpSort.aget (NpSort.aset t pl i tmp) pl k = NpSort.aget t pl k).
  { intros k Hk Hki. unfold NpSort.aget, NpSort.aset. apply get_setz_neq; lia. }
  assert (Hai : NpSort.aget (NpSort.aset t pl i tmp) pl i = tmp).
  { unfold NpSort.aget, NpSort.aset. apply get_setz_eq. lia. }
  rewrite (Ha (i + i)), (Ha (i + i + 1)), Hai by lia.
  set (j := if (i + i <? n) && NpSort.less (NpSort.val v (NpSort.aget t pl (i + i)))
                                (NpSort.val v (NpSort.aget t pl (i + i + 1)))
            then i + i + 1 else i + i).
  assert (Hj : (j = i + i \/ (j = i + i + 1 /\ i + i < n))).
  { unfold j. destruct (Z.ltb_spec (i + i) n); simpl; auto.
    destruct (NpSort.less _ _); auto. }
  rewrite (Ha j) by lia.
  destruct (NpSort.less (NpSort.val v tmp) (NpSort.val v (NpSort.aget t pl j))); [|reflexivity].
  rewrite IH by (unfold NpSort.aset; try rewrite length_setz; lia).
  f_equal. unfold NpSort.swap, NpSort.aset, NpSort.aget.
  rewrite get_setz_eq by lia. rewrite get_setz_neq by lia.
  rewrite setz_setz_same. reflexivity.
Qed.

Lemma hkey_swap : forall t pl p q k, 0 <= pl -> 1 <= p -> 1 <= q -> 1 <= k ->
  pl + p - 1 < len t -> pl + q - 1 < len t ->
  hkey v (NpSort.swap t (pl + p - 1) (pl + q - 1)) pl k =
  if k =? q then hkey v t pl p else if k =? p then hkey v t pl q else hkey v t pl k.
Proof.
  intros. unfold hkey. rewrite key_swap by lia.
  destruct (Z.eqb_spec k q), (Z.eqb_spec (pl + k - 1) (pl + q - 1)); try lia;
  destruct (Z.eqb_spec k p), (Z.eqb_spec (pl + k - 1) (pl + p - 1)); try lia;
  subst; try reflexivity.
Qed.

Lemma siftdown_within : forall fuel t pl n i, 0 <= pl -> 1 <= i -> pl + n - 1 < len t ->
  within t (siftdown v fuel t pl n i) pl (pl + n - 1).
Proof.
  induction fuel as [|fuel IH]; intros t pl n i Hpl Hi Hn; [apply within_refl|].
  cbn [siftdown].
  destruct (Z.leb_spec (i + i) n); [|apply within_refl].
  set (j := if (i + i <? n) && _ then i + i + 1 else i + i).
  assert (Hj : (j = i + i \/ (j = i + i + 1 /\ i + i < n))).
  { unfold j. destruct (Z.ltb_spec (i + i) n); simpl; auto.
    destruct (NpSort.less _ _); auto. }
  destruct (NpSort.less (NpSort.val v (NpSort.aget t pl i)) (NpSort.val v (NpSort.aget t pl j)));
    [|apply within_refl].
  apply (within_trans _ (NpSort.swap t (pl + i - 1) (pl + j - 1))).
  - apply within_swap; lia.
  - apply IH; [lia|lia|rewrite length_swap; lia].
Qed.

Lemma siftdown_heap : forall fuel t pl n lo i,
  0 <= pl -> 1 <= lo <= i -> i <= n -> pl + n - 1 < len t -> n - i < Z.of_nat fuel ->
  heap_ok v t pl n lo i ->
  (2 <= i -> lo <= i / 2 -> forall c, 2 <= c <= n -> c / 2 = i ->
     fle (hkey v t pl c) (hkey v t pl (i / 2))) ->
  heap_ok v (siftdown v fuel t pl n i) pl n lo 0.
Proof.
  induction fuel as [|fuel IH]; intros t pl n lo i Hpl Hlo Hin Hn Hf H1 H2; [lia|].
  unfold heap_ok in H1. cbn [siftdown].
  destruct (Z.leb_spec (i + i) n) as [Hii|Hii].
  2:{ intros c Hc Hcl _. destruct (Z.eq_dec (c / 2) i); [dlia|]. apply H1; auto. }
  set (j := if (i + i <? n) && _ then i + i + 1 else i + i).
  assert (Hj : (j = i + i \/ (j = i + i + 1 /\ i + i < n))).
  { unfold j. destruct (Z.ltb_spec (i + i) n); simpl; auto.
    destruct (NpSort.less _ _); auto. }
  assert (Hmax : forall c, 2 <= c <= n -> c / 2 = i -> fle (hkey v t pl c) (hkey v t pl j)).
  { intros c Hc Hci. unfold j.
    destruct (Z.ltb_spec (i + i) n) as [Hlt|Hge]; simpl.
    - change (NpSort.val v (NpSort.aget t pl ?k)) with (hkey v t pl k).
      destruct (NpSort.less (hkey v t pl (i + i)) (hkey v t pl (i + i + 1))) eqn:E.
      + assert (c = i + i \/ c = i + i + 1) as [->| ->] by dlia;
          [apply less_fle; exact E|apply fle_refl].
      + assert (c = i + i \/ c = i + i + 1) as [->| ->] by dlia; [apply fle_refl|exact E].
    - assert (c = i + i) as -> by dlia. apply fle_refl. }
  change (NpSort.val v (NpSort.aget t pl ?k)) with (hkey v t pl k).
  destruct (NpSort.less (hkey v t pl i) (hkey v t pl j)) eqn:Eij.
  - set (t' := NpSort.swap t (pl + i - 1) (pl + j - 1)).
    assert (Hk : forall k, 1 <= k -> hkey v t' pl k =
              if k =? j then hkey v t pl i else if k =? i then hkey v t pl j else hkey v t pl k).
    { intros k Hk. apply hkey_swap; lia. }
    apply IH; try lia.
    + unfold t'. rewrite length_swap. lia.
    + intros c Hc Hcl Hcj. rewrite !Hk by dlia.
      destruct (Z.eqb_spec (c / 2) j); [lia|].
      destruct (Z.eqb_spec (c / 2) i) as [Hci|Hci].
      * destruct (Z.eqb_spec c j) as [->|Hcj'].
        -- apply less_fle. exact Eij.
        -- destruct (Z.eqb_spec c i); [dlia|]. apply Hmax; auto.
      * destruct (Z.eqb_spec c j); [dlia|].
        destruct (Z.eqb_spec c i) as [->|Hci'].
        -- apply H2; try lia; dlia.
        -- apply H1; auto.
    + intros Hj2 Hjl c Hc Hcj. rewrite !Hk by dlia.
      replace (j / 2) with i by dlia.
      destruct (Z.eqb_spec c j); [dlia|]. destruct (Z.eqb_spec c i); [dlia|].
      rewrite Z.eqb_refl. destruct (Z.eqb_spec i j); [lia|].
      rewrite <- Hcj. apply H1; dlia.
  - intros c Hc Hcl _. destruct (Z.eq_dec (c / 2) i) as [Hci|Hci].
    + rewrite Hci. apply (fle_trans _ (hkey v t pl j)); [apply Hmax; auto|exact Eij].
    + apply H1; auto.
Qed.

End Heap.

Section Heap2.
Variable v : list float.

Lemma heapify_spec : forall fuel t pl n l,
  0 <= pl -> pl + n - 1 < len t -> (List.length t <= List.length v)%nat ->
  0 <= l -> l + l <= n -> l < Z.of_nat fuel -> heap_ok v t pl n (l + 1) 0 ->
  within t (NpSort.heapify v fuel t pl n l) pl (pl + n - 1) /\
  heap_ok v (NpSort.heapify v fuel t pl n l) pl n 1 0.
Proof.
  induction fuel as [|fuel IH]; intros t pl n l Hpl Hn Hlen Hl Hln Hf Hh; [lia|].
  cbn [NpSort.heapify]. destruct (Z.ltb_spec 0 l) as [Hl0|Hl0].
  - rewrite sift_siftdown by lia.
    replace (NpSort.aset t pl l (NpSort.aget t pl l)) with t
      by (unfold NpSort.aset, NpSort.aget; symmetry; apply setz_get_same).
    set (t1 := siftdown v (NpSort.steps v) t pl n l).
    assert (W1 : within t t1 pl (pl + n - 1)) by (apply siftdown_within; lia).
    assert (H1 : heap_ok v t1 pl n l 0).
    { apply siftdown_heap; try lia.
      - unfold len in Hn. unfold NpSort.steps. lia.
      - intros c Hc Hcl Hcn. apply Hh; dlia.
      - intros Hl2 Hll. dlia. }
    pose proof W1 as (L1 & P1 & _).
    destruct (IH t1 pl n (l - 1)) as [W2 H2]; try lia.
    + unfold len in *. lia.
    + replace (l - 1 + 1) with l by lia. exact H1.
    + split; [|exact H2]. apply (within_trans _ t1); auto.
  - replace l with 0 in Hh by lia. split; [apply within_refl|exact Hh].
Qed.

Lemma heap_root : forall t pl m, heap_ok v t pl m 1 0 ->
  forall k, 1 <= k <= m -> fle (hkey v t pl k) (hkey v t pl 1).
Proof.
  intros t pl m H.
  assert (G : forall nk k, (Z.to_nat k <= nk)%nat -> 1 <= k <= m ->
            fle (hkey v t pl k) (hkey v t pl 1)).
  { induction nk as [|nk IH]; intros k Hk Hkm; [lia|].
    destruct (Z.eq_dec k 1) as [->|Hk1]; [apply fle_refl|].
    apply (fle_trans _ (hkey v t pl (k / 2))).
    - apply H; dlia.
    - apply IH; [|dlia]. assert (k / 2 < k) by dlia. lia. }
  intros k Hk. apply (G (Z.to_nat k)); auto.
Qed.

Lemma pop_spec : forall fuel t t0 pl N m,
  0 <= pl -> pl + N - 1 < len t -> (List.length t <= List.length v)%nat ->
  1 <= m <= N -> m - 1 < Z.of_nat fuel ->
  within t0 t pl (pl + N - 1) -> heap_ok v t pl m 1 0 ->
  (forall k1 k2, m < k1 < k2 -> k2 <= N -> fle (hkey v t pl k1) (hkey v t pl k2)) ->
  (forall k1 k2, 1 <= k1 <= m -> m < k2 <= N -> fle (hkey v t pl k1) (hkey v t pl k2)) ->
  within t0 (NpSort.pop_max v fuel t pl m) pl (pl + N - 1) /\
  (forall k1 k2, 1 <= k1 < k2 -> k2 <= N ->
     fle (hkey v (NpSort.pop_max v fuel t pl m) pl k1) (hkey v (NpSort.pop_max v fuel t pl m) pl k2)).
Proof.
  induction fuel as [|fuel IH]; intros t t0 pl N m Hpl Hn Hlen Hm Hf W0 Hh Hs Hhs; [lia|].
  cbn [NpSort.pop_max]. destruct (Z.ltb_spec 1 m) as [Hm1|Hm1].
  - cbv zeta.
    change 2 with (1 + 1). rewrite sift_siftdown by (unfold NpSort.aset; rewrite ?length_setz; lia).
    set (u := NpSort.aset (NpSort.aset t pl m (NpSort.aget t pl 1)) pl 1 (NpSort.aget t pl m)).
    assert (Hu : u = NpSort.swap t (pl + m - 1) (pl + 1 - 1)) by reflexivity.
    assert (Lu : len u = len t) by (rewrite Hu; apply length_swap).
    assert (Ku : forall k, 1 <= k -> hkey v u pl k =
              if k =? 1 then hkey v t pl m else if k =? m then hkey v t pl 1 else hkey v t pl k).
    { intros k Hk. rewrite Hu. apply hkey_swap; lia. }
    assert (Wu : within t u pl (pl + N - 1)) by (rewrite Hu; apply within_swap; lia).
    set (t1 := siftdown v (NpSort.steps v) u pl (m - 1) 1).
    assert (W1 : within u t1 pl (pl + (m - 1) - 1)) by (apply siftdown_within; lia).
    assert (H1 : heap_ok v t1 pl (m - 1) 1 0).
    { apply siftdown_heap; try lia.
      - unfold len in *. unfold NpSort.steps. lia.
      - intros c Hc Hcl Hcn. rewrite !Ku by dlia.
        destruct (Z.eqb_spec c 1); [lia|]. destruct (Z.eqb_spec c m); [lia|].
        destruct (Z.eqb_spec (c / 2) 1); [lia|]. destruct (Z.eqb_spec (c / 2) m); [dlia|].
        apply Hh; dlia. }
    pose proof W1 as (L1 & _ & O1 & I1).
    assert (K1out : forall k, m <= k <= N -> hkey v t1 pl k = hkey v u pl k).
    { intros k Hk. unfold hkey, NpSort.key. rewrite O1; auto; lia. }
    apply IH; try lia.
    + unfold len in *. lia.
    + apply (within_trans _ t); auto. apply (within_trans _ u); auto.
      apply (within_widen u t1 pl (pl + (m - 1) - 1)); auto; lia.
    + exact H1.
    + intros k1 k2 Hk Hk2. rewrite !K1out by lia. rewrite !Ku by lia.
      destruct (Z.eqb_spec k1 1); [lia|]. destruct (Z.eqb_spec k2 1); [lia|].
      destruct (Z.eqb_spec k2 m); [lia|].
      destruct (Z.eqb_spec k1 m) as [->|]; [apply Hhs; lia|apply Hs; lia].
    + intros k1 k2 Hk1 Hk2.
      apply (fle_trans _ (hkey v t pl 1)).
      * destruct (I1 (pl + k1 - 1)) as (p' & Hp' & Ep'); [lia|].
        unfold hkey at 1. unfold NpSort.key. rewrite Ep'.
        replace p' with (pl + (p' - pl + 1) - 1) by lia.
        change (NpSort.val v (NpSort.get u (pl + (p' - pl + 1) - 1))) with (hkey v u pl (p' - pl + 1)).
        rewrite Ku by lia.
        destruct (Z.eqb_spec (p' - pl + 1) 1); [apply (heap_root t pl m); auto; lia|].
        destruct (Z.eqb_spec (p' - pl + 1) m); [lia|]. apply (heap_root t pl m); auto; lia.
      * rewrite K1out by lia. rewrite Ku by lia.
        destruct (Z.eqb_spec k2 1); [lia|].
        destruct (Z.eqb_spec k2 m); [apply fle_refl|]. apply Hhs; lia.
  - split; [exact W0|]. intros k1 k2 Hk Hk2.
    destruct (Z.eq_dec k1 1) as [->|]; [apply Hhs; lia|apply Hs; lia].
Qed.

Lemma aheapsort_spec : forall t pl pr, 0 <= pl -> pr < len t ->
  (List.length t <= List.length v)%nat ->
  within t (NpSort.aheapsort v t pl (pr - pl + 1)) pl pr /\
  seg_sorted v (NpSort.aheapsort v t pl (pr - pl + 1)) pl pr.
Proof.
  intros t pl pr Hpl Hpr Hlen. unfold NpSort.aheapsort.
  rewrite Z.shiftr_div_pow2 by lia. change (2 ^ 1) with 2.
  set (N := pr - pl + 1).
  destruct (Z_le_gt_dec N 1) as [HN|HN].
  - unfold NpSort.steps. cbn [NpSort.heapify NpSort.pop_max].
    replace (0 <? N / 2) with false by (symmetry; apply Z.ltb_ge; dlia).
    replace (1 <? N) with false by (symmetry; apply Z.ltb_ge; lia).
    split; [apply within_refl|]. intros i j; unfold N in HN; lia.
  - destruct (heapify_spec (NpSort.steps v) t pl N (N / 2)) as [W1 H1]; try dlia.
    + unfold NpSort.steps. unfold len in *. dlia.
    + intros c Hc Hcl. dlia.
    + set (t1 := NpSort.heapify v (NpSort.steps v) t pl N (N / 2)) in *.
      pose proof W1 as (L1 & _).
      assert (Hl1 : (List.length t1 <= List.length v)%nat) by (unfold len in *; lia).
      assert (Hf1 : N - 1 < Z.of_nat (NpSort.steps v)) by (unfold NpSort.steps, len in *; lia).
      destruct (pop_spec (NpSort.steps v) t1 t pl N N) as [W2 S2];
        [lia|lia|exact Hl1|lia|exact Hf1|exact W1|exact H1|intros; lia|intros; lia|].
      replace (pl + N - 1) with pr in W2 by lia. split; [exact W2|].
      intros i j Hi Hij Hj.
      specialize (S2 (i - pl + 1) (j - pl + 1) ltac:(lia) ltac:(lia)).
      unfold hkey in S2. replace (pl + (i - pl + 1) - 1) with i in S2 by lia.
      replace (pl + (j - pl + 1) - 1) with j in S2 by lia. exact S2.
Qed.

End Heap2.

(** The main loop *)
Lemma sum_w_nonneg : forall (S : list (Z * Z)) (P : Z * Z -> Prop),
  Forall (fun s => P s /\ fst s <= snd s + 1) S -> 0 <= sum_w S.
Proof.
  intros S P H. induction H as [|s S Hs _ IH]; simpl; [lia|].
  unfold seg_w. destruct Hs. lia.
Qed.

Lemma within_cases : forall t t' a b k, within t t' a b -> 0 <= k < len t ->
  exists k', NpSort.get t' k = NpSort.get t k' /\
    ((a <= k <= b /\ a <= k' <= b) \/ (~ (a <= k <= b) /\ k' = k)).
Proof.
  intros t t' a b k (_ & _ & Ow & Iw) Hk.
  destruct (Z_le_gt_dec a k); [destruct (Z_le_gt_dec k b)|].
  - destruct (Iw k ltac:(lia)) as (k' & Hk' & Ek). exists k'. split; auto.
  - exists k. split; [apply Ow; lia|right; split; [lia|auto]].
  - exists k. split; [apply Ow; lia|right; split; [lia|auto]].
Qed.

Section Main.
Variable v : list float.

Lemma qinv_step : forall t0 t t' a b S C,
  qinv v t0 t ((a, b) :: S) ->
  within t t' a b ->
  Forall (fun s => a <= fst s /\ snd s <= b /\ fst s <= snd s + 1) C ->
  ForallOrdPairs disj C ->
  (forall i j, a <= i -> i < j -> j <= b -> ~ together C i j ->
     fle (NpSort.key v t' i) (NpSort.key v t' j)) ->
  qinv v t0 t' (C ++ S).
Proof.
  intros t0 t t' a b S C (L & P & Hl & F & D & Srt) (Lw & Pw & Ow & Iw) FC DC SC.
  inversion F as [|? ? [Ha [Hb Hab]] FS]; subst. cbn [fst snd] in Ha, Hb, Hab.
  inversion D as [|? ? Dab DS]; subst.
  assert (Hnab : forall s k, In s S -> in_seg s k -> ~ (a <= k <= b)).
  { intros s k Hs Hk Hk'. rewrite Forall_forall in Dab.
    apply (Dab s Hs k). split; auto. }
  unfold qinv. split; [congruence|]. split; [rewrite Pw; exact P|].
  split; [unfold len in *; lia|]. split.
  { apply Forall_app. split.
    - rewrite Forall_forall in *. intros s Hs. destruct (FC s Hs) as (? & ? & ?). lia.
    - rewrite Forall_forall in *. intros s Hs. destruct (FS s Hs) as (? & ? & ?). lia. }
  split.
  { apply FOP_app; auto. intros s s' Hs Hs' k [Hk Hk'].
    rewrite Forall_forall in FC. destruct (FC s Hs) as (? & ? & ?).
    apply (Hnab s' k Hs' Hk'). unfold in_seg in Hk. lia. }
  intros i j Hi Hij Hj Hnt.
  assert (HnC : ~ together C i j).
  { intros (s & Hs & H1 & H2). apply Hnt. exists s. split; auto. apply in_or_app. auto. }
  assert (HnS : forall s, In s S -> ~ (in_seg s i /\ in_seg s j)).
  { intros s Hs [H1 H2]. apply Hnt. exists s. split; auto. apply in_or_app. auto. }
  destruct (Z_le_gt_dec a i) as [Hai|Hai]; [destruct (Z_le_gt_dec j b) as [Hjb|Hjb]|].
  { apply SC; auto; lia. }
  all: assert (Hw : forall k, 0 <= k < len t -> exists k', NpSort.get t' k = NpSort.get t k' /\
              ((a <= k <= b /\ a <= k' <= b) \/ (~ (a <= k <= b) /\ k' = k)))
    by (intros k Hk; apply (within_cases t t' a b); [split; auto|lia]).
  all: destruct (Hw i ltac:(lia)) as (i' & Ei & Ci); destruct (Hw j ltac:(lia)) as (j' & Ej & Cj);
    unfold NpSort.key; rewrite Ei, Ej; apply Srt;
    [lia|lia|unfold len in *; lia|].
  all: intros (s & Hs & H1 & H2); destruct Hs as [<-|Hs];
    [unfold in_seg in H1, H2; simpl in H1, H2; lia|].
  all: destruct Ci as [[Ci Ci']|[Ci ->]]; [apply (Hnab s i' Hs H1); lia|];
    destruct Cj as [[Cj Cj']|[Cj ->]]; [apply (Hnab s j' Hs H2); lia|];
    apply (HnS s Hs); auto.
Qed.

Lemma qinv_range : forall t0 t S, qinv v t0 t S ->
  Forall (fun s => 0 <= fst s /\ snd s < len t /\ fst s <= snd s + 1) S.
Proof. intros t0 t S (_ & _ & _ & F & _). exact F. Qed.

Lemma sum_w_range : forall t0 t S, qinv v t0 t S -> 0 <= sum_w S.
Proof.
  intros t0 t S H. apply qinv_range in H.
  apply (sum_w_nonneg S (fun s => 0 <= fst s /\ snd s < len t)).
  rewrite Forall_forall in *. intros s Hs. destruct (H s Hs) as (? & ? & ?). auto.
Qed.

Lemma qinv_final : forall t0 t, qinv v t0 t [] ->
  forall i j, 0 <= i -> i < j -> j < len t -> fle (NpSort.key v t i) (NpSort.key v t j).
Proof.
  intros t0 t (_ & _ & _ & _ & _ & Srt) i j Hi Hij Hj. apply Srt; auto.
  intros (s & [] & _).
Qed.

Lemma qinv_head : forall t0 t pl pr S, qinv v t0 t ((pl, pr) :: S) ->
  0 <= pl /\ pr < len t /\ pl <= pr + 1 /\ (List.length t <= List.length v)%nat /\
  0 <= sum_w S.
Proof.
  intros t0 t pl pr S H. pose proof (sum_w_range _ _ _ H) as Hs. simpl in Hs.
  destruct H as (_ & _ & Hl & F & _). inversion F as [|? ? (A & B & C) F']; subst.
  simpl in *. unfold seg_w in Hs. simpl in Hs.
  assert (0 <= sum_w S).
  { apply (sum_w_nonneg S (fun s => 0 <= fst s /\ snd s < len t)).
    rewrite Forall_forall in *. intros s Hs'. destruct (F' s Hs') as (? & ? & ?). auto. }
  repeat split; auto.
Qed.

Lemma qinv_qfinal : forall t0 t, qinv v t0 t [] -> qfinal v t0 t.
Proof.
  intros t0 t H. pose proof H as (L & P & _). split; auto. split; auto.
  apply (qinv_final t0). exact H.
Qed.

Lemma qs_main : forall t0 fuel,
  (forall t pl pr d stack, qinv v t0 t ((pl, pr) :: frames stack) ->
     seg_w (pl, pr) + sum_w (frames stack) <= Z.of_nat fuel ->
     qfinal v t0 (NpSort.qs_top v fuel t pl pr d stack)) /\
  (forall t pl pr d stack, qinv v t0 t ((pl, pr) :: frames stack) ->
     seg_w (pl, pr) + sum_w (frames stack) - 1 <= Z.of_nat fuel ->
     qfinal v t0 (NpSort.qs_while v fuel t pl pr d stack)) /\
  (forall t stack, qinv v t0 t (frames stack) ->
     sum_w (frames stack) + 1 <= Z.of_nat fuel ->
     qfinal v t0 (NpSort.qs_pop v fuel t stack)).
Proof.
  intros t0 fuel. induction fuel as [|f IH].
  - split; [|split].
    + intros t pl pr d stack H Hf. apply qinv_head in H. unfold seg_w in Hf. cbn [fst snd] in Hf. lia.
    + intros t pl pr d stack H Hf. apply qinv_head in H. unfold seg_w in Hf. cbn [fst snd] in Hf. lia.
    + intros t stack H Hf. apply sum_w_range in H. lia.
  - destruct IH as (IHt & IHw & IHp). split; [|split].
    + intros t pl pr d stack H Hf. cbn [NpSort.qs_top].
      destruct (H) as (_ & _ & _ & _ & _ & _).
      pose proof (qinv_head _ _ _ _ _ H) as (Hpl & Hpr & Hle & Hlen & Hsum).
      unfold seg_w in Hf. cbn [fst snd] in Hf.
      destruct (d <? 0).
      * destruct (aheapsort_spec v t pl pr Hpl Hpr Hlen) as [W Srt].
        apply IHp; [|lia].
        apply (qinv_step t0 t _ pl pr (frames stack) [] H W); [constructor|constructor|].
        intros i j Hi Hij Hj _. apply Srt; lia.
      * apply IHw; auto. unfold seg_w. cbn [fst snd]. lia.
    + intros t pl pr d stack H Hf. cbn [NpSort.qs_while].
      pose proof (qinv_head _ _ _ _ _ H) as (Hpl & Hpr & Hle & Hlen & Hsum).
      unfold seg_w in Hf. cbn [fst snd] in Hf.
      destruct (Z.ltb_spec NpSort.SMALL_QUICKSORT (pr - pl)) as [Hbig|Hsmall].
      * unfold NpSort.SMALL_QUICKSORT in Hbig.
        destruct (NpSort.partition v t pl pr) as [t' pi] eqn:EP.
        destruct (partition_spec v t pl pr t' pi Hpl Hpr ltac:(lia) Hlen EP)
          as (W & Hpi & PL & PR).
        assert (Hsplit : forall i j, pl <= i -> i < j -> j <= pr ->
                  ~ (i <= pi - 1 /\ j <= pi - 1) -> ~ (pi + 1 <= i /\ pi + 1 <= j) ->
                  fle (NpSort.key v t' i) (NpSort.key v t' j)).
        { intros i j Hi Hij Hj N1 N2.
          destruct (Z.eq_dec i pi) as [->|Hip]; [apply PR; lia|].
          destruct (Z.eq_dec j pi) as [->|Hjp]; [apply PL; lia|].
          apply (fle_trans _ (NpSort.key v t' pi)); [apply PL|apply PR]; lia. }
        destruct (Z.ltb_spec (pi - pl) (pr - pi)).
        -- apply IHw.
           ++ change (frames ((pi + 1, pr, d - 1) :: stack))
                with ((pi + 1, pr) :: frames stack).
              change ((pl, pi - 1) :: (pi + 1, pr) :: frames stack)
                with ([(pl, pi - 1); (pi + 1, pr)] ++ frames stack).
              apply (qinv_step t0 t t' pl pr); auto.
              ** repeat constructor; simpl; lia.
              ** repeat constructor. intros k [Hk1 Hk2]. unfold in_seg in *. simpl in *. lia.
              ** intros i j Hi Hij Hj Hnt. apply Hsplit; auto.
                 --- intros [? ?]. apply Hnt. exists (pl, pi - 1). split; [simpl; auto|].
                     unfold in_seg. simpl. lia.
                 --- intros [? ?]. apply Hnt. exists (pi + 1, pr). split; [simpl; auto|].
                     unfold in_seg. simpl. lia.
           ++ change (sum_w (frames ((pi + 1, pr, d - 1) :: stack)))
                with (seg_w (pi + 1, pr) + sum_w (frames stack)).
              unfold seg_w. cbn [fst snd]. lia.
        -- apply IHw.
           ++ change (frames ((pl, pi - 1, d - 1) :: stack))
                with ((pl, pi - 1) :: frames stack).
              change ((pi + 1, pr) :: (pl, pi - 1) :: frames stack)
                with ([(pi + 1, pr); (pl, pi - 1)] ++ frames stack).
              apply (qinv_step t0 t t' pl pr); auto.
              ** repeat constructor; simpl; lia.
              ** repeat constructor. intros k [Hk1 Hk2]. unfold in_seg in *. simpl in *. lia.
              ** intros i j Hi Hij Hj Hnt. apply Hsplit; auto.
                 --- intros [? ?]. apply Hnt. exists (pl, pi - 1). split; [simpl; auto|].
                     unfold in_seg. simpl. lia.
                 --- intros [? ?]. apply Hnt. exists (pi + 1, pr). split; [simpl; auto|].
                     unfold in_seg. simpl. lia.
           ++ change (sum_w (frames ((pl, pi - 1, d - 1) :: stack)))
                with (seg_w (pl, pi - 1) + sum_w (frames stack)).
              unfold seg_w. cbn [fst snd]. lia.
      * destruct (insertion_seg v t pl pr Hpl Hpr Hlen) as [W Srt].
        apply IHp; [|lia].
        apply (qinv_step t0 t _ pl pr (frames stack) [] H W); [constructor|constructor|].
        intros i j Hi Hij Hj _. apply Srt; lia.
    + intros t stack H Hf. cbn [NpSort.qs_pop].
      destruct stack as [|[[pl pr] d] stack].
      * apply qinv_qfinal. exact H.
      * apply IHt; [exact H|].
        change (sum_w (frames ((pl, pr, d) :: stack)))
          with (seg_w (pl, pr) + sum_w (frames stack)) in Hf. lia.
Qed.

End Main.

Lemma FOP_nth_intro : forall {A} (R : A -> A -> Prop) l d,
  (forall i j, (i < j < List.length l)%nat -> R (nth i l d) (nth j l d)) -> ForallOrdPairs R l.
Proof.
  intros A R l d. induction l as [|a l IH]; intros H; constructor.
  - apply Forall_forall. intros x Hx. apply In_nth with (d := d) in Hx as (k & Hk & <-).
    apply (H 0%nat (S k)). simpl. lia.
  - apply IH. intros i j Hij. apply (H (S i) (S j)). simpl. lia.
Qed.

Lemma argsort_ok : forall v,
  Permutation (NpSort.argsort v) (map Z.of_nat (seq 0 (List.length v))) /\
  ForallOrdPairs (fun i j => fle (NpSort.val v i) (NpSort.val v j)) (NpSort.argsort v).
Proof.
  intros v. unfold NpSort.argsort. cbv zeta.
  set (n := List.length v). set (t0 := map Z.of_nat (seq 0 n)).
  assert (Lt0 : len t0 = Z.of_nat n) by (unfold len, t0; rewrite length_map, length_seq; reflexivity).
  destruct (qs_main v t0 (8 * NpSort.steps v)) as (Htop & _ & _).
  destruct (Htop t0 0 (Z.of_nat n - 1) (Z.log2 (Z.of_nat n) * 2) []) as (L & P & S).
  - split; [reflexivity|]. split; [reflexivity|].
    split; [unfold t0; rewrite length_map, length_seq; lia|].
    split; [repeat constructor; simpl; lia|].
    split; [repeat constructor|].
    intros i j Hi Hij Hj Hnt. exfalso. apply Hnt.
    exists (0, Z.of_nat n - 1). split; [simpl; auto|]. unfold in_seg. simpl. lia.
  - unfold seg_w, sum_w, frames. cbn [fst snd map fold_right]. unfold NpSort.steps. lia.
  - split; [exact P|]. apply (FOP_nth_intro _ _ 0). intros i j Hij.
    pose proof (S (Z.of_nat i) (Z.of_nat j)) as Sij. unfold NpSort.key, NpSort.get in Sij.
    rewrite !Nat2Z.id in Sij. apply Sij; unfold len; lia.
Qed.

Lemma nargsort_ok : forall items,
  Permutation (map Z.to_nat (NpSort.nargsort items)) (seq 0 (List.length items)) /\
  ForallOrdPairs (in_order items) (map Z.to_nat (NpSort.nargsort items)).
Proof.
  intros items. unfold NpSort.nargsort. cbv zeta.
  set (idx := map Z.of_nat (seq 0 (List.length items))).
  assert (Hlen : List.length items = List.length idx)
    by (unfold idx; rewrite length_map, length_seq; reflexivity).
  set (Q := filter (fun p => negb (is_nan (fst p))) (combine items idx)).
  set (Q' := filter (fun p => is_nan (fst p)) (combine items idx)).
  assert (HNN : map snd (filter (fun p => negb (fst p)) (combine (map is_nan items) items))
                = map fst Q).
  { rewrite (snd_filter_mask is_nan negb), (snd_filter_diag (fun x => negb (is_nan x))).
    unfold Q. rewrite (fst_filter_combine (fun x => negb (is_nan x))) by exact Hlen.
    reflexivity. }
  assert (HNI : map snd (filter (fun p => negb (fst p)) (combine (map is_nan items) idx))
                = map snd Q) by apply (snd_filter_mask is_nan negb).
  assert (HNaN : map snd (filter (fun p => fst p) (combine (map is_nan items) idx))
                 = map snd Q') by apply (snd_filter_mask is_nan (fun b => b)).
  rewrite HNN, HNI, HNaN. clear HNN HNI HNaN.
  assert (HQ : forall p, In p Q ->
            0 <= snd p /\ nth (Z.to_nat (snd p)) items 0%float = fst p /\ is_nan (fst p) = false).
  { intros [x i] Hp. unfold Q in Hp. apply filter_In in Hp as [Hp Hx].
    apply combine_seq_in in Hp as (H1 & _ & H3). rewrite Nat.sub_0_r in H3.
    simpl in *. repeat split; auto. now destruct (is_nan x). }
  assert (HQ' : forall p, In p Q' ->
            0 <= snd p /\ nth (Z.to_nat (snd p)) items 0%float = fst p /\ is_nan (fst p) = true).
  { intros [x i] Hp. unfold Q' in Hp. apply filter_In in Hp as [Hp Hx].
    apply combine_seq_in in Hp as (H1 & _ & H3). rewrite Nat.sub_0_r in H3.
    simpl in *. repeat split; auto. }
  assert (HSS' : StronglySorted (fun p q : float * Z => snd p < snd q) Q')
    by (apply SS_filter, combine_seq_SS).
  destruct (argsort_ok (map fst Q)) as [HAp HAs].
  rewrite length_map in HAp.
  set (A := NpSort.argsort (map fst Q)) in *.
  assert (HAr : forall x, In x A -> 0 <= x /\ (Z.to_nat x < List.length Q)%nat).
  { intros x Hx. apply (Permutation_in _ HAp) in Hx.
    apply in_map_iff in Hx as (j & <- & Hj). apply in_seq in Hj. lia. }
  assert (HQnth : forall x, In x A ->
            In (nth (Z.to_nat x) Q (0%float, 0)) Q /\
            nth (Z.to_nat x) (map snd Q) 0 = snd (nth (Z.to_nat x) Q (0%float, 0)) /\
            nth (Z.to_nat x) (map fst Q) 0%float = fst (nth (Z.to_nat x) Q (0%float, 0))).
  { intros x Hx. destruct (HAr x Hx) as [_ Hx']. split; [apply nth_In; exact Hx'|].
    split; apply nth_map_d; reflexivity. }
  rewrite !map_app. split.
  - transitivity (map Z.to_nat (map snd Q) ++ map Z.to_nat (map snd Q')).
    + apply Permutation_app_tail. apply Permutation_map.
      transitivity (map (fun k => nth (Z.to_nat k) (map snd Q) 0) (map Z.of_nat (seq 0 (List.length Q)))).
      * apply Permutation_map. exact HAp.
      * rewrite map_map.
        erewrite map_ext by (intros a; rewrite Nat2Z.id; reflexivity).
        rewrite <- (length_map snd Q). rewrite map_nth_seq. reflexivity.
    + rewrite <- !map_app.
      transitivity (map Z.to_nat (map snd (combine items idx))).
      * apply Permutation_map. apply Permutation_map.
        apply (filter_partition (fun p => is_nan (fst p))).
      * rewrite snd_combine by exact Hlen. unfold idx. rewrite map_map.
        erewrite map_ext by (intros a; rewrite Nat2Z.id; reflexivity).
        rewrite map_id. reflexivity.
  - rewrite !map_map. apply FOP_app.
    + apply (FOP_map_in (fun i j => fle (NpSort.val (map fst Q) i) (NpSort.val (map fst Q) j)));
        [|exact HAs].
      intros x y Hx Hy H1. unfold fle, NpSort.val in H1.
      destruct (HQnth x Hx) as (Hpx & Ex1 & Ex2), (HQnth y Hy) as (Hpy & Ey1 & Ey2).
      rewrite Ex2, Ey2 in H1. rewrite Ex1, Ey1.
      destruct (HQ _ Hpx) as (_ & Hxv & _), (HQ _ Hpy) as (_ & Hyv & _).
      unfold in_order. rewrite Hxv, Hyv. exact H1.
    + apply (FOP_map_in (fun p q : float * Z => snd p < snd q)); [|apply FOP_SS, HSS'].
      intros p q Hp Hq Hpq.
      destruct (HQ' q Hq) as (_ & Hqv & Hqn).
      unfold in_order. rewrite Hqv. apply less_nan_l. exact Hqn.
    + intros y z Hy Hz.
      apply in_map_iff in Hz as (q & <- & Hq).
      destruct (HQ' q Hq) as (_ & Hqv & Hqn).
      unfold in_order. rewrite Hqv. apply less_nan_l. exact Hqn.
Qed.

Lemma sort_values_total_ok : forall rows, ascending rows (sort_values_total rows).
Proof.
  intros rows.
  destruct (nargsort_ok (map Out.total rows)) as [Hp Hs].
  rewrite length_map in Hp.
  exists (map Z.to_nat (NpSort.nargsort (map Out.total rows))).
  split; [exact Hp|]. split; [|exact Hs].
  unfold sort_values_total. rewrite map_map. reflexivity.
Qed.



(** ** Smart paste *)

Lemma key_ltb_trans : forall k1 k2 k3,
  key_ltb k1 k2 = true -> key_ltb k2 k3 = true -> key_ltb k1 k3 = true.
Proof.
  intros [[a1 b1] c1] [[a2 b2] c2] [[a3 b3] c3] H1 H2.
  rewrite !key_ltb_spec in *. lia.
Qed.

Lemma ltb_not_nan : forall a b, (a <? b)%float = true ->
  is_nan a = false /\ is_nan b = false.
Proof.
  intros a b H. rewrite FloatAxioms.ltb_spec in H. rewrite !is_nan_spec.
  unfold SFltb in H. destruct (Prim2SF a), (Prim2SF b); simpl in H;
    try discriminate; auto.
Qed.

Lemma less_ltb : forall a b, is_nan b = false -> NpSort.less a b = (a <? b)%float.
Proof. intros a b Hb. unfold NpSort.less. rewrite Hb. apply orb_false_r. Qed.

Lemma ltb_trans : forall a b c,
  (a <? b)%float = true -> (b <? c)%float = true -> (a <? c)%float = true.
Proof.
  intros a b c H1 H2.
  destruct (ltb_not_nan _ _ H1) as [Ha Hb], (ltb_not_nan _ _ H2) as [_ Hc].
  rewrite <- (less_ltb a c Hc). rewrite <- (less_ltb a b Hb) in H1.
  rewrite <- (less_ltb b c Hc) in H2. rewrite less_key in *.
  eapply key_ltb_trans; eassumption.
Qed.

Lemma FOP_perm_sym : forall {A} (R : A -> A -> Prop) l l',
  (forall x y, R x y -> R y x) -> Permutation l l' ->
  ForallOrdPairs R l -> ForallOrdPairs R l'.
Proof.
  intros A R l l' Hsym Hp. induction Hp as [|x l l' Hp IH|x y l|l l' l'' H1 IH1 H2 IH2];
    intros H; auto.
  - inversion H; subst. constructor; auto.
    rewrite Forall_forall in *. intros z Hz. apply H2. now apply (Permutation_in _ (Permutation_sym Hp)).
  - inversion H as [|? ? Hy Hxl]; subst. inversion Hxl as [|? ? Hx Hl]; subst.
    inversion Hy; subst.
    constructor; [constructor; auto|constructor; auto].
Qed.

Lemma FOP_firstn : forall {A} (R : A -> A -> Prop) n l,
  ForallOrdPairs R l -> ForallOrdPairs R (firstn n l).
Proof.
  intros A R n. induction n as [|n IH]; intros [|x l] H; simpl; try constructor.
  - inversion H; subst. rewrite Forall_forall in *. intros y Hy.
    apply H2. rewrite <- (firstn_skipn n l). apply in_or_app. auto.
  - inversion H; subst. auto.
Qed.

Lemma in_firstn : forall {A} n (l : list A) x, In x (firstn n l) -> In x l.
Proof. intros A n l x H. rewrite <- (firstn_skipn n l). apply in_or_app. auto. Qed.

Module SmartPasteFacts.
Import SmartPaste.

Definition desc (a b : float) : Prop := (a <? b)%float = false.

Lemma insert_desc_perm : forall x l, Permutation (insert_desc x l) (x :: l).
Proof.
  intros x l. induction l as [|e l IH]; simpl; auto.
  destruct (e <? x)%float; auto.
  rewrite IH. apply perm_swap.
Qed.

Lemma insert_desc_sorted : forall x l,
  ForallOrdPairs desc l -> ForallOrdPairs desc (insert_desc x l).
Proof.
  intros x l. induction l as [|e l IH]; intros H; simpl.
  - repeat constructor.
  - inversion H as [|? ? He Hl]; subst.
    destruct (e <? x)%float eqn:E.
    + constructor; [|exact H]. constructor.
      * unfold desc. apply ltb_asym. exact E.
      * rewrite Forall_forall in *. intros y Hy. unfold desc.
        destruct (x <? y)%float eqn:Exy; auto.
        pose proof (ltb_trans _ _ _ E Exy). specialize (He y Hy).
        unfold desc in He. congruence.
    + constructor; auto.
      rewrite Forall_forall in *. intros y Hy.
      apply (Permutation_in _ (insert_desc_perm x l)) in Hy.
      destruct Hy as [<-|Hy]; auto.
Qed.

Lemma sorted_desc_ok : forall l acc,
  ForallOrdPairs desc acc ->
  Permutation (fold_left (fun acc x => insert_desc x acc) l acc) (acc ++ l) /\
  ForallOrdPairs desc (fold_left (fun acc x => insert_desc x acc) l acc).
Proof.
  intros l. induction l as [|x l IH]; intros acc H; simpl.
  - rewrite app_nil_r. auto.
  - destruct (IH (insert_desc x acc)) as [Hp Hs]; [apply insert_desc_sorted; exact H|].
    split; auto. rewrite Hp, insert_desc_perm.
    rewrite <- Permutation_middle. reflexivity.
Qed.

Definition distinct (a b : float) : Prop := (a =? b)%float = false.

Lemma collect_distinct : forall amounts vals,
  ForallOrdPairs distinct vals -> ForallOrdPairs distinct (collect amounts vals).
Proof.
  intros amounts. induction amounts as [|a amounts IH]; intros vals H; simpl; auto.
  destruct (py_float (remove_commas a)) as [v|e]; apply IH; auto.
  destruct (existsb (fun e => (e =? v)%float) vals) eqn:E; auto.
  apply FOP_app; auto.
  - repeat constructor.
  - intros x y Hx [<-|[]]. unfold distinct.
    destruct (x =? v)%float eqn:Exy; auto.
    assert (existsb (fun e => (e =? v)%float) vals = true)
      by (apply existsb_exists; eauto). congruence.
Qed.

Lemma collect_sound : forall amounts vals v, In v (collect amounts vals) ->
  In v vals \/ exists tok, In tok amounts /\ py_float (remove_commas tok) = Ok v.
Proof.
  intros amounts. induction amounts as [|a amounts IH]; intros vals v H; simpl in *; auto.
  destruct (py_float (remove_commas a)) as [w|e] eqn:Ea.
  - apply IH in H as [H|(tok & Ht & Hv)]; [|right; eauto].
    destruct (existsb _ vals); auto.
    apply in_app_or in H as [H|[<-|[]]]; auto. right; eauto.
  - apply IH in H as [H|(tok & Ht & Hv)]; eauto.
Qed.

Lemma collect_keeps : forall amounts vals e, In e vals -> In e (collect amounts vals).
Proof.
  intros amounts. induction amounts as [|a amounts IH]; intros vals e H; simpl; auto.
  destruct (py_float (remove_commas a)); apply IH; auto.
  destruct (existsb _ vals); auto. apply in_or_app. auto.
Qed.

Lemma collect_complete : forall amounts vals tok v,
  In tok amounts -> py_float (remove_commas tok) = Ok v ->
  exists e, In e (collect amounts vals) /\ (e = v \/ (e =? v)%float = true).
Proof.
  intros amounts. induction amounts as [|a amounts IH]; intros vals tok v Ht Hv;
    simpl in *; [contradiction|].
  destruct Ht as [<-|Ht]; [|destruct (py_float (remove_commas a)); eauto].
  rewrite Hv.
  destruct (existsb (fun e => (e =? v)%float) vals) eqn:E.
  - apply existsb_exists in E as (e & He & Ee).
    exists e. split; auto. apply collect_keeps. exact He.
  - exists v. split; auto. apply collect_keeps. apply in_or_app. simpl. auto.
Qed.

End SmartPasteFacts.



(* ------------------------------------------------------------------ *)
(** * Further properties of the app *)

Ltac zlia := Z.div_mod_to_equations; lia.

(** ** Number formatting and the smart paste *)

Section Formatting.
Import SmartPaste.

Lemma dec_rev_digits : forall f n, 0 <= n -> all_digits (Fmt.dec_rev f n).
Proof.
  unfold all_digits. induction f as [|f IH]; intros n Hn; cbn [Fmt.dec_rev]; constructor.
  - unfold is_digit. apply andb_true_iff. split; apply Z.leb_le; zlia.
  - destruct (n <? 10); [constructor|]. apply IH. zlia.
Qed.

Lemma dec_digits : forall n, 0 <= n -> all_digits (Fmt.dec n).
Proof.
  intros n Hn. unfold Fmt.dec, all_digits. apply Forall_rev. apply dec_rev_digits. exact Hn.
Qed.

Lemma dec_nonempty : forall n, Fmt.dec n <> [].
Proof.
  intros n. unfold Fmt.dec. simpl. intros H.
  apply (f_equal (@List.length Z)) in H. rewrite length_app in H. simpl in H. lia.
Qed.

Lemma digits_value_rev : forall r,
  digits_value (rev r) = fold_right (fun d acc => acc * 10 + (d - 48)) 0 r.
Proof.
  intros r. unfold digits_value. induction r as [|d r IH]; [reflexivity|].
  simpl. rewrite fold_left_app. simpl. rewrite IH. reflexivity.
Qed.

Lemma dec_rev_value : forall f n, 0 <= n < 2 ^ Z.of_nat f ->
  fold_right (fun d acc => acc * 10 + (d - 48)) 0 (Fmt.dec_rev f n) = n.
Proof.
  induction f as [|f IH]; intros n Hn.
  - simpl in *. lia.
  - cbn [Fmt.dec_rev]. destruct (Z.ltb_spec n 10) as [H|H]; cbn [fold_right]; [zlia|].
    rewrite IH; [zlia|].
    rewrite Nat2Z.inj_succ, Z.pow_succ_r in Hn by lia. zlia.
Qed.

Lemma dec_value : forall n, 0 <= n -> digits_value (Fmt.dec n) = n.
Proof.
  intros n Hn. unfold Fmt.dec. rewrite digits_value_rev. apply dec_rev_value.
  split; [exact Hn|].
  destruct (Z.eq_dec n 0) as [->|Hn0]; [simpl; lia|].
  destruct (Z.log2_spec n ltac:(lia)) as [_ H].
  rewrite Nat2Z.inj_succ, Z2Nat.id by (apply Z.log2_nonneg). rewrite <- Z.add_1_r. exact H.
Qed.

Lemma digits_upto_prefix : forall n h rest, all_digits h -> (List.length h <= n)%nat ->
  (match rest with c :: _ => is_digit c = false | [] => True end) ->
  digits_upto n (h ++ rest) = (h, rest).
Proof.
  induction n as [|n IH]; intros h rest Hh Hl Hr.
  - destruct h; [|simpl in Hl; lia]. destruct rest; reflexivity.
  - destruct h as [|c h].
    + destruct rest as [|c rest]; [reflexivity|]. simpl. rewrite Hr. reflexivity.
    + inversion Hh; subst. simpl. rewrite H1. rewrite IH; auto. simpl in Hl. lia.
Qed.

Lemma chunks3_groups : forall r, all_digits r -> (List.length r mod 3 = 0)%nat ->
  comma_groups (Fmt.chunks3 r) = (Fmt.chunks3 r, []).
Proof.
  fix IH 1. intros r Hr Hl.
  destruct r as [|a [|b [|c r']]].
  - reflexivity.
  - simpl in Hl. discriminate.
  - simpl in Hl. discriminate.
  - inversion Hr as [|? ? Ha Hr1]; inversion Hr1 as [|? ? Hb Hr2];
      inversion Hr2 as [|? ? Hc Hr3]; subst.
    simpl. rewrite Ha, Hb, Hc. simpl.
    rewrite (IH r' Hr3); [reflexivity|].
    cbn [List.length] in Hl. rewrite <- (Nat.Div0.mod_add (List.length r') 1 3).
    replace (List.length r' + 1 * 3)%nat with (S (S (S (List.length r')))) by lia.
    exact Hl.
Qed.

Lemma remove_commas_chunks3 : forall r, all_digits r ->
  remove_commas (Fmt.chunks3 r) = r.
Proof.
  fix IH 1. intros r Hr.
  destruct r as [|a [|b [|c r']]].
  - reflexivity.
  - inversion Hr as [|? ? Ha _]; subst. unfold is_digit in Ha. simpl.
    destruct (Z.eqb_spec a 44); [apply andb_true_iff in Ha; destruct Ha as [Ha _];
      apply Z.leb_le in Ha; lia|]. reflexivity.
  - inversion Hr as [|? ? Ha Hr1]; inversion Hr1 as [|? ? Hb Hr2]; subst.
    unfold is_digit in *. apply andb_true_iff in Ha, Hb. simpl.
    destruct (Z.eqb_spec a 44); [destruct Ha as [Ha _]; apply Z.leb_le in Ha; lia|].
    destruct (Z.eqb_spec b 44); [destruct Hb as [Hb _]; apply Z.leb_le in Hb; lia|].
    reflexivity.
  - inversion Hr as [|? ? Ha Hr1]; inversion Hr1 as [|? ? Hb Hr2];
      inversion Hr2 as [|? ? Hc Hr3]; subst.
    unfold is_digit in Ha, Hb, Hc. apply andb_true_iff in Ha, Hb, Hc.
    unfold remove_commas. simpl.
    destruct (Z.eqb_spec a 44); [destruct Ha as [Ha _]; apply Z.leb_le in Ha; lia|].
    destruct (Z.eqb_spec b 44); [destruct Hb as [Hb _]; apply Z.leb_le in Hb; lia|].
    destruct (Z.eqb_spec c 44); [destruct Hc as [Hc _]; apply Z.leb_le in Hc; lia|].
    simpl. fold (remove_commas (Fmt.chunks3 r')). rewrite (IH r' Hr3). reflexivity.
Qed.

Lemma remove_commas_digits : forall l, all_digits l -> remove_commas l = l.
Proof.
  induction l as [|c l IH]; intros H; [reflexivity|].
  inversion H; subst. unfold is_digit in H2. apply andb_true_iff in H2 as [H2 _].
  apply Z.leb_le in H2. unfold remove_commas. simpl.
  destruct (Z.eqb_spec c 44); [lia|]. simpl. f_equal. apply IH. exact H3.
Qed.

Lemma digits_all_digits : forall l, all_digits l -> digits_all l = (l, []).
Proof.
  induction l as [|c l IH]; intros H; [reflexivity|].
  inversion H; subst. simpl. rewrite H2, IH by exact H3. reflexivity.
Qed.

(** The grouped digits of [n >= 0] are a token of the pattern, and the
    whole of it. *)
Lemma group3_match : forall ds, all_digits ds -> ds <> [] ->
  match_A (Fmt.group3 ds) = Some (Fmt.group3 ds, []) /\
  remove_commas (Fmt.group3 ds) = ds.
Proof.
  intros ds Hd Hne. unfold Fmt.group3.
  set (L := List.length ds).
  set (h := (L - 3 * ((L - 1) / 3))%nat).
  assert (HL : (1 <= L)%nat) by (destruct ds; [congruence|simpl in L; unfold L; simpl; lia]).
  assert (Hh : (1 <= h <= 3)%nat).
  { unfold h. pose proof (Nat.div_mod (L - 1) 3 ltac:(lia)).
    pose proof (Nat.mod_upper_bound (L - 1) 3 ltac:(lia)). lia. }
  assert (Hr : (List.length (skipn h ds) mod 3 = 0)%nat).
  { rewrite length_skipn. fold L. unfold h.
    replace (L - (L - 3 * ((L - 1) / 3)))%nat with (((L - 1) / 3) * 3)%nat.
    - apply Nat.Div0.mod_mul.
    - pose proof (Nat.div_mod (L - 1) 3 ltac:(lia)).
      pose proof (Nat.mod_upper_bound (L - 1) 3 ltac:(lia)). lia. }
  assert (Hfd : all_digits (firstn h ds)).
  { unfold all_digits in *. rewrite Forall_forall in *. intros x Hx.
    apply Hd. apply in_firstn in Hx. exact Hx. }
  assert (Hsd : all_digits (skipn h ds)).
  { unfold all_digits in *. rewrite Forall_forall in *. intros x Hx.
    apply Hd. rewrite <- (firstn_skipn h ds). apply in_or_app. auto. }
  assert (Hfl : List.length (firstn h ds) = h) by (rewrite length_firstn; unfold L in *; lia).
  split.
  - assert (Hup : digits_upto 3 (firstn h ds ++ Fmt.chunks3 (skipn h ds))
                  = (firstn h ds, Fmt.chunks3 (skipn h ds))).
    { apply digits_upto_prefix; [exact Hfd | lia |].
      destruct (skipn h ds) as [|a [|b [|c r']]]; simpl in Hr |- *; auto; discriminate. }
    destruct (firstn h ds) as [|c0 f0] eqn:Ef; [simpl in Hfl; lia|].
    inversion Hfd as [|? ? Hc0 _]; subst.
    unfold match_A.
    change ((c0 :: f0) ++ Fmt.chunks3 (skipn h ds)) with (c0 :: (f0 ++ Fmt.chunks3 (skipn h ds))) in *.
    lazy beta iota. rewrite Hc0, Hup. lazy beta iota.
    rewrite chunks3_groups by auto. lazy beta iota. cbn [frac].
    rewrite !app_nil_r. reflexivity.
  - unfold remove_commas. rewrite filter_app. fold (remove_commas (firstn h ds)).
    fold (remove_commas (Fmt.chunks3 (skipn h ds))).
    rewrite remove_commas_digits, remove_commas_chunks3 by auto.
    apply firstn_skipn.
Qed.

Lemma findall_no_dollar : forall f s, ~ In 36 s -> findall_from f s = [].
Proof.
  induction f as [|f IH]; intros s Hs; [reflexivity|].
  destruct s as [|c s]; [reflexivity|]. simpl.
  destruct (Z.eqb_spec c 36) as [->|Hc]; [exfalso; apply Hs; left; reflexivity|].
  apply IH. intros H. apply Hs. right. exact H.
Qed.

(** [$] followed by a code point that is neither a digit nor a space
    starts no token, and nothing after it can. *)
Lemma findall_dollar_blocked : forall f c s,
  is_digit c = false -> is_space c = false -> c <> 36 -> ~ In 36 s ->
  findall_from f (36 :: c :: s) = [].
Proof.
  intros [|f] c s Hd Hs Hc Hn; [reflexivity|].
  simpl. rewrite Hs. unfold match_group, match_A, match_B. rewrite Hd.
  apply findall_no_dollar. intros [H|H]; [lia|]. exact (Hn H).
Qed.

Lemma extract_nothing : forall paste, findall paste = [] -> extract paste = [].
Proof. intros paste H. unfold extract. rewrite H. reflexivity. Qed.

Lemma digit_not_dollar : forall l, all_digits l -> ~ In 36 l.
Proof.
  intros l H Hin. unfold all_digits in H. rewrite Forall_forall in H.
  specialize (H 36 Hin). discriminate.
Qed.

Lemma group3_no_dollar : forall ds, all_digits ds -> ~ In 36 (Fmt.group3 ds).
Proof.
  intros ds Hd Hin. unfold Fmt.group3 in Hin. apply in_app_or in Hin as [Hin|Hin].
  - apply in_firstn in Hin. exact (digit_not_dollar ds Hd Hin).
  - assert (Hs : all_digits (skipn ((List.length ds - 3 * ((List.length ds - 1) / 3)))%nat ds)).
    { unfold all_digits in *. rewrite Forall_forall in *. intros x Hx.
      apply Hd. rewrite <- (firstn_skipn ((List.length ds - 3 * ((List.length ds - 1) / 3)))%nat ds).
      apply in_or_app. auto. }
    revert Hs Hin. generalize (skipn ((List.length ds - 3 * ((List.length ds - 1) / 3)))%nat ds).
    fix IH 1. intros r Hs Hin.
    destruct r as [|a [|b [|c r']]]; simpl in Hin;
      try (exact (digit_not_dollar _ Hs Hin)).
    destruct Hin as [H|Hin]; [discriminate|].
    inversion Hs as [|? ? _ Hs1]; inversion Hs1 as [|? ? _ Hs2];
      inversion Hs2 as [|? ? _ Hs3]; subst.
    destruct Hin as [H|[H|[H|Hin]]];
      try (apply (digit_not_dollar _ Hs); simpl; tauto).
    exact (IH r' Hs3 Hin).
Qed.

Lemma point0_grouped : forall n, 0 <= n -> Fmt.point 0 true n = Fmt.group3 (Fmt.dec n).
Proof.
  intros n Hn. unfold Fmt.point, Fmt.pad0.
  assert (Hl : (1 - List.length (Fmt.dec n) = 0)%nat).
  { pose proof (dec_nonempty n). destruct (Fmt.dec n); [congruence|simpl; lia]. }
  rewrite Hl. simpl repeat. simpl app. rewrite Nat.sub_0_r, firstn_all, app_nil_r.
  reflexivity.
Qed.

Lemma round_half_even_nonneg : forall m k, 0 <= round_half_even m k.
Proof.
  intros m k. unfold round_half_even.
  assert (0 <= Z.shiftr (Zpos m) k) by (apply Z.shiftr_nonneg; lia).
  destruct (_ <? _); [lia|]. destruct (_ <? _); [lia|]. destruct (Z.even _); lia.
Qed.

Lemma fixed_digits_nonneg : forall k m e, 0 <= Fmt.fixed_digits k m e.
Proof.
  intros k m e. unfold Fmt.fixed_digits. destruct (0 <=? e).
  - apply Z.shiftl_nonneg. pose proof (Z.pow_nonneg 10 (Z.of_nat k)). nia.
  - apply round_half_even_nonneg.
Qed.

(** Pasting [$] and the grouped digits of [n] gives back [float(n)]. *)
Lemma extract_grouped : forall n, 0 <= n ->
  extract (36 :: Fmt.group3 (Fmt.dec n)) = [dec_to_float n 0].
Proof.
  intros n Hn.
  destruct (group3_match (Fmt.dec n) (dec_digits n Hn) (dec_nonempty n)) as [HA HR].
  assert (Hhd : match Fmt.group3 (Fmt.dec n) with c :: _ => is_digit c = true | [] => False end).
  { unfold match_A in HA. destruct (Fmt.group3 (Fmt.dec n)) as [|c g]; [discriminate|].
    destruct (is_digit c); [reflexivity|discriminate]. }
  unfold extract, findall. simpl List.length.
  replace (findall_from _ (36 :: Fmt.group3 (Fmt.dec n))) with [Fmt.group3 (Fmt.dec n)].
  - simpl. rewrite HR.
    unfold py_float. rewrite digits_all_digits by (apply dec_digits; exact Hn).
    destruct (Fmt.dec n) eqn:Ed; [exfalso; exact (dec_nonempty n Ed)|].
    simpl. rewrite <- Ed, dec_value by exact Hn. reflexivity.
  - simpl. destruct (Fmt.group3 (Fmt.dec n)) as [|c g] eqn:Eg; [contradiction|].
    assert (Hs : is_space c = false).
    { unfold is_digit in Hhd. apply andb_true_iff in Hhd as [H1 H2].
      apply Z.leb_le in H1, H2. unfold is_space.
      repeat (apply orb_false_iff; split); try (apply andb_false_iff);
        try (apply Z.eqb_neq; lia);
        first [ left; apply Z.leb_gt; lia | right; apply Z.leb_gt; lia ]. }
    cbn [skip_space]. rewrite Hs. unfold match_group. rewrite HA. reflexivity.
Qed.

End Formatting.

(** ** Float classes *)

Lemma Prim2SF_nan_iff : forall x, Prim2SF x = S754_nan <-> is_nan x = true.
Proof.
  intros x. unfold Prim2SF at 1.
  destruct (is_nan x); [tauto|].
  split; [|discriminate].
  destruct (is_zero x); [discriminate|].
  destruct (is_infinity x); [discriminate|].
  destruct (Z.frexp x) as [r exp].
  destruct (shr_fexp _ _ _ _ _) as [sh e'].
  destruct (shr_m sh); discriminate.
Qed.

Lemma Prim2SF_zero : Prim2SF 0 = S754_zero false.
Proof. vm_compute. reflexivity. Qed.

Lemma Prim2SF_infinity : Prim2SF infinity = S754_infinity false.
Proof. vm_compute. reflexivity. Qed.

Lemma is_infinity_iff : forall x,
  is_infinity x = true <-> exists s, Prim2SF x = S754_infinity s.
Proof.
  intros x. unfold is_infinity. rewrite FloatAxioms.eqb_spec, FloatAxioms.abs_spec,
    Prim2SF_infinity.
  destruct (Prim2SF x) as [s|s| |s m e]; simpl; split; intros H;
    try discriminate; try (destruct H; discriminate); eauto.
Qed.

Lemma SFcompare_finite_refl : forall s m e,
  SFcompare (S754_finite s m e) (S754_finite s m e) = Some Eq.
Proof.
  intros [|] m e; simpl; rewrite Z.compare_refl, Pos.compare_cont_refl; reflexivity.
Qed.

Lemma is_nan_finite : forall x s m e, Prim2SF x = S754_finite s m e -> is_nan x = false.
Proof.
  intros x s m e H. unfold is_nan. rewrite FloatAxioms.eqb_spec, H.
  unfold SFeqb. rewrite SFcompare_finite_refl. reflexivity.
Qed.

Lemma is_finite_finite : forall x s m e, Prim2SF x = S754_finite s m e -> is_finite x = true.
Proof.
  intros x s m e H. unfold is_finite. rewrite (is_nan_finite x s m e H).
  destruct (is_infinity x) eqn:Ei; [|reflexivity].
  apply is_infinity_iff in Ei as [s' Hs]. congruence.
Qed.

Lemma neg_zero_SF : Prim2SF (-0)%float = S754_zero true.
Proof. vm_compute. reflexivity. Qed.

(** A float [x] with [0 <= x], other than [-0.0], that is finite: the
    positive zero or a positive finite number. *)
Lemma nonneg_cases : forall x,
  (0 <=? x)%float = true -> x <> (-0)%float -> is_finite x = true ->
  Prim2SF x = S754_zero false \/ exists m e, Prim2SF x = S754_finite false m e.
Proof.
  intros x Hle Hz Hf.
  rewrite FloatAxioms.leb_spec, Prim2SF_zero in Hle.
  destruct (Prim2SF x) as [[|]|s| |[|] m e] eqn:E; simpl in Hle; try discriminate; auto.
  - exfalso. apply Hz. rewrite <- (FloatAxioms.SF2Prim_Prim2SF x), E. vm_compute. reflexivity.
  - exfalso. unfold is_finite in Hf.
    assert (Hi : is_infinity x = true) by (apply is_infinity_iff; eauto).
    rewrite Hi, orb_true_r in Hf. discriminate.
  - right. eauto.
Qed.

Lemma nonneg_intro : forall x,
  (Prim2SF x = S754_zero false \/ exists m e, Prim2SF x = S754_finite false m e) ->
  (0 <=? x)%float = true /\ x <> (-0)%float /\ is_finite x = true.
Proof.
  intros x [H|(m & e & H)].
  - rewrite <- (FloatAxioms.SF2Prim_Prim2SF x), H.
    split; [vm_compute; reflexivity|]. split; [|vm_compute; reflexivity].
    intros E. apply (f_equal Prim2SF) in E. vm_compute in E. discriminate.
  - split; [rewrite FloatAxioms.leb_spec, Prim2SF_zero, H; reflexivity|].
    split; [|exact (is_finite_finite x false m e H)].
    intros ->. rewrite neg_zero_SF in H. discriminate.
Qed.

(** X1 (usd, smart paste): a figure printed by [usd] and pasted back is
    read as the whole-dollar amount it shows when the float is a
    non-negative finite number other than [-0.0]; for NaN, infinities,
    [-0.0] and negatives ([$-...], [$nan], [$inf]) the paste finds no
    amount. *)
Theorem usd_pasted_back : forall x,
  ((0 <=? x)%float = true -> x <> (-0)%float -> is_finite x = true ->
     SmartPaste.extract (usd x) = [SmartPaste.dec_to_float (usd_amount x) 0]) /\
  (~ ((0 <=? x)%float = true /\ x <> (-0)%float /\ is_finite x = true) ->
     SmartPaste.extract (usd x) = []).
Proof.
  intros x. split.
  - intros H1 H2 H3. destruct (nonneg_cases x H1 H2 H3) as [E|(m & e & E)];
      unfold usd, usd_amount, Fmt.fmt_f; rewrite E.
    + vm_compute. reflexivity.
    + simpl app. rewrite point0_grouped by apply fixed_digits_nonneg.
      apply extract_grouped. apply fixed_digits_nonneg.
  - intros Hn. apply extract_nothing. unfold usd, Fmt.fmt_f, SmartPaste.findall.
    destruct (Prim2SF x) as [[|]|[|]| |[|] m e] eqn:E.
    + vm_compute. reflexivity.
    + exfalso. apply Hn, nonneg_intro. auto.
    + vm_compute. reflexivity.
    + vm_compute. reflexivity.
    + vm_compute. reflexivity.
    + simpl app. rewrite point0_grouped by apply fixed_digits_nonneg.
      apply findall_dollar_blocked; try reflexivity; try discriminate.
      apply group3_no_dollar, dec_digits, fixed_digits_nonneg.
    + exfalso. apply Hn, nonneg_intro. eauto.
Qed.

Lemma usd_pasted_back_witness :
  SmartPaste.extract (usd 1234.5) = [SmartPaste.dec_to_float (usd_amount 1234.5) 0] /\
  usd_amount 1234.5 = 1234.
Proof.
  split; [|vm_compute; reflexivity].
  apply (proj1 (usd_pasted_back 1234.5)).
  - vm_compute. reflexivity.
  - intros E. apply (f_equal Prim2SF) in E. vm_compute in E. discriminate.
  - vm_compute. reflexivity.
Defined.

Lemma cost_breakdown_small_ok :
  forall nights people use_ferry extra rd rp ln lf gas mpg pf ft,
  0 <= nights <= small_bound -> 0 <= people <= small_bound ->
  exists b, cost_breakdown nights people use_ferry extra rd rp ln lf gas mpg pf ft = Ok b /\
    fuel_cost b = (if gt0 mpg then (trip_miles use_ferry extra / mpg * gas)%float else 0%float).
Proof.
  intros until ft. intros Hn Hp. unfold cost_breakdown, bind.
  destruct (mul_fi_small rd (nights + 1) ltac:(unfold small_bound in *; lia)) as [rb Hrb].
  rewrite Hrb, div_ff_100.
  destruct (gt0 mpg) eqn:Hg.
  - unfold div_ff at 1. rewrite (gt0_not_zero _ Hg).
    destruct (mul_fi_small ln nights ltac:(unfold small_bound in *; lia)) as [lnn Hl].
    rewrite Hl.
    destruct (Z.eqb_spec people 0) as [->|Hp0]; simpl negb; cbv iota.
    + eexists. split; reflexivity.
    + destruct (div_fi_small ((rb + rb * (rp / 100) + trip_miles use_ferry extra / mpg * gas
        + (lnn + lf) + pf + (if use_ferry then ft else 0))%float) people
        ltac:(unfold small_bound in *; lia)) as [pp Hpp].
      rewrite Hpp. eexists. split; reflexivity.
  - destruct (mul_fi_small ln nights ltac:(unfold small_bound in *; lia)) as [lnn Hl].
    rewrite Hl.
    destruct (Z.eqb_spec people 0) as [->|Hp0]; simpl negb; cbv iota.
    + eexists. split; reflexivity.
    + destruct (div_fi_small ((rb + rb * (rp / 100) + 0
        + (lnn + lf) + pf + (if use_ferry then ft else 0))%float) people
        ltac:(unfold small_bound in *; lia)) as [pp Hpp].
      rewrite Hpp. eexists. split; reflexivity.
Qed.

(** X2 (planner tab): with [0 <= nights, people <= 1000], the planner
    raises ZeroDivisionError when [mpg] is zero (the "Fuel needed" metric
    divides before [cost_breakdown]'s guard); otherwise it shows [usd] of
    each breakdown field, and for [mpg > 0] its "Fuel cost" metric equals the
    fuel line of the breakdown. *)
Theorem planner_outcome :
  forall nights people use_ferry extra rd rp ln lf gas mpg pf ft,
  0 <= nights <= small_bound -> 0 <= people <= small_bound ->
  ((mpg =? 0)%float = true ->
     planner nights people use_ferry extra rd rp ln lf gas mpg pf ft = Raise ZeroDivisionError) /\
  ((mpg =? 0)%float = false ->
     exists v b,
       planner nights people use_ferry extra rd rp ln lf gas mpg pf ft = Ok v /\
       cost_breakdown nights people use_ferry extra rd rp ln lf gas mpg pf ft = Ok b /\
       breakdown_lines v = [usd (rental_base b); usd (rental_fees b); usd (fuel_cost b);
                            usd (lodging_total b); usd (park_fee b); usd (ferry_total b)] /\
       total_line v = usd (total b) /\ per_person_line v = usd (per_person b) /\
       (gt0 mpg = true -> fuel_cost_metric v = usd (fuel_cost b))).
Proof.
  intros until ft. intros Hn Hp. split.
  - intros Hz. unfold planner, div_ff. rewrite Hz. reflexivity.
  - intros Hz. destruct (cost_breakdown_small_ok nights people use_ferry extra rd rp ln lf
      gas mpg pf ft Hn Hp) as [b [Hb Hf]].
    unfold planner, div_ff. rewrite Hz. simpl bind. rewrite Hb. simpl.
    do 2 eexists. split; [reflexivity|]. split; [reflexivity|].
    repeat split. intros Hg. rewrite Hf, Hg. reflexivity.
Qed.

Lemma planner_outcome_witness :
  planner 2 2 true 40 55 22 150 60 4.5 0 30 50 = Raise ZeroDivisionError /\
  exists v b,
    planner 2 2 true 40 55 22 150 60 4.5 30 30 50 = Ok v /\
    cost_breakdown 2 2 true 40 55 22 150 60 4.5 30 30 50 = Ok b /\
    breakdown_lines v = [usd (rental_base b); usd (rental_fees b); usd (fuel_cost b);
                         usd (lodging_total b); usd (park_fee b); usd (ferry_total b)] /\
    total_line v = usd (total b) /\ per_person_line v = usd (per_person b) /\
    (gt0 30 = true -> fuel_cost_metric v = usd (fuel_cost b)).
Proof.
  split.
  - apply (proj1 (planner_outcome 2 2 true 40 55 22 150 60 4.5 0 30 50
      ltac:(vm_compute; split; discriminate) ltac:(vm_compute; split; discriminate)));
      vm_compute; reflexivity.
  - apply (proj2 (planner_outcome 2 2 true 40 55 22 150 60 4.5 30 30 50
      ltac:(vm_compute; split; discriminate) ltac:(vm_compute; split; discriminate)));
      vm_compute; reflexivity.
Defined.

Module DateFacts.
Import Date.

Import DateCheck.

Lemma cycle_all : forallb (fun a => cycle_block (Z.of_nat a)) (seq 0 147) = true.
Proof. vm_compute. reflexivity. Qed.

Lemma cycle_ok_all : forall r, 0 <= r < 146097 -> cycle_ok r = true.
Proof.
  intros r Hr. pose proof cycle_all as H. rewrite forallb_forall in H.
  specialize (H (Z.to_nat (r / 1000))). unfold cycle_block in H.
  assert (Ha : In (Z.to_nat (r / 1000)) (seq 0 147)) by (apply in_seq; zlia).
  specialize (H Ha). rewrite forallb_forall in H.
  assert (Hb : In (Z.to_nat (r mod 1000)) (seq 0 1000)) by (apply in_seq; zlia).
  specialize (H _ Hb). cbv beta zeta in H.
  rewrite !Z2Nat.id in H by zlia.
  replace (1000 * (r / 1000) + r mod 1000) with r in H by zlia.
  assert (Hlt : (r <? 146097) = true) by (apply Z.ltb_lt; lia).
  rewrite Hlt in H. exact H.
Qed.

Lemma ord2ymd_shift : forall q r, 0 <= r < 146097 ->
  ord2ymd (146097 * q + r + 1) =
  let '(y, m, dd) := ord2ymd (r + 1) in (y + 400 * q, m, dd).
Proof.
  intros q r Hr. unfold ord2ymd.
  replace (146097 * q + r + 1 - 1) with (r + q * DI400Y) by (unfold DI400Y; lia).
  replace (r + 1 - 1) with r by lia.
  rewrite Z.div_add, Z.mod_add by (unfold DI400Y; lia).
  rewrite (Z.div_small r DI400Y), (Z.mod_small r DI400Y) by (unfold DI400Y; lia).
  cbv zeta.
  generalize (r / DI100Y) (r mod DI100Y / DI4Y) ((r mod DI100Y) mod DI4Y / 365)
    (((r mod DI100Y) mod DI4Y) mod 365).
  intros a b c n.
  destruct ((c =? 4) || (a =? 4)); [f_equal; f_equal; lia|].
  match goal with |- context [if ?t then _ else _] => destruct t end;
    f_equal; f_equal; lia.
Qed.

Lemma is_leap_shift : forall y q, is_leap (y + 400 * q) = is_leap y.
Proof.
  intros y q. unfold is_leap.
  replace (y + 400 * q) with (y + (100 * q) * 4) by lia. rewrite Z.mod_add by lia.
  replace (y + 100 * q * 4) with (y + (4 * q) * 100) by lia. rewrite Z.mod_add by lia.
  replace (y + 4 * q * 100) with (y + q * 400) by lia. rewrite Z.mod_add by lia.
  reflexivity.
Qed.

Lemma ymd2ord_shift : forall y m dd q,
  ymd2ord (y + 400 * q) m dd = ymd2ord y m dd + 146097 * q.
Proof.
  intros y m dd q. unfold ymd2ord, days_before_month, days_before_year.
  rewrite is_leap_shift.
  replace (y + 400 * q - 1) with (y - 1 + (100 * q) * 4) at 2 by lia.
  replace (y + 400 * q - 1) with (y - 1 + (4 * q) * 100) at 2 by lia.
  replace (y + 400 * q - 1) with (y - 1 + q * 400) at 2 by lia.
  rewrite !Z.div_add by lia. lia.
Qed.

Lemma days_in_month_shift : forall y m q, days_in_month (y + 400 * q) m = days_in_month y m.
Proof. intros. unfold days_in_month. rewrite is_leap_shift. reflexivity. Qed.

End DateFacts.

Lemma ord2ymd_valid : forall d, 1 <= d <= 3652059 ->
  exists y m dd, Date.ord2ymd d = (y, m, dd) /\
    1 <= y <= 9999 /\ 1 <= m <= 12 /\ 1 <= dd <= Date.days_in_month y m /\
    Date.ymd2ord y m dd = d.
Proof.
  intros d Hd.
  set (q := (d - 1) / 146097). set (r := (d - 1) mod 146097).
  assert (Hr : 0 <= r < 146097) by (unfold r; apply Z.mod_pos_bound; lia).
  assert (Hq : 0 <= q <= 24) by (unfold q; zlia).
  assert (Ed : d = 146097 * q + r + 1) by (unfold q, r; zlia).
  rewrite Ed, (DateFacts.ord2ymd_shift q r Hr).
  pose proof (DateFacts.cycle_ok_all r Hr) as Hc. unfold DateCheck.cycle_ok in Hc.
  destruct (Date.ord2ymd (r + 1)) as [[y m] dd].
  repeat rewrite andb_true_iff in Hc. rewrite !Z.leb_le, Z.eqb_eq in Hc.
  destruct Hc as [[[[[[[H1 H2] H3] H4] H5] H6] H7] H8].
  exists (y + 400 * q), m, dd. split; [reflexivity|].
  rewrite DateFacts.days_in_month_shift, DateFacts.ymd2ord_shift.
  split; [|split; [lia|split; [lia|lia]]].
  destruct (Z.eq_dec q 24) as [->|Hq24]; [|lia].
  assert (r <= 145730) by (unfold r in *; zlia).
  apply Z.leb_le in H. rewrite H in H3. simpl in H3. apply Z.leb_le in H3. lia.
Qed.

(** X3 (dates of the links and the forecast URL): for every ordinal of
    [date.min .. date.max], [ord2ymd] gives a year in [1..9999], a month in
    [1..12] and a day within that month, and [ymd2ord] maps them back to
    the ordinal. *)
Theorem ord2ymd_valid_inverse : forall d, 1 <= d <= 3652059 ->
  exists y m dd, Date.ord2ymd d = (y, m, dd) /\
    1 <= y <= 9999 /\ 1 <= m <= 12 /\ 1 <= dd <= Date.days_in_month y m /\
    Date.ymd2ord y m dd = d.
Proof. exact ord2ymd_valid. Qed.

Lemma ord2ymd_valid_inverse_witness :
  exists y m dd, Date.ord2ymd 739000 = (y, m, dd) /\
    1 <= y <= 9999 /\ 1 <= m <= 12 /\ 1 <= dd <= Date.days_in_month y m /\
    Date.ymd2ord y m dd = 739000.
Proof. apply (ord2ymd_valid_inverse 739000). lia. Defined.

Lemma digits_value_zeros : forall k ds,
  SmartPaste.digits_value (repeat 48 k ++ ds) = SmartPaste.digits_value ds.
Proof.
  intros k ds. unfold SmartPaste.digits_value. rewrite fold_left_app.
  f_equal. induction k as [|k IH]; [reflexivity|]. simpl repeat. simpl fold_left.
  exact IH.
Qed.

Lemma fmt_0d_value : forall w n, 0 <= n -> SmartPaste.digits_value (Fmt.fmt_0d w n) = n.
Proof.
  intros w n Hn. unfold Fmt.fmt_0d.
  destruct (Z.ltb_spec n 0); [lia|].
  unfold Fmt.pad0. rewrite digits_value_zeros. apply dec_value. exact Hn.
Qed.

Lemma fmt_0d_digits : forall w n, 0 <= n -> all_digits (Fmt.fmt_0d w n).
Proof.
  intros w n Hn. unfold Fmt.fmt_0d.
  destruct (Z.ltb_spec n 0); [lia|].
  unfold Fmt.pad0, all_digits. apply Forall_app. split.
  - apply Forall_forall. intros x Hx. apply repeat_spec in Hx. subst. reflexivity.
  - apply dec_digits. exact Hn.
Qed.

Lemma digits_no_dash : forall l, all_digits l -> ~ In 45 l.
Proof.
  intros l H Hin. unfold all_digits in H. rewrite Forall_forall in H.
  specialize (H 45 Hin). discriminate.
Qed.

Lemma split_at_dash : forall A B A' B', ~ In 45 A -> ~ In 45 A' ->
  A ++ 45 :: B = A' ++ 45 :: B' -> A = A' /\ B = B'.
Proof.
  induction A as [|a A IH]; intros B A' B' HA HA' E; destruct A' as [|a' A']; simpl in E.
  - inversion E. auto.
  - inversion E; subst. exfalso. apply HA'. left. reflexivity.
  - inversion E; subst. exfalso. apply HA. left. reflexivity.
  - inversion E; subst.
    destruct (IH B A' B') as [-> ->]; [intros H; apply HA; right; exact H
      | intros H; apply HA'; right; exact H | assumption | auto].
Qed.

(** X4 (dates in the links): two representable dates with the same
    [isoformat()] text are the same date. *)
Theorem isoformat_injective : forall d1 d2,
  1 <= d1 <= 3652059 -> 1 <= d2 <= 3652059 ->
  Date.isoformat d1 = Date.isoformat d2 -> d1 = d2.
Proof.
  intros d1 d2 H1 H2 E.
  destruct (ord2ymd_valid d1 H1) as (y1 & m1 & e1 & O1 & Hy1 & Hm1 & He1 & R1).
  destruct (ord2ymd_valid d2 H2) as (y2 & m2 & e2 & O2 & Hy2 & Hm2 & He2 & R2).
  unfold Date.isoformat in E. rewrite O1, O2 in E. simpl app in E.
  assert (ND : forall w n, 0 <= n -> ~ In 45 (Fmt.fmt_0d w n))
    by (intros w n Hn; apply digits_no_dash, fmt_0d_digits, Hn).
  apply split_at_dash in E as [Ey E]; [|apply ND; lia|apply ND; lia].
  apply split_at_dash in E as [Em Ee]; [|apply ND; lia|apply ND; lia].
  apply (f_equal SmartPaste.digits_value) in Ey, Em, Ee.
  rewrite !fmt_0d_value in Ey, Em, Ee by lia.
  subst. reflexivity.
Qed.

Lemma isoformat_injective_witness :
  (1 <= 739000 <= 3652059 /\ 1 <= 739000 <= 3652059 /\
   Date.isoformat 739000 = Date.isoformat 739000) /\ 739000 = 739000.
Proof.
  split; [split; [lia|split; [lia|reflexivity]]|].
  apply isoformat_injective; [lia|lia|reflexivity].
Defined.

Lemma not_in_space : forall l, existsb (Z.eqb 32) l = false -> ~ In 32 l.
Proof.
  intros l H Hin. assert (existsb (Z.eqb 32) l = true) by
    (apply existsb_exists; exists 32; split; [exact Hin|apply Z.eqb_refl]).
  congruence.
Qed.

Lemma not_in_app : forall (x : Z) l1 l2, ~ In x l1 -> ~ In x l2 -> ~ In x (l1 ++ l2).
Proof. intros x l1 l2 H1 H2 H. apply in_app_or in H as [H|H]; auto. Qed.

Lemma digits_no_space : forall l, all_digits l -> ~ In 32 l.
Proof.
  intros l H Hin. unfold all_digits in H. rewrite Forall_forall in H.
  specialize (H 32 Hin). discriminate.
Qed.

Lemma fmt_0d_no_space : forall w n, ~ In 32 (Fmt.fmt_0d w n).
Proof.
  intros w n. destruct (Z.ltb_spec n 0).
  - unfold Fmt.fmt_0d. rewrite (proj2 (Z.ltb_lt n 0) H).
    intros [E|E]; [discriminate|]. revert E.
    pose proof (fmt_0d_digits (w - 1) (- n) ltac:(lia)) as Hd.
    unfold Fmt.fmt_0d in Hd. rewrite (proj2 (Z.ltb_ge (- n) 0) ltac:(lia)) in Hd.
    apply digits_no_space. exact Hd.
  - apply digits_no_space, fmt_0d_digits. exact H.
Qed.

Lemma isoformat_no_space : forall d, ~ In 32 (Date.isoformat d).
Proof.
  intros d. unfold Date.isoformat. destruct (Date.ord2ymd d) as [[y m] dd].
  repeat apply not_in_app; try apply fmt_0d_no_space;
    intros [E|E]; (discriminate || exact E).
Qed.

Lemma int_str_no_space : forall n, ~ In 32 (Fmt.int_str n).
Proof.
  intros n. unfold Fmt.int_str. destruct (Z.ltb_spec n 0).
  - intros [E|E]; [discriminate|]. revert E. apply digits_no_space, dec_digits. lia.
  - apply digits_no_space, dec_digits. exact H.
Qed.

Lemma replace1_no_old : forall old new s, ~ In old new -> ~ In old (replace1 old new s).
Proof.
  intros old new s Hn. induction s as [|c s IH]; simpl; [auto|].
  apply not_in_app; [|exact IH].
  destruct (Z.eqb_spec c old); [exact Hn|]. intros [E|E]; [congruence|exact E].
Qed.

Ltac no_space :=
  repeat apply not_in_app;
  first [ apply isoformat_no_space | apply int_str_no_space
        | apply replace1_no_old; apply not_in_space; reflexivity
        | apply not_in_space; reflexivity ].

(** X5 (booking_link, expedia_link, airbnb_link): for every city, dates and
    adults count, the three lodging links contain no space character. *)
Theorem links_no_space : forall city start end_ adults,
  ~ In 32 (booking_link city start end_ adults) /\
  ~ In 32 (expedia_link city start end_ adults) /\
  ~ In 32 (airbnb_link city start end_ adults).
Proof.
  intros. unfold booking_link, expedia_link, airbnb_link.
  repeat split; no_space.
Qed.

Lemma links_no_space_witness :
  ~ In 32 (booking_link (code_points "Port Angeles, Washington, United States of America")
             739000 739002 2).
Proof.
  apply (links_no_space (code_points "Port Angeles, Washington, United States of America")
           739000 739002 2).
Defined.

Lemma date_add_ok : forall d n e, date_add d n = Ok e -> e = d + n.
Proof.
  intros d n e. unfold date_add.
  destruct (999999999 <? Z.abs n); [discriminate|].
  destruct ((1 <=? d + n) && (d + n <=? 3652059)); intros H; inversion H; reflexivity.
Qed.

Module ForecastFacts.
Import Forecast.

Lemma zip4_nil : forall a b c d,
  a = [] \/ b = [] \/ c = [] \/ d = [] -> zip4 a b c d = [].
Proof.
  intros a b c d H.
  destruct a, b, c, d; try reflexivity; decompose [or] H; discriminate.
Qed.

Lemma zip4_length : forall a b c d,
  List.length (zip4 a b c d) =
  Nat.min (Nat.min (List.length a) (List.length b)) (Nat.min (List.length c) (List.length d)).
Proof.
  induction a as [|x a IH]; intros b c d; [reflexivity|].
  destruct b, c, d; simpl; try lia. rewrite IH. reflexivity.
Qed.

Lemma zip4_nth : forall a b c d k,
  (k < List.length (zip4 a b c d))%nat ->
  nth k (zip4 a b c d) (mk_row JNull JNull JNull JNull) =
  mk_row (nth k a JNull) (nth k b JNull) (nth k c JNull) (nth k d JNull).
Proof.
  induction a as [|x a IH]; intros b c d k Hk; [simpl in Hk; lia|].
  destruct b, c, d; simpl in Hk |- *; try lia.
  destruct k; [reflexivity|]. apply IH. lia.
Qed.

End ForecastFacts.

(** X6 (forecast_rows): when the four daily series of the response are
    lists, the forecast has as many rows as the shortest series, and row [k]
    holds the [k]-th entry of each series. *)
Theorem forecast_rows_zip : forall fetch start nights end_ j d ts mns mxs ps,
  date_add start (nights + 1) = Ok end_ ->
  fetch (Forecast.url start end_) = Some j ->
  Forecast.get j Forecast.k_daily (Forecast.JObj []) = Some d ->
  Forecast.get d Forecast.k_time (Forecast.JArr []) = Some (Forecast.JArr ts) ->
  Forecast.get d Forecast.k_min (Forecast.JArr []) = Some (Forecast.JArr mns) ->
  Forecast.get d Forecast.k_max (Forecast.JArr []) = Some (Forecast.JArr mxs) ->
  Forecast.get d Forecast.k_precip (Forecast.JArr []) = Some (Forecast.JArr ps) ->
  let rows := Forecast.forecast_rows fetch start nights in
  List.length rows =
    Nat.min (Nat.min (List.length ts) (List.length mns))
            (Nat.min (List.length mxs) (List.length ps)) /\
  forall k, (k < List.length rows)%nat ->
    nth k rows (Forecast.mk_row Forecast.JNull Forecast.JNull Forecast.JNull Forecast.JNull) =
    Forecast.mk_row (nth k ts Forecast.JNull) (nth k mns Forecast.JNull)
                    (nth k mxs Forecast.JNull) (nth k ps Forecast.JNull).
Proof.
  intros fetch start nights end_ j d ts mns mxs ps He Hf Hd Ht Hmn Hmx Hp rows.
  assert (E : rows = Forecast.zip4 ts mns mxs ps).
  { unfold rows, Forecast.forecast_rows. rewrite He, Hf, Hd, Ht, Hmn, Hmx, Hp. reflexivity. }
  rewrite E. split; [apply ForecastFacts.zip4_length|apply ForecastFacts.zip4_nth].
Qed.

(** X7 (forecast_rows): the forecast is empty when the end date
    [start + nights + 1] is out of range, when the request or its JSON
    decoding fails, when the response has no "daily" entry, and when
    "daily" lacks one of the four series. *)
Theorem forecast_rows_empty : forall fetch start nights,
  ((exists e, date_add start (nights + 1) = Raise e) ->
     Forecast.forecast_rows fetch start nights = []) /\
  (forall end_, date_add start (nights + 1) = Ok end_ ->
     fetch (Forecast.url start end_) = None ->
     Forecast.forecast_rows fetch start nights = []) /\
  (forall end_ kv, date_add start (nights + 1) = Ok end_ ->
     fetch (Forecast.url start end_) = Some (Forecast.JObj kv) ->
     Forecast.assoc Forecast.k_daily kv = None ->
     Forecast.forecast_rows fetch start nights = []) /\
  (forall end_ kv kv' k, date_add start (nights + 1) = Ok end_ ->
     fetch (Forecast.url start end_) = Some (Forecast.JObj kv) ->
     Forecast.assoc Forecast.k_daily kv = Some (Forecast.JObj kv') ->
     In k [Forecast.k_time; Forecast.k_min; Forecast.k_max; Forecast.k_precip] ->
     Forecast.assoc k kv' = None ->
     Forecast.forecast_rows fetch start nights = []).
Proof.
  intros fetch start nights. unfold Forecast.forecast_rows.
  split; [|split; [|split]].
  - intros [e He]. rewrite He. reflexivity.
  - intros end_ He Hf. rewrite He, Hf. reflexivity.
  - intros end_ kv He Hf Hk. rewrite He, Hf. simpl. rewrite Hk. reflexivity.
  - intros end_ kv kv' k He Hf Hd Hin Hk. rewrite He, Hf. simpl Forecast.get. rewrite Hd.
    simpl Forecast.get.
    destruct Hin as [<-|[<-|[<-|[<-|[]]]]]; rewrite Hk; simpl Forecast.iter;
      repeat match goal with |- context [match ?o with Some _ => _ | None => _ end] =>
        lazymatch o with
        | Some _ => fail
        | _ => destruct o
        end end; try reflexivity;
      repeat match goal with |- context [match Forecast.iter ?x with _ => _ end] =>
        destruct (Forecast.iter x) end; try reflexivity;
      apply ForecastFacts.zip4_nil; auto.
Qed.

Lemma forecast_rows_zip_witness :
  let resp := Forecast.JObj [(Forecast.k_daily, Forecast.JObj
      [(Forecast.k_time, Forecast.JArr [Forecast.JStr (code_points "2024-04-24");
                                         Forecast.JStr (code_points "2024-04-25")]);
       (Forecast.k_min, Forecast.JArr [Forecast.JFloat 8; Forecast.JFloat 9; Forecast.JFloat 7]);
       (Forecast.k_max, Forecast.JArr [Forecast.JFloat 15; Forecast.JFloat 16]);
       (Forecast.k_precip, Forecast.JArr [Forecast.JInt 10; Forecast.JInt 40])])] in
  List.length (Forecast.forecast_rows (fun _ => Some resp) 739000 2) = 2%nat /\
  nth 1 (Forecast.forecast_rows (fun _ => Some resp) 739000 2)
    (Forecast.mk_row Forecast.JNull Forecast.JNull Forecast.JNull Forecast.JNull) =
  Forecast.mk_row (Forecast.JStr (code_points "2024-04-25")) (Forecast.JFloat 9)
                  (Forecast.JFloat 16) (Forecast.JInt 40).
Proof.
  intros resp.
  assert (H := forecast_rows_zip (fun _ => Some resp) 739000 2 739003 resp
    (match Forecast.get resp Forecast.k_daily (Forecast.JObj []) with
     | Some d => d | None => Forecast.JNull end)
    [Forecast.JStr (code_points "2024-04-24"); Forecast.JStr (code_points "2024-04-25")]
    [Forecast.JFloat 8; Forecast.JFloat 9; Forecast.JFloat 7]
    [Forecast.JFloat 15; Forecast.JFloat 16]
    [Forecast.JInt 10; Forecast.JInt 40]
    ltac:(vm_compute; reflexivity) eq_refl ltac:(vm_compute; reflexivity)
    ltac:(vm_compute; reflexivity) ltac:(vm_compute; reflexivity)
    ltac:(vm_compute; reflexivity) ltac:(vm_compute; reflexivity)).
  cbv zeta in H. destruct H as [Hl Hn]. split.
  - rewrite Hl. reflexivity.
  - rewrite Hn by (rewrite Hl; simpl; lia). reflexivity.
Defined.

Lemma forecast_rows_empty_witness :
  Forecast.forecast_rows (fun _ => None) 3652058 2 = [] /\
  Forecast.forecast_rows (fun _ => None) 739000 2 = [] /\
  Forecast.forecast_rows (fun _ => Some (Forecast.JObj [])) 739000 2 = [] /\
  Forecast.forecast_rows (fun _ => Some (Forecast.JObj
    [(Forecast.k_daily, Forecast.JObj
       [(Forecast.k_time, Forecast.JArr [Forecast.JInt 1]);
        (Forecast.k_min, Forecast.JArr [Forecast.JInt 1]);
        (Forecast.k_max, Forecast.JArr [Forecast.JInt 1])])])) 739000 2 = [].
Proof.
  destruct (forecast_rows_empty (fun _ => None) 3652058 2) as [H1 _].
  destruct (forecast_rows_empty (fun _ => None) 739000 2) as [_ [H2 _]].
  destruct (forecast_rows_empty (fun _ => Some (Forecast.JObj [])) 739000 2) as [_ [_ [H3 _]]].
  destruct (forecast_rows_empty (fun _ => Some (Forecast.JObj
    [(Forecast.k_daily, Forecast.JObj
       [(Forecast.k_time, Forecast.JArr [Forecast.JInt 1]);
        (Forecast.k_min, Forecast.JArr [Forecast.JInt 1]);
        (Forecast.k_max, Forecast.JArr [Forecast.JInt 1])])])) 739000 2)
    as [_ [_ [_ H4]]].
  split; [apply H1; exists OverflowError; vm_compute; reflexivity|].
  split; [apply (H2 739003); reflexivity|].
  split; [apply (H3 739003 []); reflexivity|].
  eapply (H4 739003); [reflexivity|reflexivity|vm_compute; reflexivity| |].
  - right; right; right; left; reflexivity.
  - vm_compute. reflexivity.
Defined.




Lemma insert_asc_perm : forall x l, Permutation (Apply.insert_asc x l) (x :: l).
Proof.
  intros x l. induction l as [|e l IH]; simpl; [auto|].
  destruct (x <? e)%float; [auto|].
  rewrite IH. apply perm_swap.
Qed.

Lemma sorted_asc_perm_gen : forall l acc,
  Permutation (fold_left (fun acc x => Apply.insert_asc x acc) l acc) (rev l ++ acc).
Proof.
  induction l as [|x l IH]; intros acc; simpl; [auto|].
  rewrite IH, insert_asc_perm, <- app_assoc. simpl.
  reflexivity.
Qed.

Lemma insert_asc_sorted : forall x l, is_nan x = false -> no_nan l ->
  Sorted fle l -> Sorted fle (Apply.insert_asc x l).
Proof.
  intros x l Hx. induction l as [|e l IH]; intros Hl Hs; simpl; [auto|].
  inversion Hl as [|? ? He Hl']; subst.
  destruct (x <? e)%float eqn:E.
  - constructor; [exact Hs|]. constructor. unfold fle.
    rewrite less_ltb by exact Hx. apply ltb_asym. exact E.
  - inversion Hs as [|? ? Hs' Hh]; subst. constructor; [apply IH; assumption|].
    assert (Hex : fle e x) by (unfold fle; rewrite less_ltb by exact He; exact E).
    destruct l as [|e' l]; simpl.
    + constructor. exact Hex.
    + inversion Hh; subst. destruct (x <? e')%float; constructor; assumption.
Qed.

Lemma insert_asc_no_nan : forall x l, is_nan x = false -> no_nan l ->
  no_nan (Apply.insert_asc x l).
Proof.
  intros x l Hx Hl. unfold no_nan. eapply Permutation_Forall.
  - apply Permutation_sym, insert_asc_perm.
  - constructor; assumption.
Qed.

Lemma sorted_asc_gen : forall l acc, no_nan l -> no_nan acc -> Sorted fle acc ->
  Sorted fle (fold_left (fun acc x => Apply.insert_asc x acc) l acc).
Proof.
  induction l as [|x l IH]; intros acc Hl Ha Hs; simpl; [exact Hs|].
  inversion Hl; subst. apply IH; [assumption|apply insert_asc_no_nan; assumption|].
  apply insert_asc_sorted; assumption.
Qed.

Lemma SS_fle_ltb : forall l, no_nan l -> StronglySorted fle l ->
  StronglySorted (fun a b => (b <? a)%float = false) l.
Proof.
  induction l as [|a l IH]; intros Hn Hs; [constructor|].
  inversion Hn as [|? ? Ha Hn']; subst. inversion Hs as [|? ? Hs' Hf]; subst.
  constructor; [apply IH; assumption|].
  rewrite Forall_forall in Hf |- *. intros b Hb. specialize (Hf b Hb).
  unfold fle in Hf. rewrite less_ltb in Hf by exact Ha. exact Hf.
Qed.




Lemma compute_results_Forall2 : forall df rows,
  compute_results df = Ok rows <-> Forall2 (fun r o => compare_row r = Ok o) df rows.
Proof.
  induction df as [|r df IH]; intros rows; simpl.
  - split; intros H; [inversion H; constructor|inversion H; reflexivity].
  - unfold bind. split.
    + destruct (compare_row r) as [o|e] eqn:Ho; [|discriminate].
      destruct (compute_results df) as [os|e] eqn:E; [|discriminate].
      intros H; inversion H; subst. constructor; [exact Ho|]. apply IH. reflexivity.
    + intros H. inversion H as [|? o ? os Ho Hos]; subst. rewrite Ho.
      apply IH in Hos. rewrite Hos. reflexivity.
Qed.

Lemma compare_row_label : forall r o, compare_row r = Ok o -> Out.label o = Scenario.label r.
Proof.
  intros r o. unfold compare_row, bind.
  destruct (date_add _ _); [|discriminate].
  destruct (cost_breakdown _ _ _ _ _ _ _ _ _ _ _ _); [|discriminate].
  destruct (py_int_of_float _); [|discriminate].
  destruct (div_fi _ _); [|discriminate].
  intros H; inversion H; reflexivity.
Qed.



Lemma cost_breakdown_miles :
  forall nights people use_ferry extra rd rp ln lf gas mpg pf ft b,
  cost_breakdown nights people use_ferry extra rd rp ln lf gas mpg pf ft = Ok b ->
  miles b = trip_miles use_ferry extra.
Proof.
  intros until b. unfold cost_breakdown, bind.
  destruct (mul_fi rd (nights + 1)); [|discriminate].
  rewrite div_ff_100.
  destruct (if gt0 mpg then _ else _); [|discriminate].
  destruct (mul_fi ln nights); [|discriminate].
  destruct (if negb (people =? 0) then _ else _); [|discriminate].
  intros H; inversion H; reflexivity.
Qed.

Lemma py_int_of_float_raise : forall x e,
  py_int_of_float x = Raise e <->
  (is_nan x = true /\ e = ValueError) \/ (is_infinity x = true /\ e = OverflowError).
Proof.
  intros x e. rewrite <- Prim2SF_nan_iff, is_infinity_iff. unfold py_int_of_float.
  destruct (Prim2SF x) as [s|s| |s m ex]; split; intros H.
  - discriminate.
  - destruct H as [[H _]|[[s' H] _]]; discriminate.
  - right. split; [eauto|congruence].
  - destruct H as [[H _]|[_ H]]; [discriminate|congruence].
  - left. split; [reflexivity|congruence].
  - destruct H as [[_ H]|[[s H] _]]; [congruence|discriminate].
  - discriminate.
  - destruct H as [[H _]|[[s' H] _]]; discriminate.
Qed.

(** X13 (compare tab): for [0 <= nights <= 1000], a row raises exactly
    when its end date is outside [date.min .. date.max] (OverflowError) or
    when [int(b["miles"])] fails: ValueError for NaN miles, OverflowError
    for infinite miles. *)
Theorem compare_row_raise : forall r e,
  0 <= Scenario.nights r <= small_bound ->
  let d := Scenario.start r + Scenario.nights r in
  let m := trip_miles (Scenario.use_ferry r) (Scenario.extra_miles r) in
  compare_row r = Raise e <->
  (~ (1 <= d <= 3652059) /\ e = OverflowError) \/
  (1 <= d <= 3652059 /\
   ((is_nan m = true /\ e = ValueError) \/ (is_infinity m = true /\ e = OverflowError))).
Proof.
  intros r e Hn d m. unfold compare_row.
  assert (Hd : date_add (Scenario.start r) (Scenario.nights r) =
               if (1 <=? d) && (d <=? 3652059) then Ok d else Raise OverflowError).
  { unfold date_add. replace (999999999 <? Z.abs (Scenario.nights r)) with false
      by (symmetry; apply Z.ltb_ge; unfold small_bound in Hn; lia).
    reflexivity. }
  rewrite Hd. destruct ((1 <=? d) && (d <=? 3652059)) eqn:Er.
  - apply andb_true_iff in Er as [E1 E2]. apply Z.leb_le in E1, E2.
    simpl bind.
    destruct (cost_breakdown_small_ok (Scenario.nights r) 2 (Scenario.use_ferry r) (Scenario.extra_miles r)
      (Scenario.avis_daily r) (Scenario.avis_fees_pct r) (Scenario.lodging_nightly r) (Scenario.lodging_fees r)
      (Scenario.gas r) (Scenario.mpg r) (Scenario.park_fee r) (Scenario.ferry_total r) Hn
      ltac:(unfold small_bound; lia)) as [b [Hb _]].
    rewrite Hb. simpl bind. rewrite (cost_breakdown_miles _ _ _ _ _ _ _ _ _ _ _ _ _ Hb).
    fold m. change (div_fi (total b) 1) with (Ok (total b / 1)%float).
    destruct (py_int_of_float m) as [k|e'] eqn:Hm; simpl.
    + split; [discriminate|]. intros [[H _]|[_ H]]; [lia|].
      apply py_int_of_float_raise in H. congruence.
    + rewrite <- py_int_of_float_raise, Hm. split.
      * intros H. right. split; [lia|]. inversion H. reflexivity.
      * intros [[H _]|[_ H]]; [lia|]. inversion H. reflexivity.
  - simpl bind. apply andb_false_iff in Er.
    assert (Hout : ~ (1 <= d <= 3652059)) by (destruct Er as [E|E]; apply Z.leb_gt in E; lia).
    split.
    + intros H. inversion H. left. auto.
    + intros [[_ H]|[H _]]; [subst; reflexivity|tauto].
Qed.

Lemma compute_results_labels : forall df rows,
  compute_results df = Ok rows -> map Out.label rows = map Scenario.label df.
Proof.
  intros df rows H. apply compute_results_Forall2 in H.
  induction H as [|r o df rows Ho _ IH]; [reflexivity|].
  simpl. rewrite IH, (compare_row_label r o Ho). reflexivity.
Qed.

Lemma find_first : forall {A} (f : A -> bool) l,
  (exists x, In x l /\ f x = true) ->
  exists pre y post, l = pre ++ y :: post /\ f y = true /\
    Forall (fun z => f z = false) pre /\ find f l = Some y.
Proof.
  intros A f l. induction l as [|a l IH]; intros [x [Hx Hf]]; [destruct Hx|].
  simpl. destruct (f a) eqn:Ea.
  - exists [], a, l. auto.
  - destruct Hx as [->|Hx]; [congruence|].
    destruct IH as (pre & y & post & -> & Hy & Hpre & Hfind); [eauto|].
    exists (a :: pre), y, post. auto.
Qed.

Lemma Forall2_in_l : forall {A B} (R : A -> B -> Prop) l l' x,
  Forall2 R l l' -> In x l -> exists y, In y l' /\ R x y.
Proof.
  intros A B R l l' x H. induction H as [|a b l l' Hab _ IH]; intros Hx; [destruct Hx|].
  destruct Hx as [->|Hx]; [exists b; simpl; auto|].
  destruct (IH Hx) as [y [Hy Hr]]. exists y. simpl. auto.
Qed.


Lemma compare_row_date : forall r o, compare_row r = Ok o ->
  date_add (Scenario.start r) (Scenario.nights r) = Ok (Scenario.start r + Scenario.nights r).
Proof.
  intros r o. unfold compare_row, bind.
  destruct (date_add _ _) as [e|] eqn:E; [|discriminate].
  intros _. rewrite (date_add_ok _ _ _ E). reflexivity.
Qed.

(** X14 (open searches for a selected row): for a label the picker offers,
    the lookup does not raise: it takes the first table row with that label
    and its end date [start + nights]. *)
Theorem selected_window_first : forall df rows sel,
  compute_results df = Ok rows ->
  In sel (picker_options rows) ->
  exists pre r post,
    df = pre ++ r :: post /\ Scenario.label r = sel /\
    Forall (fun r' => Scenario.label r' <> sel) pre /\
    selected_window df sel = Some (Ok (r, Scenario.start r + Scenario.nights r)).
Proof.
  intros df rows sel Hc Hin.
  unfold picker_options in Hin. rewrite (compute_results_labels df rows Hc) in Hin.
  apply in_map_iff in Hin as [x [Hx Hxin]].
  destruct (find_first (fun r => String.eqb (Scenario.label r) sel) df) as
    (pre & r & post & Edf & Hr & Hpre & Hfind).
  { exists x. split; [exact Hxin|]. apply String.eqb_eq. exact Hx. }
  exists pre, r, post. split; [exact Edf|]. split; [apply String.eqb_eq; exact Hr|].
  split.
  - eapply Forall_impl; [|exact Hpre]. simpl. intros a Ha E.
    apply String.eqb_neq in Ha. contradiction.
  - unfold selected_window. rewrite Hfind.
    apply compute_results_Forall2 in Hc.
    assert (Hrin : In r df) by (rewrite Edf; apply in_or_app; right; left; reflexivity).
    destruct (Forall2_in_l _ _ _ _ Hc Hrin) as [o [_ Ho]]. 
    rewrite (compare_row_date r o Ho). reflexivity.
Qed.



Lemma compare_row_raise_witness :
  compare_row (Scenario.mk "Broken" 739000 2 55 22 150 60 true 50 nan 4.5 30 30)%float
    = Raise ValueError /\
  compare_row (Scenario.mk "Late" 3652058 2 55 22 150 60 true 50 40 4.5 30 30)%float
    = Raise OverflowError.
Proof.
  split.
  - apply (compare_row_raise (Scenario.mk "Broken" 739000 2 55 22 150 60 true 50 nan 4.5 30 30)%float
      ValueError ltac:(vm_compute; split; discriminate)).
    right. split; [cbn; lia|]. left. split; [vm_compute; reflexivity|reflexivity].
  - apply (compare_row_raise (Scenario.mk "Late" 3652058 2 55 22 150 60 true 50 40 4.5 30 30)%float
      OverflowError ltac:(vm_compute; split; discriminate)).
    left. split; [cbn; lia|reflexivity].
Defined.

Lemma selected_window_first_witness :
  let df := [Scenario.mk "Weekend" 739000 2 55 22 150 60 true 50 40 4.5 30 30;
             Scenario.mk "Weekend" 739002 3 65 22 185 60 false 0 40 4.6 30 30]%float in
  match compute_results df with
  | Ok rows =>
      selected_window df "Weekend" =
        Some (Ok (Scenario.mk "Weekend" 739000 2 55 22 150 60 true 50 40 4.5 30 30, 739002%Z))%float
  | Raise _ => False
  end.
Proof.
  intros df. destruct (compute_results df) as [rows|e] eqn:E.
  - destruct (selected_window_first df rows "Weekend" E) as
      (pre & r & post & Edf & Hl & Hpre & ->).
    + assert (Hp : picker_options rows = ["Weekend"; "Weekend"]%string).
      { vm_compute in E. inversion E. reflexivity. }
      rewrite Hp. left. reflexivity.
    + destruct pre as [|p pre].
      * simpl in Edf. inversion Edf. reflexivity.
      * inversion Hpre as [|? ? Hp _]; subst. simpl in Edf. inversion Edf; subst.
        exfalso. apply Hp. reflexivity.
  - vm_compute in E. discriminate.
Defined.
